(** * chat-app: RSA engine, Hamming(7,4) codec and relay broker

    A shallow embedding of the message pipeline of the chat application
    (utils/math.js, utils/rsa.js, utils/hamming.js, server.js) together
    with the properties of its specification.

    Conventions.
    - A JavaScript [BigInt] is a [Z]; BigInt [/] and [%] truncate toward
      zero, hence [Z.quot] and [Z.rem].
    - A JavaScript string is the list of its UTF-16 code units, each a
      [Z] in [0, 65535].
    - The 32-bit integer operators [>>], [<<], [&], [|] convert their
      operands with [ToInt32]; the wrap-around is written out.
    - A [throw] is the [Throw] outcome of the [result] type.
    - [while] loops and non-structural recursion that always terminate
      are defined with Equations by well-founded recursion; key
      generation, whose loops are driven by random draws, takes the
      stream of draws and a fuel.
    - The [Map] of the broker is the list of its entries in insertion
      order; sockets are named by their remote endpoint.
    - The broker is modelled on the records of the protocol: the name,
      the target and the receiver of a record are strings or missing.
      The payload is any value, and the one conversion to a string that
      can throw on such records, the preview of the payload, is
      modelled with the [catch] block that answers it. *)

From Stdlib Require Import ZArith Zdivisibility Lia Bool List Ascii String.
From Stdlib Require Import DecimalString DecimalZ DecimalPos.
From Stdlib Require Import Zmod.ZmodInv.
From Equations Require Import Equations.
From Equations.Prop Require Import Logic.
Import ListNotations.

Local Open Scope Z_scope.

(* ================================================================= *)
(** * JavaScript primitives used by the sources *)

Module Js.

Inductive exn : Type :=
| RangeError
| SyntaxError
| TypeError
| Error (message : string).

(** Outcome of a call that may [throw]. *)
Inductive result (A : Type) : Type :=
| Ok (a : A)
| Throw (e : exn).
Arguments Ok {A} a.
Arguments Throw {A} e.

Definition bind {A B : Type} (r : result A) (k : A -> result B) : result B :=
  match r with
  | Ok a => k a
  | Throw e => Throw e
  end.

(** [bigint.toString()]: the canonical decimal numeral. *)
Definition BigInt_toString (z : Z) : string :=
  NilZero.string_of_int (Z.to_int z).

(** ** [BigInt(str)]

    A [string] holds code units below 256, one per character. *)

Definition code_unit (c : ascii) : Z := Z.of_N (N_of_ascii c).

(** White space and line terminators, among the code units below 256:
    TAB, LF, VT, FF, CR, SP and NBSP. *)
Definition is_white_space (c : ascii) : bool :=
  existsb (Z.eqb (code_unit c)) [9; 10; 11; 12; 13; 32; 160].

Fixpoint trim_start (s : string) : string :=
  match s with
  | EmptyString => EmptyString
  | String c rest => if is_white_space c then trim_start rest else s
  end.

Fixpoint trim_end (s : string) : string :=
  match s with
  | EmptyString => EmptyString
  | String c rest =>
      match trim_end rest with
      | EmptyString =>
          if is_white_space c then EmptyString else String c EmptyString
      | rest' => String c rest'
      end
  end.

(** The value of a digit: [0-9], [a-z] and [A-Z]. *)
Definition digit_value (c : ascii) : option Z :=
  let n := code_unit c in
  if (48 <=? n) && (n <=? 57) then Some (n - 48)
  else if (97 <=? n) && (n <=? 122) then Some (n - 87)
  else if (65 <=? n) && (n <=? 90) then Some (n - 55)
  else None.

Fixpoint digits_value (radix : Z) (s : string) (acc : Z) : option Z :=
  match s with
  | EmptyString => Some acc
  | String c rest =>
      match digit_value c with
      | Some d =>
          if d <? radix then digits_value radix rest (acc * radix + d)
          else None
      | None => None
      end
  end.

(** One digit or more in the given radix. *)
Definition radix_digits (radix : Z) (s : string) : option Z :=
  match s with
  | EmptyString => None
  | _ => digits_value radix s 0
  end.

(** One decimal digit or more. *)
Definition decimal_digits (s : string) : option Z :=
  option_map Z.of_uint (NilZero.uint_of_string s).

(** The radix announced by the letter that follows a leading [0]:
    [x], [o] or [b], in either case. *)
Definition radix_of (p : ascii) : option Z :=
  if existsb (Z.eqb (code_unit p)) [120; 88] then Some 16
  else if existsb (Z.eqb (code_unit p)) [111; 79] then Some 8
  else if existsb (Z.eqb (code_unit p)) [98; 66] then Some 2
  else None.

(** [StringToBigInt]: the text, trimmed, is empty (the value is 0), a
    hexadecimal, octal or binary literal, or decimal digits after an
    optional sign; [None] otherwise. *)
Definition StringToBigInt (str : string) : option Z :=
  match trim_end (trim_start str) with
  | EmptyString => Some 0
  | String c rest =>
      let prefixed :=
        if (c =? "0")%char then
          match rest with
          | String p digits =>
              match radix_of p with
              | Some radix => Some (radix, digits)
              | None => None
              end
          | EmptyString => None
          end
        else None in
      match prefixed with
      | Some (radix, digits) => radix_digits radix digits
      | None =>
          if (c =? "+")%char then decimal_digits rest
          else if (c =? "-")%char then
            option_map Z.opp (decimal_digits rest)
          else decimal_digits (String c rest)
      end
  end.

(** [BigInt(str)] of a string: a [SyntaxError] when the string is no
    integer literal. *)
Definition BigInt (s : string) : result Z :=
  match StringToBigInt s with
  | Some z => Ok z
  | None => Throw SyntaxError
  end.

(** [Number.isSafeInteger(x)] of a Number holding an integer. *)
Definition isSafeInteger (x : Z) : bool :=
  (- (2 ^ 53 - 1) <=? x) && (x <=? 2 ^ 53 - 1).

(** The text of a Number in a template literal, for a Number holding an
    integer of magnitude below [2^53]: its decimal numeral. *)
Definition Number_toString (x : Z) : string := BigInt_toString x.

(** [a ** b] on BigInt: a negative exponent is a [RangeError]. *)
Definition big_pow (a b : Z) : result Z :=
  if b <? 0 then Throw RangeError else Ok (a ^ b).

(** [a % n] on BigInt: truncated remainder, division by zero is a
    [RangeError]. *)
Definition big_rem (a n : Z) : result Z :=
  if n =? 0 then Throw RangeError else Ok (Z.rem a n).

(** [ToInt32] of an integral Number. *)
Definition ToInt32 (x : Z) : Z := (x + 2 ^ 31) mod 2 ^ 32 - 2 ^ 31.

(** [x >> k], [x << k], [x & y], [x | y] on Numbers holding integers. *)
Definition shr (x k : Z) : Z := Z.shiftr (ToInt32 x) (k mod 32).
Definition shl (x k : Z) : Z := ToInt32 (Z.shiftl (ToInt32 x) (k mod 32)).
Definition band (x y : Z) : Z := Z.land (ToInt32 x) (ToInt32 y).
Definition bor (x y : Z) : Z := Z.lor (ToInt32 x) (ToInt32 y).

(** A string is the list of its UTF-16 code units. *)
Definition jsstring : Type := list Z.

(** [String.fromCharCode(x)]: one code unit, [ToUint16 x]. *)
Definition fromCharCode (x : Z) : jsstring := [x mod 65536].

(** [s.charCodeAt(i)]; [None] stands for [NaN] (index out of range). *)
Definition charCodeAt (s : jsstring) (i : nat) : option Z := nth_error s i.

(** A Number that may be [NaN], converted by a bitwise operator:
    [ToInt32 NaN = 0]. *)
Definition of_NaN (x : option Z) : Z :=
  match x with
  | Some v => v
  | None => 0
  end.

Definition is_high_surrogate (u : Z) : bool := (55296 <=? u) && (u <=? 56319).
Definition is_low_surrogate (u : Z) : bool := (56320 <=? u) && (u <=? 57343).

(** [for (let ch of s)]: iteration by code points; a high surrogate
    followed by a low surrogate is one two-unit [ch]. *)
Fixpoint for_of (s : jsstring) : list jsstring :=
  match s with
  | [] => []
  | u :: rest =>
      match rest with
      | v :: rest' =>
          if is_high_surrogate u && is_low_surrogate v
          then [u; v] :: for_of rest'
          else [u] :: for_of rest
      | [] => [[u]]
      end
  end.

(** [s.split('')]: one string per code unit. *)
Definition split_units (s : jsstring) : list jsstring :=
  map (fun u => [u]) s.

(** [Number(x)] of an integer value (a decimal numeral or a BigInt): the
    nearest double, ties to even; [None] is an infinity. *)
Definition Number_of_BigInt (z : Z) : option Z :=
  let a := Z.abs z in
  if a <? 2 ^ 53 then Some z
  else
    let k := Z.log2 a - 52 in
    let q := a / 2 ^ k in
    let r := a mod 2 ^ k in
    let half := 2 ^ (k - 1) in
    let q' := if (half <? r) || ((r =? half) && Z.odd q) then q + 1 else q in
    let m := q' * 2 ^ k in
    if 2 ^ 1024 <=? m then None else Some (Z.sgn z * m).

(** [Number(str)] of a string that holds an integer literal, as the
    text [decrypt_char] returns does; [None] is [NaN] or an infinity,
    which [String.fromCharCode] both turn into the code unit 0. *)
Definition Number_of_string (s : string) : option Z :=
  match BigInt s with
  | Ok z => Number_of_BigInt z
  | Throw _ => None
  end.

(** ** Values of [JSON.parse]

    A number is kept by its binary64 encoding, an object by the list of
    its own properties.  The values [JSON.parse] builds hold no
    function, no symbol and no [undefined]. *)
#[local] Set Warnings "-register-all".
Inductive json : Type :=
| JNull
| JBool (b : bool)
| JNumber (bits : Z)
| JString (s : string)
| JArray (items : list json)
| JObject (members : list (string * json)).

(** The own property [key] exists. *)
Definition has_own (members : list (string * json)) (key : string) : bool :=
  existsb (fun member => String.eqb (fst member) key) members.

(** [ToString(v)] returns, as a template literal, [String(v)] or
    [arr.join()] need it.  An object is converted by its [toString]
    method: the one of [Object.prototype], unless the object has an own
    property of this name; such a property is never callable, and with
    no other method giving a primitive the conversion throws a
    [TypeError].  An array is converted by joining the conversions of
    its elements. *)
Fixpoint ToString_returns (v : json) : bool :=
  match v with
  | JArray items => forallb ToString_returns items
  | JObject members => negb (has_own members "toString")
  | _ => true
  end.

End Js.

(* ================================================================= *)
(** * utils/math.js *)

Module MathJs.

(** [for (let i = 5n; i * i <= num; i += 6n)] of [isPrime]. *)
Equations isPrime_loop (i num : Z) : bool
  by wf (Z.to_nat (num + 1 - i)) lt :=
isPrime_loop i num with inspect (i * i <=? num) := {
  | exist _ true Hle =>
      if (Z.rem num i =? 0) || (Z.rem num (i + 2) =? 0) then false
      else isPrime_loop (i + 6) num
  | exist _ false _ => true }.
Next Obligation.
apply Z.leb_le in Hle. nia.
Qed.

Definition isPrime (num : Z) : bool :=
  if num <=? 1 then false
  else if num <=? 3 then true
  else if (Z.rem num 2 =? 0) || (Z.rem num 3 =? 0) then false
  else isPrime_loop 5 num.

(** [const gcd = (a, b) => b === 0n ? a : gcd(b, a % b)]. *)
Equations gcd (a b : Z) : Z by wf (Z.abs_nat b) lt :=
gcd a b with inspect (b =? 0) := {
  | exist _ true _ => a
  | exist _ false Hb => gcd b (Z.rem a b) }.
Next Obligation.
apply Z.eqb_neq in Hb.
pose proof (Z.rem_bound_abs a b Hb). lia.
Qed.

(** ** Random prime sampling

    [entropy] is the stream of raw values behind [crypto.randomInt]; a
    computation reads it from a position and returns the next position. *)

Inductive outcome (A : Type) : Type :=
| Ret (a : A) (pos : nat)
| Raise (e : Js.exn)
| OutOfFuel.
Arguments Ret {A} a pos.
Arguments Raise {A} e.
Arguments OutOfFuel {A}.

Definition Gen (A : Type) : Type := nat -> outcome A.

Definition ret {A : Type} (a : A) : Gen A := fun pos => Ret a pos.

Definition raise {A : Type} (e : Js.exn) : Gen A := fun _ => Raise e.

Definition out_of_fuel {A : Type} : Gen A := fun _ => OutOfFuel.

Definition gbind {A B : Type} (c : Gen A) (k : A -> Gen B) : Gen B :=
  fun pos =>
    match c pos with
    | Ret a pos' => k a pos'
    | Raise e => Raise e
    | OutOfFuel => OutOfFuel
    end.

Notation "x <- c ;; k" := (gbind c (fun x => k))
  (at level 61, c at next level, right associativity).

Section Sampling.

Variable entropy : nat -> Z.

(** [crypto.randomInt(min, max)]: an integer in [[min, max)].  Both
    bounds must be safe integers, a [TypeError] otherwise; then the range
    must be non-empty and narrower than [2^48], a [RangeError]
    otherwise. *)
Definition randomInt (min max : Z) : Gen Z :=
  fun pos =>
    if negb (Js.isSafeInteger min) then Raise Js.TypeError
    else if negb (Js.isSafeInteger max) then Raise Js.TypeError
    else if max <=? min then Raise Js.RangeError
    else if 2 ^ 48 - 1 <? max - min then Raise Js.RangeError
    else Ret (min + entropy pos mod (max - min)) (S pos).

(** The message of the error [generatePrime] throws after its loop. *)
Definition no_prime_message (range : Z) (maxTries : nat) : string :=
  ("No prime number found in range up to " ++ Js.Number_toString range
   ++ " after " ++ Js.Number_toString (Z.of_nat maxTries)
   ++ " attempts.")%string.

(** [for (let i = 1; i <= maxTries; i++)] of [generatePrime], followed
    by its [throw]; [tries] is the number of iterations left.  The count
    [maxTries] is below [2^53], where the counter [i] is exact. *)
Fixpoint generatePrime_loop (tries : nat) (range : Z) (maxTries : nat)
  : Gen Z :=
  match tries with
  | O => raise (Js.Error (no_prime_message range maxTries))
  | S tries' =>
      num <- randomInt 1 (range + 1) ;;
      if isPrime num then ret num
      else generatePrime_loop tries' range maxTries
  end.

Definition generatePrime (range : Z) (maxTries : nat) : Gen Z :=
  generatePrime_loop maxTries range maxTries.

End Sampling.

End MathJs.

(* ================================================================= *)
(** * utils/rsa.js *)

Module RsaJs.
Import Js MathJs.

(** [while (e < phi_n)] of [select_e]; [None] is [null]. *)
Equations select_e_loop (e phi_n : Z) : option Z
  by wf (Z.to_nat (phi_n - e)) lt :=
select_e_loop e phi_n with inspect (e <? phi_n) := {
  | exist _ true Hlt =>
      if gcd e phi_n =? 1 then Some e else select_e_loop (e + 1) phi_n
  | exist _ false _ => None }.
Next Obligation.
apply Z.ltb_lt in Hlt. lia.
Qed.

Definition select_e (phi_n : Z) : option Z := select_e_loop 2 phi_n.

(** [while (a > 1n)] of [mod_inverse]: the value of [x1] at the exit of
    the loop, or [None] for the [return null] inside it. *)
Equations mod_inverse_loop (a m x0 x1 : Z) : option Z
  by wf (Z.abs_nat m) lt :=
mod_inverse_loop a m x0 x1 with inspect (1 <? a) := {
  | exist _ false _ => Some x1
  | exist _ true _ with inspect (m =? 0) := {
      | exist _ true _ => None
      | exist _ false Hm =>
          mod_inverse_loop m (Z.rem a m) (x1 - Z.quot a m * x0) x0 } }.
Next Obligation.
apply Z.eqb_neq in Hm.
pose proof (Z.rem_bound_abs a m Hm). lia.
Qed.

Definition mod_inverse (e phi_n : Z) : option Z :=
  if phi_n =? 1 then Some 0
  else
    match mod_inverse_loop e phi_n 0 1 with
    | None => None
    | Some x1 => Some (if x1 <? 0 then x1 + phi_n else x1)
    end.

Definition encrypt_char (char_code : Z) (e_str n_str : string)
  : result string :=
  let m := char_code in
  bind (BigInt e_str) (fun e =>
  bind (BigInt n_str) (fun n =>
  bind (big_pow m e) (fun p =>
  bind (big_rem p n) (fun c =>
  Ok (BigInt_toString c))))).

Definition decrypt_char (encrypted_char_code_str d_str n_str : string)
  : result string :=
  bind (BigInt encrypted_char_code_str) (fun c =>
  bind (BigInt d_str) (fun d =>
  bind (BigInt n_str) (fun n =>
  bind (big_pow c d) (fun p =>
  bind (big_rem p n) (fun m =>
  Ok (BigInt_toString m)))))).

Record PublicKey : Type := mkPublicKey { pub_e : string; pub_n : string }.
Record PrivateKey : Type := mkPrivateKey { priv_d : string; priv_n : string }.
Record KeyPair : Type :=
  mkKeyPair { public_key : PublicKey; private_key : PrivateKey }.

Section KeyGeneration.

Variable entropy : nat -> Z.

(** [while (p === q) { q = generatePrime(primeRange); }]. *)
Fixpoint redraw_q (fuel : nat) (primeRange p q : Z) : Gen Z :=
  match fuel with
  | O => out_of_fuel
  | S fuel' =>
      if p =? q then
        q' <- generatePrime entropy primeRange 1000 ;;
        redraw_q fuel' primeRange p q'
      else ret q
  end.

(** [RSA.generate_rsa_keys(primeRange)]; [fuel] bounds the retries of
    the recursion and of the redraw loop. *)
Fixpoint generate_rsa_keys (fuel : nat) (primeRange : Z) : Gen KeyPair :=
  match fuel with
  | O => out_of_fuel
  | S fuel' =>
      p <- generatePrime entropy primeRange 1000 ;;
      q0 <- generatePrime entropy primeRange 1000 ;;
      q <- redraw_q fuel' primeRange p q0 ;;
      let n := p * q in
      let phi_n := (p - 1) * (q - 1) in
      match select_e phi_n with
      | None => generate_rsa_keys fuel' (primeRange + 500)
      | Some e =>
          match mod_inverse e phi_n with
          | None => generate_rsa_keys fuel' (primeRange + 500)
          | Some d =>
              ret {| public_key :=
                       {| pub_e := BigInt_toString e;
                          pub_n := BigInt_toString n |};
                     private_key :=
                       {| priv_d := BigInt_toString d;
                          priv_n := BigInt_toString n |} |}
          end
      end
  end.

End KeyGeneration.

(** [RSA.encrypt_message(msg, public_key)]: the [map] over
    [msg.split('')]; [BigInt(NaN)] is a [RangeError]. *)
Fixpoint encrypt_units (chars : list jsstring) (public_key : PublicKey)
  : result (list string) :=
  match chars with
  | [] => Ok []
  | char :: rest =>
      match charCodeAt char 0 with
      | None => Throw RangeError
      | Some code =>
          bind (encrypt_char code (pub_e public_key) (pub_n public_key))
               (fun c =>
          bind (encrypt_units rest public_key) (fun cs =>
          Ok (c :: cs)))
      end
  end.

Definition encrypt_message (msg : jsstring) (public_key : PublicKey)
  : result (list string) :=
  encrypt_units (split_units msg) public_key.

(** [RSA.decrypt_message(encrypted_msg_array, private_key)]: the [map]
    over the array, joined. *)
Fixpoint decrypt_message (encrypted_msg_array : list string)
         (private_key : PrivateKey) : result jsstring :=
  match encrypted_msg_array with
  | [] => Ok []
  | encrypted_char :: rest =>
      bind (decrypt_char encrypted_char (priv_d private_key)
                         (priv_n private_key)) (fun decryptedCode =>
      bind (decrypt_message rest private_key) (fun s =>
      Ok (fromCharCode (of_NaN (Number_of_string decryptedCode)) ++ s)))
  end.

End RsaJs.


(* ================================================================= *)
(** * utils/hamming.js *)

Module HammingJs.
Import Js.

Definition encodeNibble (nibble : list Z) : result (list Z) :=
  match nibble with
  | [d3; d5; d6; d7] =>
      let p1 := Z.rem (d3 + d5 + d7) 2 in
      let p2 := Z.rem (d3 + d6 + d7) 2 in
      let p4 := Z.rem (d5 + d6 + d7) 2 in
      Ok [p1; p2; d3; p4; d5; d6; d7]
  | _ => Throw (Error "Invalid nibble size")
  end.

(** [arr[k] = v] for an index inside the array, the only case the
    source reaches (the index is [syndrome - 1] under the guard
    [1 <= syndrome <= 7] on a 7-element array). *)
Fixpoint array_set (arr : list Z) (k : nat) (v : Z) : list Z :=
  match arr, k with
  | [], _ => []
  | _ :: rest, O => v :: rest
  | x :: rest, S k' => x :: array_set rest k' v
  end.

(** [arr[k]] for an index inside the array. *)
Definition array_get (arr : list Z) (k : nat) : Z := nth k arr 0.

Definition decodeNibble (receivedWord : list Z) : result (list Z) :=
  match receivedWord with
  | [p1; p2; d3; p4; d5; d6; d7] =>
      let s1 := Z.rem (p1 + d3 + d5 + d7) 2 in
      let s2 := Z.rem (p2 + d3 + d6 + d7) 2 in
      let s4 := Z.rem (p4 + d5 + d6 + d7) 2 in
      let syndrome := bor (bor (shl s4 2) (shl s2 1)) s1 in
      let corrected :=
        if negb (syndrome =? 0) then
          if (1 <=? syndrome) && (syndrome <=? 7) then
            let k := Z.to_nat (syndrome - 1) in
            array_set receivedWord k (1 - array_get receivedWord k)
          else receivedWord
        else receivedWord in
      Ok [array_get corrected 2; array_get corrected 4;
          array_get corrected 5; array_get corrected 6]
  | _ => Throw (Error "Invalid word size received.")
  end.

(** [bits.reduce((acc, bit, idx) => acc | (bit << (6 - idx)), 0)]. *)
Fixpoint reduce_pack (bits : list Z) (idx : Z) (acc : Z) : Z :=
  match bits with
  | [] => acc
  | bit :: rest => reduce_pack rest (idx + 1) (bor acc (shl bit (6 - idx)))
  end.

Definition pack (bits : list Z) : Z := reduce_pack bits 0 0.

(** One iteration of the loop of [encodeMessage]: the two characters
    appended for the character [ch]. *)
Definition encodeChar (ch : jsstring) : result jsstring :=
  let code := of_NaN (charCodeAt ch 0) in
  let highNibble :=
    [band (shr code 7) 1; band (shr code 6) 1;
     band (shr code 5) 1; band (shr code 4) 1] in
  let lowNibble :=
    [band (shr code 3) 1; band (shr code 2) 1;
     band (shr code 1) 1; band code 1] in
  bind (encodeNibble highNibble) (fun encodedHigh =>
  bind (encodeNibble lowNibble) (fun encodedLow =>
  let highChar := pack encodedHigh in
  let lowChar := pack encodedLow in
  Ok (fromCharCode highChar ++ fromCharCode lowChar))).

(** [for (let ch of msg)] of [encodeMessage], appending to
    [encodedString]. *)
Fixpoint encodeMessage_loop (chars : list jsstring) (encodedString : jsstring)
  : result jsstring :=
  match chars with
  | [] => Ok encodedString
  | ch :: rest =>
      bind (encodeChar ch) (fun two =>
      encodeMessage_loop rest (encodedString ++ two))
  end.

Definition encodeMessage (msg : jsstring) : result jsstring :=
  encodeMessage_loop (for_of msg) [].

(** [for (let b = 6; b >= 0; b--) bits.push((code >> b) & 1)]; a [NaN]
    code (index past the end) gives seven zero bits. *)
Definition bits_of (code : option Z) : list Z :=
  map (fun b => band (shr (of_NaN code) b) 1) [6; 5; 4; 3; 2; 1; 0].

(** The character code rebuilt from two decoded nibbles. *)
Definition nibble_value (decoded : list Z) : Z :=
  bor (bor (bor (shl (array_get decoded 0) 3) (shl (array_get decoded 1) 2))
           (shl (array_get decoded 2) 1))
      (array_get decoded 3).

(** One iteration of the loop of [decodeMessage] at index [i]. *)
Definition decodeAt (msg : jsstring) (i : nat) : result jsstring :=
  let highCode := charCodeAt msg i in
  let lowCode := charCodeAt msg (i + 1) in
  let highBits := bits_of highCode in
  let lowBits := bits_of lowCode in
  bind (decodeNibble highBits) (fun decodedHigh =>
  bind (decodeNibble lowBits) (fun decodedLow =>
  let charCodeHigh := nibble_value decodedHigh in
  let charCodeLow := nibble_value decodedLow in
  Ok (fromCharCode (bor (shl charCodeHigh 4) charCodeLow)))).

(** [for (let i = 0; i < msg.length; i += 2)] of [decodeMessage]. *)
#[local] Opaque decodeAt.

Equations decodeMessage_loop (msg : jsstring) (i : nat)
          (decodedString : jsstring) : result jsstring
  by wf (List.length msg - i)%nat lt :=
decodeMessage_loop msg i decodedString with inspect (i <? List.length msg)%nat := {
  | exist _ false _ => Ok decodedString
  | exist _ true Hlt with decodeAt msg i := {
      | Throw e => Throw e
      | Ok one => decodeMessage_loop msg (i + 2) (decodedString ++ one) } }.
Next Obligation.
apply Nat.ltb_lt in Hlt. lia.
Qed.

#[local] Transparent decodeAt.

Definition decodeMessage (msg : jsstring) : result jsstring :=
  decodeMessage_loop msg 0 [].

End HammingJs.

(* ================================================================= *)
(** * server.js *)

(** A JavaScript [Map] with string keys: the entries in insertion order,
    one per key.  [set] on a present key replaces the value in place,
    on an absent key appends; [delete] removes the entry. *)
Module JsMap.

Section WithValue.

Context {V : Type}.

Definition t : Type := list (string * V).

Fixpoint get (m : t) (k : string) : option V :=
  match m with
  | [] => None
  | (k', v) :: rest => if String.eqb k' k then Some v else get rest k
  end.

Definition has (m : t) (k : string) : bool :=
  match get m k with
  | Some _ => true
  | None => false
  end.

Fixpoint set (m : t) (k : string) (v : V) : t :=
  match m with
  | [] => [(k, v)]
  | (k', v') :: rest =>
      if String.eqb k' k then (k, v) :: rest else (k', v') :: set rest k v
  end.

Fixpoint delete (m : t) (k : string) : t :=
  match m with
  | [] => []
  | (k', v') :: rest =>
      if String.eqb k' k then rest else (k', v') :: delete rest k
  end.

Definition keys (m : t) : list string := map fst m.

End WithValue.

Arguments t V : clear implicits.

End JsMap.

Module ServerJs.
Import Js.

Local Open Scope string_scope.

(** The records of the protocol: the name, the target and the receiver
    of a record are strings, or missing.  Such a field is [None] when
    the record has no such property ([undefined]). *)
Definition field : Type := option string.

(** Truthiness of such a field: [undefined] and the empty string are
    falsy. *)
Definition truthy (f : field) : bool :=
  match f with
  | None => false
  | Some EmptyString => false
  | Some _ => true
  end.

(** [f || dflt]. *)
Definition or_else (f : field) (dflt : string) : string :=
  match f with
  | None => dflt
  | Some EmptyString => dflt
  | Some s => s
  end.

(** An encrypted payload is any value.  The broker passes it on as it
    is; besides, it builds the preview of its log line, with
    [encryptedMessage.slice(0, 3).join(', ')] for an array and
    [String(encryptedMessage)] otherwise, and this conversion to a
    string may throw. *)
Class Preview (Payload : Type) : Type :=
  preview_throws : Payload -> bool.

(** A payload as [JSON.parse] gives it: any value, or [undefined]. *)
#[export] Instance preview_json : Preview (option json) :=
  fun encryptedMessage =>
    match encryptedMessage with
    | Some (JArray items) => negb (forallb ToString_returns (firstn 3 items))
    | Some v => negb (ToString_returns v)
    | None => false
    end.

(** An array of strings, as [RSA.encrypt_message] returns. *)
#[export] Instance preview_strings : Preview (list string) :=
  fun _ => false.

Section Broker.

(** Public keys are opaque to the broker; of a payload it observes
    whether the preview can be built. *)
Context {PK Payload : Type} {preview : Preview Payload}.

(** Records received from a client, by their [type]. *)
Inductive message : Type :=
| REGISTER (name : field) (public_key : PK)
| LIST_REQUEST
| START_CHAT_REQUEST_PK (targetIdentifier : field)
| MESSAGE (receiver : field) (encryptedMessage : Payload)
| UNKNOWN (type : string).

(** Records sent to a client. *)
Inductive reply : Type :=
| REGISTER_ACK (identifier : string)
| CLIENT_LIST (list : list (string * string))
| START_CHAT_INFO (identifier : field) (name : string) (public_key : PK)
| TARGET_NOT_FOUND (identifier : field) (message : string)
| INCOMING_MESSAGE (sender : string) (senderName : string)
                   (encryptedMessage : Payload)
| DELIVERY_ERROR (recipient : field) (reason : string)
| ERROR (message : string).

(** A socket is named by its remote endpoint [address:port], the
    [clientIdentifier] of its connection handler. *)
Definition Socket : Type := string.

(** The value stored in [clients] for a registered connection. *)
Record ClientData : Type := mkClientData {
  socket : Socket;
  name : string;
  public_key : PK
}.

(** The mutable attributes of a socket: [socket.writable], the property
    [socket.identifier] set on registration, and the complete lines of
    the handler's [clientBuffer] still to be processed ([None] is a line
    on which the [try] block throws before its [switch]: [JSON.parse]
    rejects it, or returns [null]). *)
Record SocketState : Type := mkSocketState {
  writable : bool;
  identifier : field;
  clientBuffer : list (option message)
}.

Record State : Type := mkState {
  clients : JsMap.t ClientData;
  sockets : Socket -> SocketState
}.

Definition update_socket (st : State) (s : Socket)
           (f : SocketState -> SocketState) : State :=
  {| clients := clients st;
     sockets := fun s' => if String.eqb s' s then f (sockets st s')
                          else sockets st s' |}.

Definition with_clients (st : State) (m : JsMap.t ClientData) : State :=
  {| clients := m; sockets := sockets st |}.

(** A record written to a socket. *)
Definition write : Type := (Socket * reply)%type.

(** [sendJson(socket, data)]: writes only to a writable socket. *)
Definition sendJson (st : State) (s : Socket) (data : reply) : list write :=
  if writable (sockets st s) then [(s, data)] else [].

(** [clients.get(f)] for a field: no key is [undefined]. *)
Definition get_field (m : JsMap.t ClientData) (f : field)
  : option ClientData :=
  match f with
  | None => None
  | Some k => JsMap.get m k
  end.

(** The name scan of START_CHAT_REQUEST_PK:
    [for (const [id, clientEntry] of clients.entries())] with its
    [break] at the first match. *)
Fixpoint find_by_name (entries : JsMap.t ClientData)
         (targetIdentifier clientIdentifier : string)
  : option (string * ClientData) :=
  match entries with
  | [] => None
  | (id, clientEntry) :: rest =>
      if String.eqb (name clientEntry) targetIdentifier
         && negb (String.eqb id clientIdentifier)
      then Some (id, clientEntry)
      else find_by_name rest targetIdentifier clientIdentifier
  end.

(** The [switch (message.type)] of the data handler for one parsed
    record, with the [catch] block for the one conversion that can throw
    on these records, the preview of the payload.  The boolean is
    [false] when the case leaves the handler with [return]; after a
    [break] or the [catch] block the loop goes on. *)
Definition handle_message (st : State) (clientIdentifier : string)
           (msg : message) : State * list write * bool :=
  let socket_ := clientIdentifier in
  match msg with
  | REGISTER name_ public_key_ =>
      let st1 := with_clients st
                   (JsMap.set (clients st) clientIdentifier
                      {| socket := socket_;
                         name := or_else name_ EmptyString;
                         public_key := public_key_ |}) in
      let st2 := update_socket st1 socket_
                   (fun ss => {| writable := writable ss;
                                 identifier := Some clientIdentifier;
                                 clientBuffer := clientBuffer ss |}) in
      (st2, sendJson st2 socket_ (REGISTER_ACK clientIdentifier), true)
  | LIST_REQUEST =>
      let clientList :=
        map (fun '(id, clientData) => (id, name clientData)) (clients st) in
      (st, sendJson st socket_ (CLIENT_LIST clientList), true)
  | START_CHAT_REQUEST_PK targetIdentifier =>
      let resolved :=
        match get_field (clients st) targetIdentifier with
        | Some targetClientData => Some (targetIdentifier, targetClientData)
        | None =>
            match targetIdentifier with
            | Some target =>
                if truthy targetIdentifier then
                  match find_by_name (clients st) target clientIdentifier with
                  | Some (id, clientEntry) => Some (Some id, clientEntry)
                  | None => None
                  end
                else None
            | None => None
            end
        end in
      match resolved with
      | Some (id, targetClientData) =>
          (st,
           sendJson st socket_
             (START_CHAT_INFO id (name targetClientData)
                              (public_key targetClientData)),
           true)
      | None =>
          (st,
           sendJson st socket_
             (TARGET_NOT_FOUND targetIdentifier
                               "Receiver not found or offline."),
           true)
      end
  | MESSAGE receiver encryptedMessage =>
      let senderIdentifier := clientIdentifier in
      match JsMap.get (clients st) senderIdentifier with
      | None => (st, [], false)
      | Some senderClient =>
          if preview_throws encryptedMessage then
            (st,
             sendJson st socket_
                      (ERROR "Invalid message format from client."),
             true)
          else
            let deliverable :=
              match get_field (clients st) receiver with
              | Some receiverClient =>
                  if writable (sockets st (socket receiverClient))
                  then Some receiverClient else None
              | None => None
              end in
            match deliverable with
            | Some receiverClient =>
                (st,
                 sendJson st (socket receiverClient)
                   (INCOMING_MESSAGE senderIdentifier (name senderClient)
                                     encryptedMessage),
                 true)
            | None =>
                (st,
                 if writable (sockets st (socket senderClient))
                 then sendJson st (socket senderClient)
                        (DELIVERY_ERROR receiver
                           "User is offline or does not exist.")
                 else [],
                 true)
            end
      end
  | UNKNOWN type =>
      (st,
       sendJson st socket_ (ERROR ("Unknown command type: " ++ type)),
       true)
  end.

(** One iteration of [while (boundary !== -1)]: a line on which the
    [try] block throws before its [switch] is answered by the [catch]
    block with an [ERROR] record. *)
Definition handle_line (st : State) (clientIdentifier : string)
           (line : option message) : State * list write * bool :=
  match line with
  | Some msg => handle_message st clientIdentifier msg
  | None =>
      (st,
       sendJson st clientIdentifier
                (ERROR "Invalid message format from client."),
       true)
  end.

(** The loop over the complete lines of the buffer.  Each line leaves
    the buffer before it is handled; a [return] leaves the rest
    buffered. *)
Fixpoint process_lines (st : State) (clientIdentifier : string)
         (lines : list (option message))
  : State * list write * list (option message) :=
  match lines with
  | [] => (st, [], [])
  | line :: rest =>
      let '(st1, out1, continue) := handle_line st clientIdentifier line in
      if continue then
        let '(st2, out2, pending) :=
          process_lines st1 clientIdentifier rest in
        (st2, (out1 ++ out2)%list, pending)
      else (st1, out1, rest)
  end.

Definition set_buffer (st : State) (s : Socket)
           (buf : list (option message)) : State :=
  update_socket st s
    (fun ss => {| writable := writable ss;
                  identifier := identifier ss;
                  clientBuffer := buf |}).

(** [socket.on("data", ...)] for a chunk completing the lines [lines]. *)
Definition on_data (st : State) (clientIdentifier : string)
           (lines : list (option message)) : State * list write :=
  let buffered := (clientBuffer (sockets st clientIdentifier) ++ lines)%list in
  let '(st1, out, pending) := process_lines st clientIdentifier buffered in
  (set_buffer st1 clientIdentifier pending, out).

(** [socket.identifier || clientIdentifier]. *)
Definition registry_key (st : State) (clientIdentifier : string) : string :=
  or_else (identifier (sockets st clientIdentifier)) clientIdentifier.

(** [socket.on('end', ...)]. *)
Definition on_end (st : State) (clientIdentifier : string) : State :=
  match JsMap.get (clients st) (registry_key st clientIdentifier) with
  | Some clientData =>
      with_clients st
        (JsMap.delete (clients st) (registry_key st clientIdentifier))
  | None => st
  end.

(** [socket.on('error', ...)]. *)
Definition on_error (st : State) (clientIdentifier : string) : State :=
  if JsMap.has (clients st) (registry_key st clientIdentifier) then
    with_clients st
      (JsMap.delete (clients st) (registry_key st clientIdentifier))
  else st.

(** What happens to the broker: the events of its sockets, and changes
    of a socket's writability by the transport. *)
Inductive event : Type :=
| Data (clientIdentifier : string) (lines : list (option message))
| End (clientIdentifier : string)
| SocketError (clientIdentifier : string)
| SetWritable (s : Socket) (w : bool).

Definition step (st : State) (ev : event) : State * list write :=
  match ev with
  | Data clientIdentifier lines => on_data st clientIdentifier lines
  | End clientIdentifier => (on_end st clientIdentifier, [])
  | SocketError clientIdentifier => (on_error st clientIdentifier, [])
  | SetWritable s w =>
      (update_socket st s
         (fun ss => {| writable := w;
                       identifier := identifier ss;
                       clientBuffer := clientBuffer ss |}),
       [])
  end.

(** [const clients = new Map()], and sockets as [net] creates them. *)
Definition initial_state : State :=
  {| clients := [];
     sockets := fun _ => {| writable := true;
                            identifier := None;
                            clientBuffer := [] |} |}.

(** The states the broker can be in. *)
Inductive reachable : State -> Prop :=
| reachable_initial : reachable initial_state
| reachable_step (st : State) (ev : event) :
    reachable st -> reachable (fst (step st ev)).

End Broker.

Arguments message : clear implicits.
Arguments reply : clear implicits.
Arguments ClientData : clear implicits.
Arguments SocketState : clear implicits.
Arguments State : clear implicits.
Arguments event : clear implicits.
Arguments write : clear implicits.

End ServerJs.

(* ================================================================= *)
(** * client.js: the message pipeline *)

Module ClientJs.
Import Js.

(** The [try] block of [sendChatMessage]: the record written to the
    server for the text [text] and the chat partner [receiver]
    (identifier and public key). *)
Definition sendChatMessage (text : jsstring) (receiver_identifier : string)
           (receiver_public_key : RsaJs.PublicKey)
  : result (ServerJs.message RsaJs.PublicKey (list string)) :=
  bind (HammingJs.encodeMessage text) (fun hammingEncoded =>
  bind (RsaJs.encrypt_message hammingEncoded receiver_public_key)
       (fun encryptedMessage =>
  Ok (ServerJs.MESSAGE (Some receiver_identifier) encryptedMessage))).

(** The [INCOMING_MESSAGE] case of [processServerData]: the text
    displayed for the payload, or the error reported. *)
Definition incoming_message_text (encryptedMessage : list string)
           (private_key : RsaJs.PrivateKey) : result jsstring :=
  bind (RsaJs.decrypt_message encryptedMessage private_key)
       (fun decryptedHamming =>
  HammingJs.decodeMessage decryptedHamming).

End ClientJs.

(* ================================================================= *)
(** * Facts about utils/math.js *)

Module MathFacts.
Import MathJs.

(** The loop has found no divisor among the wheel candidates below [i]. *)
Definition wheel_clear (i num : Z) : Prop :=
  forall d, 5 <= d < i -> (d mod 6 = 5 \/ d mod 6 = 1) -> ~ (d | num).

Lemma rem_eq0_divide (a d : Z) :
  0 <= a -> 0 < d -> (Z.rem a d =? 0) = true <-> (d | a).
Proof.
intros Ha Hd. rewrite Z.eqb_eq, Z.rem_mod_nonneg by lia.
split; intro H.
- apply Z.mod_divide; [lia | exact H].
- apply Z.mod_divide in H; [exact H | lia].
Qed.

Lemma rem_eq0_divide_false (a d : Z) :
  0 <= a -> 0 < d -> (Z.rem a d =? 0) = false <-> ~ (d | a).
Proof.
intros Ha Hd. rewrite <- (rem_eq0_divide a d Ha Hd).
destruct (Z.rem a d =? 0); split; congruence.
Qed.

(** The source's loop and recursion equations hold for the embedding. *)
Lemma isPrime_loop_eq (i num : Z) :
  isPrime_loop i num =
  if i * i <=? num then
    if (Z.rem num i =? 0) || (Z.rem num (i + 2) =? 0) then false
    else isPrime_loop (i + 6) num
  else true.
Proof.
rewrite isPrime_loop_equation_1.
destruct (inspect (i * i <=? num)) as [[] H];
  unfold isPrime_loop_unfold_clause_1; rewrite H; reflexivity.
Qed.

Lemma gcd_eq (a b : Z) :
  gcd a b = if b =? 0 then a else gcd b (Z.rem a b).
Proof.
rewrite gcd_equation_1.
destruct (inspect (b =? 0)) as [[] H];
  unfold gcd_unfold_clause_1; rewrite H; reflexivity.
Qed.

(** Induction along the iterations of the loop of [isPrime]. *)
Lemma isPrime_loop_induction (num : Z) (P : Z -> Prop) :
  (forall i, (i * i <= num -> P (i + 6)) -> P i) ->
  forall i, P i.
Proof.
intros Hstep i.
remember (Z.to_nat (num + 1 - i)) as n eqn:Hn.
revert i Hn. induction n as [n IH] using lt_wf_ind. intros i ->.
apply Hstep. intros Hle.
apply (IH (Z.to_nat (num + 1 - (i + 6)))); [nia | reflexivity].
Qed.

(** Induction along the recursive calls of [gcd]. *)
Lemma gcd_induction (P : Z -> Z -> Prop) :
  (forall a b, (b <> 0 -> P b (Z.rem a b)) -> P a b) ->
  forall a b, P a b.
Proof.
intros Hstep a b.
remember (Z.abs_nat b) as n eqn:Hn.
revert a b Hn. induction n as [n IH] using lt_wf_ind. intros a b ->.
apply Hstep. intros Hb.
apply (IH (Z.abs_nat (Z.rem a b))); [| reflexivity].
pose proof (Z.rem_bound_abs a b Hb). lia.
Qed.

Lemma isPrime_loop_false (num i : Z) :
  5 <= i -> isPrime_loop i num = false ->
  exists d, 1 < d < num /\ (d | num).
Proof.
pattern i. apply (isPrime_loop_induction num). clear i.
intros i IH Hi Hres.
rewrite isPrime_loop_eq in Hres.
destruct (Z.leb_spec (i * i) num) as [Hle | Hgt]; [| discriminate].
destruct (Z.rem num i =? 0) eqn:E1.
- exists i. split; [nia |].
  apply (rem_eq0_divide num i); [nia | lia | exact E1].
- destruct (Z.rem num (i + 2) =? 0) eqn:E2; simpl in Hres.
  + exists (i + 2). split; [nia |].
    apply (rem_eq0_divide num (i + 2)); [nia | lia | exact E2].
  + apply IH; [exact Hle | lia | exact Hres].
Qed.

Lemma isPrime_loop_true (num i : Z) :
  5 <= i -> i mod 6 = 5 -> wheel_clear i num ->
  isPrime_loop i num = true ->
  forall d, 5 <= d -> d * d <= num ->
            (d mod 6 = 5 \/ d mod 6 = 1) -> ~ (d | num).
Proof.
pattern i. apply (isPrime_loop_induction num). clear i.
intros i IH Hi Hmod Hclear Hres d Hd Hdd Hd6.
rewrite isPrime_loop_eq in Hres.
destruct (Z.leb_spec (i * i) num) as [Hle | Hgt].
- destruct (Z.rem num i =? 0) eqn:E1; [discriminate |].
  destruct (Z.rem num (i + 2) =? 0) eqn:E2; [discriminate |].
  simpl in Hres.
  apply rem_eq0_divide_false in E1; [| nia | lia].
  apply rem_eq0_divide_false in E2; [| nia | lia].
  apply (IH Hle); try assumption.
  + lia.
  + rewrite <- Hmod. replace (i + 6) with (i + 1 * 6) by lia.
    apply Z.mod_add. lia.
  + intros d' Hd' Hd6'.
    destruct (Z_lt_le_dec d' i) as [Hlt | Hge]; [apply Hclear; lia |].
    assert (Hcases : d' = i \/ d' = i + 2 \/ d' = i + 1 \/ d' = i + 3 \/
                     d' = i + 4 \/ d' = i + 5) by lia.
    pose proof (Z.div_mod i 6 ltac:(lia)) as Ei.
    pose proof (Z.div_mod d' 6 ltac:(lia)) as Ed.
    destruct Hcases as [-> | [-> | Hrest]]; [exact E1 | exact E2 |].
    exfalso. lia.
- apply Hclear; [nia | exact Hd6].
Qed.

(** A number above 1 with no divisor [d], [2 <= d], [d * d <= num], is
    prime. *)
Lemma prime_of_no_small_divisor (num : Z) :
  1 < num ->
  (forall d, 2 <= d -> d * d <= num -> ~ (d | num)) ->
  Z.prime num.
Proof.
intros Hnum Hno. split; [exact Hnum |].
intros a Ha [b Hb].
assert (Hbpos : 1 < b < num) by nia.
destruct (Z_le_gt_dec a b) as [Hab | Hab].
- apply (Hno a); [lia | nia | exists b; lia].
- apply (Hno b); [lia | nia | exists a; lia].
Qed.

Lemma prime_no_proper_divisor (num d : Z) :
  Z.prime num -> 1 < d < num -> ~ (d | num).
Proof.
intros [_ Hp] Hd. apply Hp. exact Hd.
Qed.

Lemma isPrime_small (num : Z) : num <= 1 -> isPrime num = false.
Proof.
intros Hle. unfold isPrime.
destruct (Z.leb_spec num 1); [reflexivity | lia].
Qed.

Lemma isPrime_iff_prime (num : Z) : isPrime num = true <-> Z.prime num.
Proof.
unfold isPrime.
destruct (Z.leb_spec num 1) as [H1 | H1].
{ split; [discriminate |]. intros [Hgt _]. lia. }
destruct (Z.leb_spec num 3) as [H3 | H3].
{ split; [intros _ | reflexivity].
  assert (Hc : num = 2 \/ num = 3) by lia.
  destruct Hc as [-> | ->]; [exact Z.prime_2 | exact Z.prime_3]. }
destruct (Z.rem num 2 =? 0) eqn:E2.
{ simpl. split; [discriminate |]. intros Hp.
  apply rem_eq0_divide in E2; [| lia | lia].
  exfalso. apply (prime_no_proper_divisor num 2 Hp); [lia | exact E2]. }
destruct (Z.rem num 3 =? 0) eqn:E3.
{ simpl. split; [discriminate |]. intros Hp.
  apply rem_eq0_divide in E3; [| lia | lia].
  exfalso. apply (prime_no_proper_divisor num 3 Hp); [lia | exact E3]. }
simpl.
apply rem_eq0_divide_false in E2; [| lia | lia].
apply rem_eq0_divide_false in E3; [| lia | lia].
split.
- intros Hloop. apply prime_of_no_small_divisor; [lia |].
  intros d Hd Hdd Hdiv.
  pose proof (Z.div_mod d 6 ltac:(lia)) as Ed.
  pose proof (Z.mod_pos_bound d 6 ltac:(lia)) as Hr.
  assert (Hc : d mod 6 = 0 \/ d mod 6 = 2 \/ d mod 6 = 4 \/
               d mod 6 = 3 \/ d mod 6 = 5 \/ d mod 6 = 1) by lia.
  destruct Hc as [Hc | [Hc | [Hc | [Hc | Hc]]]].
  + apply E2. apply Z.divide_trans with d; [| exact Hdiv].
    exists (3 * (d / 6)). lia.
  + apply E2. apply Z.divide_trans with d; [| exact Hdiv].
    exists (3 * (d / 6) + 1). lia.
  + apply E2. apply Z.divide_trans with d; [| exact Hdiv].
    exists (3 * (d / 6) + 2). lia.
  + apply E3. apply Z.divide_trans with d; [| exact Hdiv].
    exists (2 * (d / 6) + 1). lia.
  + revert Hdiv.
    apply (isPrime_loop_true num 5); try assumption; try lia.
    * reflexivity.
    * intros d' Hd' _. lia.
- intros Hp.
  destruct (isPrime_loop 5 num) eqn:Hloop; [reflexivity | exfalso].
  destruct (isPrime_loop_false num 5 ltac:(lia) Hloop) as [d [Hd Hdiv]].
  apply (prime_no_proper_divisor num d Hp); [lia | exact Hdiv].
Qed.

(** ** C7 *)

(** C7: for every non-negative integer [num], [isPrime num] returns
    [true] if and only if [num] is prime; in particular it returns
    [false] for every [num <= 1]. *)
Theorem isPrime_correct (num : Z) :
  0 <= num ->
  (isPrime num = true <-> Z.prime num) /\
  (num <= 1 -> isPrime num = false).
Proof.
intros _. split; [apply isPrime_iff_prime | apply isPrime_small].
Qed.

Lemma isPrime_correct_witness :
  0 <= 97 /\
  (isPrime 97 = true <-> Z.prime 97) /\ (97 <= 1 -> isPrime 97 = false).
Proof.
split; [lia | apply (isPrime_correct 97); lia].
Defined.

End MathFacts.

(* ================================================================= *)
(** * Facts about utils/rsa.js *)

Module RsaFacts.
Import Js MathJs MathFacts RsaJs.

(** ** Decimal key material *)

(** ** Decimal numerals *)

Definition is_digit (c : ascii) : bool :=
  (48 <=? code_unit c) && (code_unit c <=? 57).

Fixpoint all_digits (s : string) : bool :=
  match s with
  | EmptyString => true
  | String c rest => is_digit c && all_digits rest
  end.

Lemma string_of_uint_digits (d : Decimal.uint) :
  all_digits (NilEmpty.string_of_uint d) = true.
Proof.
induction d; simpl; try exact IHd; reflexivity.
Qed.

Lemma digit_not_white (c : ascii) :
  is_digit c = true -> is_white_space c = false.
Proof.
destruct c as [[] [] [] [] [] [] [] []]; vm_compute; congruence.
Qed.

(** A digit is no sign and no radix letter. *)
Lemma digit_plain (c : ascii) :
  is_digit c = true ->
  (c =? "+")%char = false /\ (c =? "-")%char = false /\ radix_of c = None.
Proof.
destruct c as [[] [] [] [] [] [] [] []]; vm_compute;
  try congruence; intros _; repeat split.
Qed.

Lemma trim_end_digits (s : string) : all_digits s = true -> trim_end s = s.
Proof.
induction s as [| c rest IH]; simpl; [reflexivity |].
intros H. apply andb_true_iff in H. destruct H as [Hc Hrest].
rewrite (IH Hrest). destruct rest; [| reflexivity].
rewrite (digit_not_white c Hc). reflexivity.
Qed.

Lemma trim_digits (s : string) :
  all_digits s = true -> trim_end (trim_start s) = s.
Proof.
intros H. destruct s as [| c rest]; [reflexivity |].
cbn [trim_start]. pose proof H as H'. simpl in H'.
apply andb_true_iff in H'. destruct H' as [Hc _].
rewrite (digit_not_white c Hc). apply trim_end_digits. exact H.
Qed.

Lemma StringToBigInt_digits (s : string) (d : Decimal.uint) :
  all_digits s = true ->
  NilZero.uint_of_string s = Some d ->
  StringToBigInt s = Some (Z.of_uint d).
Proof.
intros Hall Hd. unfold StringToBigInt. rewrite (trim_digits _ Hall).
destruct s as [| c rest]; [discriminate |].
simpl in Hall. apply andb_true_iff in Hall. destruct Hall as [Hc Hrest].
destruct (digit_plain c Hc) as (Hplus & Hminus & _).
assert (Hprefix :
  (if (c =? "0")%char then
     match rest with
     | String p digits =>
         match radix_of p with
         | Some radix => Some (radix, digits)
         | None => None
         end
     | EmptyString => None
     end
   else None) = None).
{ destruct (c =? "0")%char; [| reflexivity].
  destruct rest as [| p digits]; [reflexivity |].
  simpl in Hrest. apply andb_true_iff in Hrest. destruct Hrest as [Hp _].
  destruct (digit_plain p Hp) as (_ & _ & ->). reflexivity. }
cbn zeta. rewrite Hprefix, Hplus, Hminus.
unfold decimal_digits. rewrite Hd. reflexivity.
Qed.

Lemma string_of_uint_nonnil (d : Decimal.uint) :
  d <> Decimal.Nil ->
  NilZero.string_of_uint d = NilEmpty.string_of_uint d.
Proof.
destruct d; [contradiction | reflexivity ..].
Qed.

Lemma BigInt_toString_roundtrip (z : Z) : BigInt (BigInt_toString z) = Ok z.
Proof.
unfold BigInt, BigInt_toString.
destruct z as [| p | p]; [reflexivity | |];
  cbn [Z.to_int NilZero.string_of_int];
  pose proof (Unsigned.to_uint_nonnil p) as Hnil;
  pose proof (NilZero.usu _ Hnil) as Husu;
  rewrite (string_of_uint_nonnil _ Hnil) in *;
  pose proof (string_of_uint_digits (Pos.to_uint p)) as Hall.
- rewrite (StringToBigInt_digits _ _ Hall Husu).
  unfold Z.of_uint. rewrite DecimalPos.Unsigned.of_to. reflexivity.
- assert (Htrim : trim_end (trim_start
                   (String "-" (NilEmpty.string_of_uint (Pos.to_uint p))))
                 = String "-" (NilEmpty.string_of_uint (Pos.to_uint p))).
  { cbn [trim_start]. change (is_white_space "-") with false. cbv iota.
    cbn [trim_end]. rewrite (trim_end_digits _ Hall).
    destruct (NilEmpty.string_of_uint (Pos.to_uint p)); [discriminate |].
    reflexivity. }
  unfold StringToBigInt. rewrite Htrim.
  change ("-" =? "0")%char with false. change ("-" =? "+")%char with false.
  change ("-" =? "-")%char with true. cbv iota zeta.
  unfold decimal_digits. rewrite Husu. cbn [option_map].
  unfold Z.of_uint. rewrite DecimalPos.Unsigned.of_to. reflexivity.
Qed.

(** ** The textbook identity *)

Lemma pow_cong_prime (p v k : Z) :
  Z.prime p -> 0 <= k -> v ^ (1 + k * (p - 1)) mod p = v mod p.
Proof.
intros Hp Hk.
pose proof (Z.prime_ge_2 p Hp) as Hp2.
rewrite Z.pow_add_r by nia.
rewrite Z.pow_1_r.
rewrite Z.mul_comm with (n := k).
rewrite Z.pow_mul_r by lia.
destruct (Z.eq_dec (v mod p) 0) as [Hz | Hnz].
- rewrite Zmult_mod, Hz. simpl. apply Z.mod_0_l. lia.
- rewrite Zmult_mod.
  rewrite <- Z.mod_pow_l with (a := v ^ (p - 1)).
  rewrite (Z.fermat_nz p v Hp Hnz).
  rewrite Z.pow_1_l by lia.
  rewrite Z.mod_1_l by lia.
  rewrite Z.mul_1_r. apply Z.mod_mod. lia.
Qed.

Lemma distinct_primes_coprime (p q : Z) :
  Z.prime p -> Z.prime q -> p <> q -> Z.gcd p q = 1.
Proof.
intros Hp Hq Hne.
apply (Z.coprime_prime_l p q Hp).
intros Hdiv. apply Hne. exact (Z.divide_prime_prime p q Hp Hq Hdiv).
Qed.

Lemma divide_product_coprime (p q c : Z) :
  Z.gcd p q = 1 -> (p | c) -> (q | c) -> (p * q | c).
Proof.
intros Hg [a Ha] Hq. subst c.
assert (Hqa : (q | a)).
{ apply Z.gauss with (m := p).
  - rewrite Z.mul_comm. exact Hq.
  - rewrite Z.gcd_comm. exact Hg. }
destruct Hqa as [b Hb]. exists b. subst a. ring.
Qed.

(** [(v^e)^d = v (mod p*q)] for distinct primes and [e*d = 1] modulo
    [(p-1)*(q-1)]. *)
Lemma rsa_identity (p q e d v : Z) :
  Z.prime p -> Z.prime q -> p <> q ->
  0 <= e -> 0 <= d -> (e * d) mod ((p - 1) * (q - 1)) = 1 ->
  0 <= v < p * q ->
  ((v ^ e mod (p * q)) ^ d) mod (p * q) = v.
Proof.
intros Hp Hq Hne He Hd Hed Hv.
pose proof (Z.prime_ge_2 p Hp) as Hp2.
pose proof (Z.prime_ge_2 q Hq) as Hq2.
rewrite Z.mod_pow_l.
rewrite <- Z.pow_mul_r by lia.
set (phi := (p - 1) * (q - 1)) in *.
assert (Hphi : 0 < phi) by (unfold phi; nia).
pose proof (Z.div_mod (e * d) phi ltac:(lia)) as Hdm.
rewrite Hed in Hdm.
set (k := e * d / phi) in *.
assert (Hk : 0 <= k) by (apply Z.div_pos; nia).
assert (Hmodp : v ^ (e * d) mod p = v mod p).
{ replace (e * d) with (1 + (k * (q - 1)) * (p - 1)) by (unfold phi in Hdm; lia).
  apply pow_cong_prime; [exact Hp | nia]. }
assert (Hmodq : v ^ (e * d) mod q = v mod q).
{ replace (e * d) with (1 + (k * (p - 1)) * (q - 1)) by (unfold phi in Hdm; lia).
  apply pow_cong_prime; [exact Hq | nia]. }
assert (Hdiv : (p * q | v ^ (e * d) - v)).
{ apply divide_product_coprime.
  - apply distinct_primes_coprime; assumption.
  - apply Z.mod_divide; [lia |]. apply Z.cong_iff_0. exact Hmodp.
  - apply Z.mod_divide; [lia |]. apply Z.cong_iff_0. exact Hmodq. }
apply Z.mod_divide in Hdiv; [| nia].
apply Z.cong_iff_0 in Hdiv. rewrite Hdiv.
apply Z.mod_small. exact Hv.
Qed.

(** ** The loops of [select_e] and [mod_inverse] *)

Lemma gcd_Zgcd (a b : Z) : 0 <= a -> 0 <= b -> gcd a b = Z.gcd a b.
Proof.
pattern a, b. apply gcd_induction. clear a b.
intros a b IH Ha Hb. rewrite gcd_eq.
destruct (Z.eqb_spec b 0) as [-> | Hnz].
- rewrite Z.gcd_0_r, Z.abs_eq; [reflexivity | exact Ha].
- rewrite Z.rem_mod_nonneg by lia.
  pose proof (Z.mod_pos_bound a b ltac:(lia)) as Hm.
  rewrite Z.rem_mod_nonneg in IH by lia.
  rewrite IH by lia.
  rewrite (Z.gcd_comm b (a mod b)), Z.gcd_mod by exact Hnz.
  apply Z.gcd_comm.
Qed.

Lemma select_e_loop_eq (e phi_n : Z) :
  select_e_loop e phi_n =
  if e <? phi_n then
    if gcd e phi_n =? 1 then Some e else select_e_loop (e + 1) phi_n
  else None.
Proof.
rewrite select_e_loop_equation_1.
destruct (inspect (e <? phi_n)) as [[] H];
  unfold select_e_loop_unfold_clause_1; rewrite H; reflexivity.
Qed.

Lemma select_e_loop_induction (phi_n : Z) (P : Z -> Prop) :
  (forall e, (e < phi_n -> P (e + 1)) -> P e) ->
  forall e, P e.
Proof.
intros Hstep e.
remember (Z.to_nat (phi_n - e)) as n eqn:Hn.
revert e Hn. induction n as [n IH] using lt_wf_ind. intros e ->.
apply Hstep. intros Hlt.
apply (IH (Z.to_nat (phi_n - (e + 1)))); [lia | reflexivity].
Qed.

(** [select_e] returns the least [e] in [[2, phi_n)] coprime with
    [phi_n]. *)
Lemma select_e_loop_some (phi_n e0 e : Z) :
  select_e_loop e0 phi_n = Some e ->
  e0 <= e < phi_n /\ gcd e phi_n = 1 /\
  forall e', e0 <= e' < e -> gcd e' phi_n <> 1.
Proof.
pattern e0. apply (select_e_loop_induction phi_n). clear e0.
intros e0 IH Hres. rewrite select_e_loop_eq in Hres.
destruct (Z.ltb_spec e0 phi_n) as [Hlt | Hge]; [| discriminate].
destruct (Z.eqb_spec (gcd e0 phi_n) 1) as [Hg | Hg].
- injection Hres as <-.
  split; [lia | split; [exact Hg | intros e' He'; lia]].
- destruct (IH Hlt Hres) as [Hr [Hc Hmin]].
  split; [lia | split; [exact Hc |]].
  intros e' He'. destruct (Z.eq_dec e' e0) as [-> | Hne]; [exact Hg |].
  apply Hmin. lia.
Qed.

Lemma select_e_loop_none (phi_n e0 : Z) :
  select_e_loop e0 phi_n = None ->
  forall e', e0 <= e' < phi_n -> gcd e' phi_n <> 1.
Proof.
pattern e0. apply (select_e_loop_induction phi_n). clear e0.
intros e0 IH Hres e' He'. rewrite select_e_loop_eq in Hres.
destruct (Z.ltb_spec e0 phi_n) as [Hlt | Hge]; [| lia].
destruct (Z.eqb_spec (gcd e0 phi_n) 1) as [Hg | Hg]; [discriminate |].
destruct (Z.eq_dec e' e0) as [-> | Hne]; [exact Hg |].
apply (IH Hlt Hres). lia.
Qed.

Lemma mod_inverse_loop_eq (a m x0 x1 : Z) :
  mod_inverse_loop a m x0 x1 =
  if 1 <? a then
    if m =? 0 then None
    else mod_inverse_loop m (Z.rem a m) (x1 - Z.quot a m * x0) x0
  else Some x1.
Proof.
rewrite mod_inverse_loop_equation_1.
destruct (inspect (1 <? a)) as [[] H];
  unfold mod_inverse_loop_unfold_clause_1; [| rewrite H; reflexivity].
destruct (inspect (m =? 0)) as [[] H'];
  unfold mod_inverse_loop_unfold_clause_1_clause_2;
  rewrite H, H'; reflexivity.
Qed.

Lemma mod_inverse_loop_induction (P : Z -> Z -> Z -> Z -> Prop) :
  (forall a m x0 x1,
      (1 < a -> m <> 0 ->
       P m (Z.rem a m) (x1 - Z.quot a m * x0) x0) ->
      P a m x0 x1) ->
  forall a m x0 x1, P a m x0 x1.
Proof.
intros Hstep a m.
remember (Z.abs_nat m) as n eqn:Hn.
revert a m Hn. induction n as [n IH] using lt_wf_ind. intros a m -> x0 x1.
apply Hstep. intros Ha Hm.
apply (IH (Z.abs_nat (Z.rem a m))); [| reflexivity].
pose proof (Z.rem_bound_abs a m Hm). lia.
Qed.

Section ModInverse.

Variables e phi_n : Z.

(** Invariant of the loop of [mod_inverse e phi_n]: [x1 * e = a] and
    [x0 * e = m] modulo [phi_n], and the coefficients stay within
    [phi_n]. *)
Definition mod_inverse_inv (a m x0 x1 : Z) : Prop :=
  1 <= a /\ 0 <= m /\
  (phi_n | x1 * e - a) /\ (phi_n | x0 * e - m) /\
  Z.abs x0 * a + Z.abs x1 * m <= phi_n /\
  Z.abs x1 <= phi_n.

Lemma mod_inverse_inv_step (a m x0 x1 : Z) :
  mod_inverse_inv a m x0 x1 -> 1 < a -> m <> 0 ->
  mod_inverse_inv m (Z.rem a m) (x1 - Z.quot a m * x0) x0.
Proof.
intros (Ha & Hm & H1 & H0 & Hb & Hx1) Ha1 Hm0.
rewrite Z.rem_mod_nonneg, Z.quot_div_nonneg by lia.
pose proof (Z.mod_pos_bound a m ltac:(lia)) as Hmod.
pose proof (Z.div_mod a m Hm0) as Hdm.
assert (Hq : 0 <= a / m) by (apply Z.div_pos; lia).
set (q := a / m) in *. set (r := a mod m) in *.
pose proof (Z.abs_nonneg x0) as Hx0nn. pose proof (Z.abs_nonneg x1) as Hx1nn.
unfold mod_inverse_inv.
split; [lia | split; [lia | split; [exact H0 | split; [| split; [| nia]]]]].
- replace ((x1 - q * x0) * e - r)
    with ((x1 * e - a) - q * (x0 * e - m)) by (rewrite Hdm; ring).
  apply Z.divide_sub_r; [exact H1 |].
  apply Z.divide_mul_r. exact H0.
- pose proof (Z.abs_triangle x1 (- (q * x0))) as Ht.
  rewrite Z.abs_opp, Z.abs_mul, (Z.abs_eq q Hq) in Ht.
  replace (x1 + - (q * x0)) with (x1 - q * x0) in Ht by ring.
  nia.
Qed.

Lemma mod_inverse_loop_spec (a m x0 x1 r : Z) :
  mod_inverse_inv a m x0 x1 ->
  mod_inverse_loop a m x0 x1 = Some r ->
  (phi_n | r * e - 1) /\ Z.abs r <= phi_n.
Proof.
revert r. pattern a, m, x0, x1. apply mod_inverse_loop_induction.
clear a m x0 x1. intros a m x0 x1 IH r Hinv Hres.
rewrite mod_inverse_loop_eq in Hres.
destruct (Z.ltb_spec 1 a) as [Ha | Ha].
- destruct (Z.eqb_spec m 0) as [Hm | Hm]; [discriminate |].
  apply (IH Ha Hm r); [| exact Hres].
  apply mod_inverse_inv_step; assumption.
- injection Hres as <-.
  destruct Hinv as (Ha1 & _ & H1 & _ & _ & Hx1).
  assert (a = 1) by lia. subst a. split; assumption.
Qed.

(** For [2 <= e < phi_n] a result of [mod_inverse] is non-negative and
    inverts [e] modulo [phi_n]. *)
Lemma mod_inverse_spec (d : Z) :
  2 <= e < phi_n ->
  mod_inverse e phi_n = Some d ->
  0 <= d /\ (e * d) mod phi_n = 1.
Proof.
intros He Hres. unfold mod_inverse in Hres.
destruct (Z.eqb_spec phi_n 1) as [H1 | _]; [lia |].
destruct (mod_inverse_loop e phi_n 0 1) as [x1 |] eqn:Hloop; [| discriminate].
injection Hres as <-.
destruct (mod_inverse_loop_spec e phi_n 0 1 x1) as [Hdiv Habs].
- unfold mod_inverse_inv.
  split; [lia | split; [lia | split; [| split; [| split; [| lia]]]]].
  + exists 0. ring.
  + exists (-1). ring.
  + rewrite Z.abs_0. lia.
- exact Hloop.
- assert (Hcong : forall d', (phi_n | d' * e - 1) -> (e * d') mod phi_n = 1).
  { intros d' Hd'. apply Z.mod_divide in Hd'; [| lia].
    apply Z.cong_iff_0 in Hd'. rewrite Z.mul_comm, Hd'.
    apply Z.mod_1_l. lia. }
  destruct (Z.ltb_spec x1 0) as [Hneg | Hpos].
  + split; [lia |]. apply Hcong.
    replace ((x1 + phi_n) * e - 1) with ((x1 * e - 1) + e * phi_n) by ring.
    apply Z.divide_add_r; [exact Hdiv |]. apply Z.divide_factor_r.
  + split; [lia |]. apply Hcong. exact Hdiv.
Qed.

End ModInverse.

(** ** Key generation *)

Section KeyGenerationFacts.

Variable entropy : nat -> Z.

Lemma generatePrime_loop_prime (tries : nat) (range p : Z)
      (maxTries pos pos' : nat) :
  generatePrime_loop entropy tries range maxTries pos = Ret p pos' ->
  Z.prime p.
Proof.
revert pos. induction tries as [| tries IH]; intros pos Hres; simpl in Hres.
- discriminate.
- unfold gbind in Hres.
  destruct (randomInt entropy 1 (range + 1) pos) as [num pos1 | |];
    try discriminate.
  destruct (isPrime num) eqn:Hprime.
  + unfold ret in Hres. injection Hres as <- _.
    apply isPrime_iff_prime. exact Hprime.
  + exact (IH pos1 Hres).
Qed.

Lemma generatePrime_prime (range p : Z) (maxTries pos pos' : nat) :
  generatePrime entropy range maxTries pos = Ret p pos' -> Z.prime p.
Proof.
apply generatePrime_loop_prime.
Qed.

#[local] Arguments generatePrime : simpl never.

Lemma redraw_q_spec (fuel : nat) (primeRange p q q' : Z) (pos pos' : nat) :
  Z.prime q ->
  redraw_q entropy fuel primeRange p q pos = Ret q' pos' ->
  Z.prime q' /\ p <> q'.
Proof.
revert q pos. induction fuel as [| fuel IH]; intros q pos Hq Hres;
  simpl in Hres.
- discriminate.
- destruct (Z.eqb_spec p q) as [Heq | Hne].
  + unfold gbind in Hres.
    destruct (generatePrime entropy primeRange 1000 pos)
      as [q1 pos1 | |] eqn:Hgen; try discriminate.
    apply (IH q1 pos1); [| exact Hres].
    exact (generatePrime_prime _ _ _ _ _ Hgen).
  + unfold ret in Hres. injection Hres as <- _. split; assumption.
Qed.

(** What a returned key pair is made of. *)
Definition key_pair_of (p q e d : Z) (kp : KeyPair) : Prop :=
  Z.prime p /\ Z.prime q /\ p <> q /\
  select_e ((p - 1) * (q - 1)) = Some e /\
  mod_inverse e ((p - 1) * (q - 1)) = Some d /\
  kp = {| public_key :=
            {| pub_e := BigInt_toString e; pub_n := BigInt_toString (p * q) |};
          private_key :=
            {| priv_d := BigInt_toString d; priv_n := BigInt_toString (p * q) |} |}.

Lemma generate_rsa_keys_spec (fuel : nat) (primeRange : Z) (pos pos' : nat)
      (kp : KeyPair) :
  generate_rsa_keys entropy fuel primeRange pos = Ret kp pos' ->
  exists p q e d, key_pair_of p q e d kp.
Proof.
revert primeRange pos.
induction fuel as [| fuel IH]; intros primeRange pos Hres; simpl in Hres.
- discriminate.
- unfold gbind in Hres.
  destruct (generatePrime entropy primeRange 1000 pos)
    as [p pos1 | |] eqn:Hp; try discriminate.
  destruct (generatePrime entropy primeRange 1000 pos1)
    as [q0 pos2 | |] eqn:Hq0; try discriminate.
  destruct (redraw_q entropy fuel primeRange p q0 pos2)
    as [q pos3 | |] eqn:Hq; try discriminate.
  apply generatePrime_prime in Hp, Hq0.
  destruct (redraw_q_spec _ _ _ _ _ _ _ Hq0 Hq) as [Hqp Hne].
  destruct (select_e ((p - 1) * (q - 1))) as [e |] eqn:He;
    [| exact (IH _ _ Hres)].
  destruct (mod_inverse e ((p - 1) * (q - 1))) as [d |] eqn:Hd;
    [| exact (IH _ _ Hres)].
  unfold ret in Hres. injection Hres as <- _.
  exists p, q, e, d. unfold key_pair_of.
  split; [exact Hp | split; [exact Hqp | split; [exact Hne |]]].
  split; [exact He | split; [exact Hd | reflexivity]].
Qed.

End KeyGenerationFacts.

(** Encrypting then decrypting one symbol under a well-formed key. *)
Lemma encrypt_decrypt_char (p q e d v : Z) :
  Z.prime p -> Z.prime q -> p <> q ->
  select_e ((p - 1) * (q - 1)) = Some e ->
  mod_inverse e ((p - 1) * (q - 1)) = Some d ->
  0 <= v < p * q ->
  exists c,
    encrypt_char v (BigInt_toString e) (BigInt_toString (p * q)) = Ok c /\
    decrypt_char c (BigInt_toString d) (BigInt_toString (p * q)) =
      Ok (BigInt_toString v).
Proof.
intros Hp Hq Hne He Hd Hv.
pose proof (Z.prime_ge_2 p Hp) as Hp2.
pose proof (Z.prime_ge_2 q Hq) as Hq2.
apply select_e_loop_some in He. destruct He as [He _].
destruct (mod_inverse_spec e _ d He Hd) as [Hd0 Hed].
assert (Hn : 0 < p * q) by nia.
exists (BigInt_toString (v ^ e mod (p * q))).
unfold encrypt_char, decrypt_char.
rewrite !BigInt_toString_roundtrip. simpl.
unfold big_pow, big_rem.
destruct (Z.ltb_spec e 0) as [He0 | _]; [lia |].
destruct (Z.ltb_spec d 0) as [Hd0' | _]; [lia |].
destruct (Z.eqb_spec (p * q) 0) as [Hn0 | _]; [lia |].
simpl.
assert (Hpow : 0 <= v ^ e) by (apply Z.pow_nonneg; lia).
rewrite (Z.rem_mod_nonneg (v ^ e)) by lia.
split; [reflexivity |].
pose proof (Z.mod_pos_bound (v ^ e) (p * q) Hn) as Hc.
rewrite Z.rem_mod_nonneg; [| apply Z.pow_nonneg; lia | lia].
rewrite (rsa_identity p q e d v); try assumption; try lia.
reflexivity.
Qed.

(** [encrypt_message] passes the code units of the message, in order,
    to [encrypt_char]. *)
Fixpoint encrypt_symbols (values : list Z) (public_key : PublicKey)
  : result (list string) :=
  match values with
  | [] => Ok []
  | v :: rest =>
      bind (encrypt_char v (pub_e public_key) (pub_n public_key)) (fun c =>
      bind (encrypt_symbols rest public_key) (fun cs =>
      Ok (c :: cs)))
  end.

Lemma encrypt_message_symbols (msg : jsstring) (public_key : PublicKey) :
  encrypt_message msg public_key = encrypt_symbols msg public_key.
Proof.
unfold encrypt_message, split_units.
induction msg as [| u msg IH]; [reflexivity |].
cbn [map encrypt_units encrypt_symbols charCodeAt nth_error].
rewrite IH. reflexivity.
Qed.

(** ** C1 *)

(** C1: for every key pair returned by [generate_rsa_keys] and every
    symbol value [v] with [0 <= v < n], decrypting the encryption of [v]
    under the pair's public key [{e, n}] with its private key [{d, n}]
    recovers [v] (as the decimal numeral the source returns). *)
Theorem generate_rsa_keys_roundtrip
        (entropy : nat -> Z) (fuel : nat) (primeRange : Z) (pos pos' : nat)
        (kp : KeyPair) (n v : Z) :
  generate_rsa_keys entropy fuel primeRange pos = Ret kp pos' ->
  BigInt (pub_n (public_key kp)) = Ok n ->
  0 <= v < n ->
  priv_n (private_key kp) = pub_n (public_key kp) /\
  exists c,
    encrypt_char v (pub_e (public_key kp)) (pub_n (public_key kp)) = Ok c /\
    decrypt_char c (priv_d (private_key kp)) (priv_n (private_key kp)) =
      Ok (BigInt_toString v).
Proof.
intros Hgen Hn Hv.
destruct (generate_rsa_keys_spec _ _ _ _ _ _ Hgen)
  as (p & q & e & d & Hp & Hq & Hne & He & Hd & ->).
simpl in *. rewrite BigInt_toString_roundtrip in Hn. injection Hn as <-.
split; [reflexivity |].
apply encrypt_decrypt_char; assumption.
Qed.

(** The draws 11 and 13 at range 5000 give the key pair
    [{e = 7, n = 143}], [{d = 103, n = 143}]. *)
Definition sample_entropy (k : nat) : Z := nth k [10; 12] 0.

Definition sample_keys : KeyPair :=
  {| public_key := {| pub_e := "7"; pub_n := "143" |};
     private_key := {| priv_d := "103"; priv_n := "143" |} |}.

Lemma sample_keys_generated :
  generate_rsa_keys sample_entropy 2%nat 5000 0%nat = Ret sample_keys 2%nat.
Proof.
vm_compute. reflexivity.
Qed.

Lemma generate_rsa_keys_roundtrip_witness :
  generate_rsa_keys sample_entropy 2%nat 5000 0%nat = Ret sample_keys 2%nat /\
  BigInt (pub_n (public_key sample_keys)) = Ok 143 /\
  0 <= 100 < 143 /\
  priv_n (private_key sample_keys) = pub_n (public_key sample_keys) /\
  exists c,
    encrypt_char 100 (pub_e (public_key sample_keys))
                 (pub_n (public_key sample_keys)) = Ok c /\
    decrypt_char c (priv_d (private_key sample_keys))
                 (priv_n (private_key sample_keys)) = Ok (BigInt_toString 100).
Proof.
split; [exact sample_keys_generated |].
split; [reflexivity |].
split; [lia |].
apply (generate_rsa_keys_roundtrip sample_entropy 2%nat 5000 0%nat 2%nat
                                   sample_keys 143 100 sample_keys_generated);
  [reflexivity | lia].
Defined.

End RsaFacts.

(* ================================================================= *)
(** * Facts about utils/hamming.js *)

Module HammingFacts.
Import Js HammingJs.

Definition is_bit (b : Z) : Prop := b = 0 \/ b = 1.

(** The word [word] with the bit at the 1-indexed position [i]
    inverted. *)
Definition flip_bit (word : list Z) (i : nat) : list Z :=
  array_set word (i - 1) (1 - array_get word (i - 1)).

(** The codeword of the nibble of value [v], as the specification words
    it: parities [p1 = d3 + d5 + d7], [p2 = d3 + d6 + d7],
    [p4 = d5 + d6 + d7] modulo 2, word [p1 p2 d3 p4 d5 d6 d7] packed
    most significant bit first. *)
Definition spec_codeword (v : Z) : Z :=
  let d3 := (v / 8) mod 2 in
  let d5 := (v / 4) mod 2 in
  let d6 := (v / 2) mod 2 in
  let d7 := v mod 2 in
  let p1 := (d3 + d5 + d7) mod 2 in
  let p2 := (d3 + d6 + d7) mod 2 in
  let p4 := (d5 + d6 + d7) mod 2 in
  64 * p1 + 32 * p2 + 16 * d3 + 8 * p4 + 4 * d5 + 2 * d6 + d7.

(** The two output characters the specification gives for the
    character code [c]: high nibble first. *)
Definition spec_encode_char (c : Z) : jsstring :=
  [spec_codeword (c / 16); spec_codeword (c mod 16)].

(** The body of the loop of [decodeMessage] on the two codes read. *)
Definition decodePair (highCode lowCode : option Z) : result jsstring :=
  bind (decodeNibble (bits_of highCode)) (fun decodedHigh =>
  bind (decodeNibble (bits_of lowCode)) (fun decodedLow =>
  Ok (fromCharCode
        (bor (shl (nibble_value decodedHigh) 4) (nibble_value decodedLow))))).

Lemma decodeAt_decodePair (msg : jsstring) (i : nat) :
  decodeAt msg i = decodePair (charCodeAt msg i) (charCodeAt msg (i + 1)).
Proof.
reflexivity.
Qed.

Lemma decodeMessage_loop_eq (msg : jsstring) (i : nat) (acc : jsstring) :
  decodeMessage_loop msg i acc =
  if (i <? List.length msg)%nat then
    match decodeAt msg i with
    | Ok one => decodeMessage_loop msg (i + 2) (acc ++ one)
    | Throw e => Throw e
    end
  else Ok acc.
Proof.
rewrite decodeMessage_loop_equation_1.
destruct (inspect (i <? List.length msg)%nat) as [[] H];
  unfold decodeMessage_loop_unfold_clause_1; [| rewrite H; reflexivity].
destruct (decodeAt msg i) as [one | e];
  unfold decodeMessage_loop_unfold_clause_1_clause_2;
  rewrite H; reflexivity.
Qed.

(** ** Single-error correction *)

(** The word [word] with an error at the 1-indexed position [i]: the
    bits before position [i], the opposite of the bit at position [i],
    the bits after it. *)
Definition with_error (word : list Z) (i : nat) : list Z :=
  (firstn (i - 1) word
   ++ map (fun b => 1 - b) (firstn 1 (skipn (i - 1) word))
   ++ skipn i word)%list.

(** The number of positions at which two words differ. *)
Fixpoint differences (u v : list Z) : nat :=
  match u, v with
  | x :: u', y :: v' =>
      ((if (x =? y)%Z then 0 else 1) + differences u' v')%nat
  | _, _ => 0%nat
  end.

(** C3: for every 4-bit nibble [N], decoding the codeword
    [encodeNibble N] yields [N], and so does decoding it with the bit at
    any 1-indexed position [i] in [[1, 7]] flipped; the flipped word has
    the length of the codeword and differs from it at exactly one
    position. *)
Theorem decodeNibble_corrects_single_error (N : list Z) :
  List.length N = 4%nat -> Forall is_bit N ->
  exists w,
    encodeNibble N = Ok w /\
    decodeNibble w = Ok N /\
    forall i, (1 <= i <= 7)%nat ->
      List.length (with_error w i) = List.length w /\
      differences (with_error w i) w = 1%nat /\
      decodeNibble (with_error w i) = Ok N.
Proof.
intros Hlen Hbits.
destruct N as [| d3 [| d5 [| d6 [| d7 [| ? ?]]]]]; try discriminate.
inversion Hbits as [| ? ? H3 Hb1]; subst.
inversion Hb1 as [| ? ? H5 Hb2]; subst.
inversion Hb2 as [| ? ? H6 Hb3]; subst.
inversion Hb3 as [| ? ? H7 _]; subst.
destruct H3 as [-> | ->], H5 as [-> | ->], H6 as [-> | ->], H7 as [-> | ->];
  (eexists; split; [reflexivity |]; split; [reflexivity |];
   intros i Hi;
   destruct i as [| [| [| [| [| [| [| [| i]]]]]]]]; try lia;
   (split; [reflexivity | split; reflexivity])).
Qed.

Lemma decodeNibble_corrects_single_error_witness :
  (List.length [1; 0; 1; 1] = 4%nat /\ Forall is_bit [1; 0; 1; 1]) /\
  exists w,
    encodeNibble [1; 0; 1; 1] = Ok w /\
    decodeNibble w = Ok [1; 0; 1; 1] /\
    forall i, (1 <= i <= 7)%nat ->
      List.length (with_error w i) = List.length w /\
      differences (with_error w i) w = 1%nat /\
      decodeNibble (with_error w i) = Ok [1; 0; 1; 1].
Proof.
assert (Hbits : Forall is_bit [1; 0; 1; 1]).
{ repeat constructor; unfold is_bit; lia. }
split; [split; [reflexivity | exact Hbits] |].
exact (decodeNibble_corrects_single_error [1; 0; 1; 1] eq_refl Hbits).
Defined.

(** ** Checking a property on every code of a finite range *)

Lemma forall_range_check (f : Z -> bool) (n : nat) :
  forallb f (map Z.of_nat (seq 0 n)) = true ->
  forall c, 0 <= c < Z.of_nat n -> f c = true.
Proof.
intros Hall c Hc. rewrite forallb_forall in Hall. apply Hall.
apply in_map_iff. exists (Z.to_nat c). split; [lia |].
apply in_seq. lia.
Qed.

(** The shape of the check below, on an arbitrary encoder result [r] and
    decoder [dec]. *)
Definition roundtrip_check (r : result jsstring)
           (dec : Z -> Z -> result jsstring) (hi lo c : Z) : bool :=
  match r with
  | Ok [h; l] =>
      (h =? hi) && (l =? lo) &&
      match dec h l with
      | Ok [c'] => c' =? c
      | _ => false
      end
  | _ => false
  end.

Lemma roundtrip_check_sound (r : result jsstring)
      (dec : Z -> Z -> result jsstring) (hi lo c : Z) :
  roundtrip_check r dec hi lo c = true ->
  r = Ok [hi; lo] /\ dec hi lo = Ok [c].
Proof.
unfold roundtrip_check. intros Hcheck.
destruct r as [[| h [| l [| ? ?]]] | e]; try discriminate.
apply andb_prop in Hcheck. destruct Hcheck as [Hhl Hdec].
apply andb_prop in Hhl. destruct Hhl as [Hh Hl].
apply Z.eqb_eq in Hh, Hl. subst h l.
split; [reflexivity |].
destruct (dec hi lo) as [[| c' [| ? ?]] | e]; try discriminate.
apply Z.eqb_eq in Hdec. subst c'. reflexivity.
Qed.

(** The encoder and the decoder agree with the specification on every
    character code below 256. *)
Lemma char_roundtrip_check_all :
  forallb (fun c =>
             roundtrip_check (encodeChar [c])
                             (fun h l => decodePair (Some h) (Some l))
                             (spec_codeword (c / 16))
                             (spec_codeword (c mod 16)) c)
          (map Z.of_nat (seq 0 256)) = true.
Proof.
vm_compute. reflexivity.
Qed.

Lemma char_roundtrip (c : Z) :
  0 <= c <= 255 ->
  encodeChar [c] = Ok (spec_encode_char c) /\
  decodePair (Some (spec_codeword (c / 16))) (Some (spec_codeword (c mod 16)))
    = Ok [c].
Proof.
intros Hc.
pose proof (forall_range_check _ 256 char_roundtrip_check_all c) as Hcheck.
cbv beta in Hcheck.
apply roundtrip_check_sound in Hcheck; [| lia].
unfold spec_encode_char. exact Hcheck.
Qed.

(** ** Message round trip *)

Definition is_8bit (c : Z) : Prop := 0 <= c <= 255.

Lemma for_of_8bit (P : jsstring) :
  Forall is_8bit P -> for_of P = map (fun u => [u]) P.
Proof.
induction 1 as [| c P Hc HP IH]; [reflexivity |].
cbn [for_of map]. rewrite IH.
destruct P as [| v P']; [reflexivity |].
assert (Hs : is_high_surrogate c = false).
{ unfold is_high_surrogate, is_8bit in *.
  destruct (Z.leb_spec 55296 c); [lia | reflexivity]. }
rewrite Hs. cbn [andb]. reflexivity.
Qed.

Lemma encodeMessage_loop_8bit (P acc : jsstring) :
  Forall is_8bit P ->
  encodeMessage_loop (map (fun u => [u]) P) acc =
  Ok (acc ++ flat_map spec_encode_char P).
Proof.
intros HP. revert acc.
induction HP as [| c P Hc HP IH]; intros acc; cbn [map encodeMessage_loop flat_map].
- rewrite app_nil_r. reflexivity.
- destruct (char_roundtrip c Hc) as [Henc _]. rewrite Henc.
  cbn [bind]. rewrite IH, <- app_assoc. reflexivity.
Qed.

Lemma charCodeAt_app (pre rest : jsstring) (h l : Z) :
  charCodeAt (pre ++ h :: l :: rest) (List.length pre) = Some h /\
  charCodeAt (pre ++ h :: l :: rest) (List.length pre + 1) = Some l.
Proof.
unfold charCodeAt. split.
- rewrite nth_error_app2 by lia. rewrite Nat.sub_diag. reflexivity.
- rewrite nth_error_app2 by lia.
  replace (List.length pre + 1 - List.length pre)%nat with 1%nat by lia.
  reflexivity.
Qed.

Lemma decodeMessage_loop_encoded (P pre acc : jsstring) :
  Forall is_8bit P ->
  decodeMessage_loop (pre ++ flat_map spec_encode_char P) (List.length pre) acc
  = Ok (acc ++ P).
Proof.
intros HP. revert pre acc.
induction HP as [| c P Hc HP IH]; intros pre acc;
  rewrite decodeMessage_loop_eq; cbn [flat_map].
- rewrite app_nil_r, Nat.ltb_irrefl, app_nil_r. reflexivity.
- set (rest := flat_map spec_encode_char P) in *.
  change (spec_encode_char c ++ rest)
    with (spec_codeword (c / 16) :: spec_codeword (c mod 16) :: rest).
  set (h := spec_codeword (c / 16)). set (l := spec_codeword (c mod 16)).
  assert (Hlt : (List.length pre <? List.length (pre ++ h :: l :: rest))%nat
                = true).
  { apply Nat.ltb_lt. rewrite length_app. cbn [List.length]. lia. }
  rewrite Hlt, decodeAt_decodePair.
  destruct (charCodeAt_app pre rest h l) as [-> ->].
  destruct (char_roundtrip c Hc) as [_ Hdec].
  subst h l. rewrite Hdec.
  specialize (IH (pre ++ [spec_codeword (c / 16); spec_codeword (c mod 16)])
                 (acc ++ [c])).
  rewrite length_app in IH. cbn [List.length] in IH.
  rewrite <- app_assoc in IH. cbn [app] in IH.
  rewrite IH, <- app_assoc. reflexivity.
Qed.

(** C2: for every string [P] all of whose characters have code points in
    [[0, 255]], [decodeMessage (encodeMessage P)] is [P]; [encodeMessage]
    produces exactly two output characters per input character, the
    codeword of the high nibble then that of the low nibble. *)
Theorem decodeMessage_encodeMessage (P : jsstring) :
  Forall is_8bit P ->
  exists E,
    encodeMessage P = Ok E /\
    decodeMessage E = Ok P /\
    E = flat_map spec_encode_char P /\
    List.length E = (2 * List.length P)%nat.
Proof.
intros HP. exists (flat_map spec_encode_char P).
unfold encodeMessage, decodeMessage.
rewrite (for_of_8bit P HP), (encodeMessage_loop_8bit P [] HP).
split; [reflexivity |].
split; [exact (decodeMessage_loop_encoded P [] [] HP) |].
split; [reflexivity |].
clear HP. induction P as [| c P IH]; [reflexivity |].
cbn [flat_map]. rewrite length_app, IH. cbn [spec_encode_char List.length]. lia.
Qed.

Lemma decodeMessage_encodeMessage_witness :
  Forall is_8bit [104; 105] /\
  exists E,
    encodeMessage [104; 105] = Ok E /\
    decodeMessage E = Ok [104; 105] /\
    E = flat_map spec_encode_char [104; 105] /\
    List.length E = (2 * List.length [104; 105])%nat.
Proof.
assert (H8 : Forall is_8bit [104; 105]).
{ repeat constructor; unfold is_8bit; lia. }
split; [exact H8 |].
exact (decodeMessage_encodeMessage [104; 105] H8).
Defined.

(** ** Inputs of odd length *)

Lemma decodeNibble_total (w : list Z) :
  List.length w = 7%nat -> exists d, decodeNibble w = Ok d.
Proof.
intros Hlen.
destruct w as [| p1 [| p2 [| d3 [| p4 [| d5 [| d6 [| d7 [| ? ?]]]]]]]];
  try discriminate.
unfold decodeNibble. eexists. reflexivity.
Qed.

Lemma bits_of_length (code : option Z) : List.length (bits_of code) = 7%nat.
Proof.
unfold bits_of. rewrite length_map. reflexivity.
Qed.

(** The body of the loop of [decodeMessage] never throws: it always
    appends one character. *)
Lemma decodeAt_total (msg : jsstring) (i : nat) :
  exists c, decodeAt msg i = Ok [c].
Proof.
rewrite decodeAt_decodePair. unfold decodePair.
destruct (decodeNibble_total _ (bits_of_length (charCodeAt msg i)))
  as [dh ->].
destruct (decodeNibble_total _ (bits_of_length (charCodeAt msg (i + 1))))
  as [dl ->].
cbn [bind]. unfold fromCharCode. eexists. reflexivity.
Qed.

Lemma decodeMessage_loop_total (n : nat) :
  forall (msg : jsstring) (i : nat) (acc : jsstring),
    (List.length msg - i <= n)%nat ->
    exists s,
      decodeMessage_loop msg i acc = Ok (acc ++ s) /\
      List.length s = ((List.length msg - i + 1) / 2)%nat.
Proof.
induction n as [| n IH]; intros msg i acc Hn; rewrite decodeMessage_loop_eq.
- destruct (Nat.ltb_spec i (List.length msg)) as [Hlt | Hge]; [lia |].
  exists []. rewrite app_nil_r. split; [reflexivity |].
  replace (List.length msg - i + 1)%nat with 1%nat by lia. reflexivity.
- destruct (Nat.ltb_spec i (List.length msg)) as [Hlt | Hge].
  + destruct (decodeAt_total msg i) as [c ->].
    destruct (IH msg (i + 2)%nat (acc ++ [c]) ltac:(lia)) as [s [Hs Hlen]].
    exists (c :: s). rewrite Hs, <- app_assoc. split; [reflexivity |].
    cbn [List.length]. rewrite Hlen.
    destruct (Nat.eq_dec (List.length msg - i) 1) as [H1 | H1].
    * replace (List.length msg - (i + 2))%nat with 0%nat by lia.
      rewrite H1. reflexivity.
    * replace (List.length msg - i + 1)%nat
        with (List.length msg - (i + 2) + 1 + 1 * 2)%nat by lia.
      rewrite Nat.div_add by lia. lia.
  + exists []. rewrite app_nil_r. split; [reflexivity |].
    replace (List.length msg - i + 1)%nat with 1%nat by lia. reflexivity.
Qed.

Lemma charCodeAt_padded (pre : jsstring) (u : Z) (j : nat) :
  bits_of (charCodeAt (pre ++ [u]) j) = bits_of (charCodeAt (pre ++ [u; 0]) j).
Proof.
unfold charCodeAt.
destruct (Nat.lt_trichotomy j (List.length pre)) as [Hlt | [Heq | Hgt]].
- rewrite !nth_error_app1 by exact Hlt. reflexivity.
- subst j. rewrite !nth_error_app2 by lia. rewrite Nat.sub_diag. reflexivity.
- rewrite !nth_error_app2 by lia.
  destruct (j - List.length pre)%nat as [| [| k]] eqn:Hk; try lia.
  + reflexivity.
  + simpl. destruct k; reflexivity.
Qed.

Lemma decodeAt_padded (pre : jsstring) (u : Z) (i : nat) :
  decodeAt (pre ++ [u]) i = decodeAt (pre ++ [u; 0]) i.
Proof.
rewrite !decodeAt_decodePair. unfold decodePair.
rewrite (charCodeAt_padded pre u i), (charCodeAt_padded pre u (i + 1)).
reflexivity.
Qed.

(** On an input of odd length the loop reads the missing last unit as
    seven zero bits: it behaves as on the input padded with a unit of
    code 0. *)
Lemma decodeMessage_loop_padded (pre : jsstring) (u : Z) (p : nat) :
  List.length pre = (2 * p)%nat ->
  forall n k acc,
    (p + 1 - k <= n)%nat ->
    decodeMessage_loop (pre ++ [u]) (2 * k) acc
    = decodeMessage_loop (pre ++ [u; 0]) (2 * k) acc.
Proof.
intros Hpre. induction n as [| n IH]; intros k acc Hn;
  rewrite (decodeMessage_loop_eq (pre ++ [u])),
          (decodeMessage_loop_eq (pre ++ [u; 0]));
  rewrite !length_app, Hpre; cbn [List.length].
- destruct (Nat.ltb_spec (2 * k) (2 * p + 1)) as [H1 | H1]; [lia |].
  destruct (Nat.ltb_spec (2 * k) (2 * p + 2)) as [H2 | H2]; [lia |].
  reflexivity.
- destruct (Nat.ltb_spec (2 * k) (2 * p + 1)) as [H1 | H1];
    destruct (Nat.ltb_spec (2 * k) (2 * p + 2)) as [H2 | H2]; try lia;
    [| reflexivity].
  rewrite decodeAt_padded.
  destruct (decodeAt (pre ++ [u; 0]) (2 * k)) as [one | e]; [| reflexivity].
  replace (2 * k + 2)%nat with (2 * (k + 1))%nat by lia.
  apply IH. lia.
Qed.

(** C6 (as the code has it): [decodeMessage] checks no length and never
    fails; on every input, of even or odd length [L], it returns a
    decoded string of [(L + 1) / 2] characters, and an input of odd
    length is decoded as if padded with one unit of code 0. *)
Theorem decodeMessage_never_fails (msg : jsstring) :
  (exists s,
      decodeMessage msg = Ok s /\
      List.length s = ((List.length msg + 1) / 2)%nat) /\
  (forall pre u,
      msg = pre ++ [u] -> Nat.even (List.length pre) = true ->
      decodeMessage msg = decodeMessage (pre ++ [u; 0])).
Proof.
split.
- unfold decodeMessage.
  destruct (decodeMessage_loop_total (List.length msg) msg 0 [] ltac:(lia))
    as [s [Hs Hlen]].
  exists s. rewrite Nat.sub_0_r in Hlen. split; assumption.
- intros pre u -> Heven. unfold decodeMessage.
  apply Nat.even_spec in Heven. destruct Heven as [p Hp].
  exact (decodeMessage_loop_padded pre u p Hp (p + 1) 0 [] ltac:(lia)).
Qed.

(** C6 as stated fails: the one-character input below has odd length and
    [decodeMessage] returns a decoded string for it instead of failing
    (the missing low unit is read as seven zero bits). *)
Lemma decodeMessage_odd_length_accepted :
  Nat.odd (List.length [51]) = true /\
  decodeMessage [51] = Ok [176] /\
  ~ (exists e, decodeMessage [51] = Throw e).
Proof.
assert (Hrun : decodeMessage [51] = Ok [176]) by (vm_compute; reflexivity).
split; [reflexivity |]. split; [exact Hrun |].
intros [e He]. rewrite Hrun in He. discriminate.
Qed.

(** ** Range of the encoded units *)

Definition is_7bit (u : Z) : Prop := 0 <= u <= 127.

Lemma band_1_is_bit (x : Z) : is_bit (band x 1).
Proof.
unfold band, is_bit. change (ToInt32 1) with (Z.ones 1).
rewrite Z.land_ones by lia.
pose proof (Z.mod_pos_bound (ToInt32 x) (2 ^ 1) ltac:(lia)). lia.
Qed.

Lemma codeword_range (b1 b2 b3 b4 : Z) :
  is_bit b1 -> is_bit b2 -> is_bit b3 -> is_bit b4 ->
  exists w, encodeNibble [b1; b2; b3; b4] = Ok w /\ is_7bit (pack w).
Proof.
intros [-> | ->] [-> | ->] [-> | ->] [-> | ->];
  (eexists; split; [reflexivity |]; vm_compute; split; discriminate).
Qed.

Lemma encodeChar_range (ch : jsstring) :
  exists h l, encodeChar ch = Ok [h; l] /\ is_7bit h /\ is_7bit l.
Proof.
unfold encodeChar.
set (code := of_NaN (charCodeAt ch 0)).
destruct (codeword_range _ _ _ _
            (band_1_is_bit (shr code 7)) (band_1_is_bit (shr code 6))
            (band_1_is_bit (shr code 5)) (band_1_is_bit (shr code 4)))
  as [wh [-> Hh]].
destruct (codeword_range _ _ _ _
            (band_1_is_bit (shr code 3)) (band_1_is_bit (shr code 2))
            (band_1_is_bit (shr code 1)) (band_1_is_bit code))
  as [wl [-> Hl]].
cbn [bind]. unfold fromCharCode. unfold is_7bit in Hh, Hl.
rewrite !Z.mod_small by lia.
exists (pack wh), (pack wl). split; [reflexivity | split; assumption].
Qed.

Lemma encodeMessage_loop_range (chars : list jsstring) :
  forall acc, Forall is_7bit acc ->
  exists E, encodeMessage_loop chars acc = Ok E /\ Forall is_7bit E.
Proof.
induction chars as [| ch chars IH]; intros acc Hacc; cbn [encodeMessage_loop].
- exists acc. split; [reflexivity | exact Hacc].
- destruct (encodeChar_range ch) as (h & l & -> & Hh & Hl). cbn [bind].
  apply IH. apply Forall_app. split; [exact Hacc |].
  constructor; [exact Hh |]. constructor; [exact Hl | constructor].
Qed.

Lemma encodeMessage_range (msg : jsstring) :
  exists E, encodeMessage msg = Ok E /\ Forall is_7bit E.
Proof.
unfold encodeMessage. apply encodeMessage_loop_range. constructor.
Qed.

(** C10: for every input string, every code unit of the string returned
    by [encodeMessage] lies in [[0, 127]]; the symbol values that
    [encrypt_message] passes to encryption are these code units, so each
    is below 128 and, whenever [n > 127], below the modulus [n]. *)
Theorem encodeMessage_units_below_modulus (msg : jsstring) (n : Z) :
  127 < n ->
  exists E,
    encodeMessage msg = Ok E /\
    Forall is_7bit E /\
    (forall public_key,
        RsaJs.encrypt_message E public_key
        = RsaFacts.encrypt_symbols E public_key) /\
    Forall (fun v => 0 <= v < n) E.
Proof.
intros Hn. destruct (encodeMessage_range msg) as [E [HE Hrange]].
exists E. split; [exact HE |]. split; [exact Hrange |].
split; [intros public_key; apply RsaFacts.encrypt_message_symbols |].
apply Forall_impl with (P := is_7bit); [| exact Hrange].
intros u Hu. unfold is_7bit in Hu. lia.
Qed.

Lemma encodeMessage_units_below_modulus_witness :
  127 < 143 /\
  exists E,
    encodeMessage [104; 105] = Ok E /\
    Forall is_7bit E /\
    (forall public_key,
        RsaJs.encrypt_message E public_key
        = RsaFacts.encrypt_symbols E public_key) /\
    Forall (fun v => 0 <= v < 143) E.
Proof.
split; [lia |].
apply (encodeMessage_units_below_modulus [104; 105] 143). lia.
Defined.

End HammingFacts.

(* ================================================================= *)
(** * Facts about the registry map *)

Module JsMapFacts.

Section WithValue.

Context {V : Type}.

Implicit Types (m : JsMap.t V) (k : string) (v : V).

Lemma get_In m k v : JsMap.get m k = Some v -> In (k, v) m.
Proof.
induction m as [| [k' v'] m IH]; simpl; [discriminate |].
destruct (String.eqb_spec k' k) as [-> | Hne].
- intros H. injection H as ->. left. reflexivity.
- intros H. right. exact (IH H).
Qed.

Lemma get_None_not_In m k : JsMap.get m k = None <-> ~ In k (JsMap.keys m).
Proof.
induction m as [| [k' v'] m IH]; simpl.
- split; [intros _ [] | reflexivity].
- destruct (String.eqb_spec k' k) as [-> | Hne].
  + split; [discriminate | intros H; exfalso; apply H; left; reflexivity].
  + rewrite IH. split.
    * intros H [Heq | Hin]; [exact (Hne Heq) | exact (H Hin)].
    * intros H Hin. apply H. right. exact Hin.
Qed.

Lemma In_get m k v :
  NoDup (JsMap.keys m) -> In (k, v) m -> JsMap.get m k = Some v.
Proof.
induction m as [| [k' v'] m IH]; simpl; intros Hnd Hin; [contradiction |].
inversion Hnd as [| ? ? Hnotin Hnd']; subst.
destruct Hin as [Heq | Hin].
- injection Heq as -> ->. rewrite String.eqb_refl. reflexivity.
- destruct (String.eqb_spec k' k) as [-> | Hne]; [| exact (IH Hnd' Hin)].
  exfalso. apply Hnotin. unfold JsMap.keys.
  change k with (fst (k, v)). apply in_map. exact Hin.
Qed.

Lemma get_set_same m k v : JsMap.get (JsMap.set m k v) k = Some v.
Proof.
induction m as [| [k' v'] m IH]; simpl.
- rewrite String.eqb_refl. reflexivity.
- destruct (String.eqb_spec k' k) as [-> | Hne]; simpl.
  + rewrite String.eqb_refl. reflexivity.
  + destruct (String.eqb_spec k' k); [contradiction | exact IH].
Qed.

Lemma get_set_other m k k' v :
  k' <> k -> JsMap.get (JsMap.set m k v) k' = JsMap.get m k'.
Proof.
intros Hne. induction m as [| [k0 v0] m IH]; simpl.
- destruct (String.eqb_spec k k'); [congruence | reflexivity].
- destruct (String.eqb_spec k0 k) as [-> | Hne0]; simpl.
  + destruct (String.eqb_spec k k'); [congruence | reflexivity].
  + destruct (String.eqb_spec k0 k'); [reflexivity | exact IH].
Qed.

Lemma keys_set m k v k' :
  In k' (JsMap.keys (JsMap.set m k v)) <-> k' = k \/ In k' (JsMap.keys m).
Proof.
induction m as [| [k0 v0] m IH]; simpl.
- split; [intros [H | []]; left; congruence | intros [H | []]; left; congruence].
- destruct (String.eqb_spec k0 k) as [-> | Hne0]; simpl.
  + split; [intros [H | H]; [left; congruence | right; right; exact H] |].
    intros [H | [H | H]]; [left | left | right]; congruence.
  + rewrite IH. tauto.
Qed.

Lemma set_NoDup m k v :
  NoDup (JsMap.keys m) -> NoDup (JsMap.keys (JsMap.set m k v)).
Proof.
induction m as [| [k0 v0] m IH]; simpl; intros Hnd.
- constructor; [intros [] | constructor].
- inversion Hnd as [| ? ? Hnotin Hnd']; subst.
  destruct (String.eqb_spec k0 k) as [-> | Hne0]; simpl.
  + constructor; assumption.
  + constructor; [| exact (IH Hnd')].
    intros Hin. apply keys_set in Hin. destruct Hin as [Heq | Hin];
      [exact (Hne0 Heq) | exact (Hnotin Hin)].
Qed.

(** [set] on a present key keeps the number and the order of the
    entries: the value is replaced in place. *)
Lemma set_present_keys m k v :
  In k (JsMap.keys m) -> JsMap.keys (JsMap.set m k v) = JsMap.keys m.
Proof.
induction m as [| [k0 v0] m IH]; simpl; intros Hin; [contradiction |].
destruct (String.eqb_spec k0 k) as [-> | Hne0]; simpl; [reflexivity |].
destruct Hin as [Heq | Hin]; [contradiction |].
rewrite (IH Hin). reflexivity.
Qed.

Lemma delete_absent m k : JsMap.get m k = None -> JsMap.delete m k = m.
Proof.
induction m as [| [k0 v0] m IH]; simpl; [reflexivity |].
destruct (String.eqb_spec k0 k) as [-> | Hne0]; [discriminate |].
intros H. rewrite (IH H). reflexivity.
Qed.

Lemma keys_delete m k k' :
  In k' (JsMap.keys (JsMap.delete m k)) -> In k' (JsMap.keys m).
Proof.
induction m as [| [k0 v0] m IH]; simpl; [intros [] |].
destruct (String.eqb_spec k0 k) as [-> | Hne0]; simpl.
- intros H. right. exact H.
- intros [H | H]; [left; exact H | right; exact (IH H)].
Qed.

Lemma delete_NoDup m k :
  NoDup (JsMap.keys m) -> NoDup (JsMap.keys (JsMap.delete m k)).
Proof.
induction m as [| [k0 v0] m IH]; simpl; intros Hnd; [constructor |].
inversion Hnd as [| ? ? Hnotin Hnd']; subst.
destruct (String.eqb_spec k0 k) as [-> | Hne0]; simpl; [exact Hnd' |].
constructor; [| exact (IH Hnd')].
intros Hin. apply Hnotin. exact (keys_delete _ _ _ Hin).
Qed.

Lemma get_delete_same m k :
  NoDup (JsMap.keys m) -> JsMap.get (JsMap.delete m k) k = None.
Proof.
induction m as [| [k0 v0] m IH]; simpl; intros Hnd; [reflexivity |].
inversion Hnd as [| ? ? Hnotin Hnd']; subst.
destruct (String.eqb_spec k0 k) as [-> | Hne0]; simpl.
- apply get_None_not_In. exact Hnotin.
- destruct (String.eqb_spec k0 k); [contradiction | exact (IH Hnd')].
Qed.

Lemma get_delete_other m k k' :
  k' <> k -> JsMap.get (JsMap.delete m k) k' = JsMap.get m k'.
Proof.
intros Hne. induction m as [| [k0 v0] m IH]; simpl; [reflexivity |].
destruct (String.eqb_spec k0 k) as [-> | Hne0]; simpl.
- destruct (String.eqb_spec k k'); [congruence | reflexivity].
- destruct (String.eqb_spec k0 k'); [reflexivity | exact IH].
Qed.

Lemma In_delete m k k' v :
  In (k', v) (JsMap.delete m k) -> In (k', v) m.
Proof.
induction m as [| [k0 v0] m IH]; simpl; [intros [] |].
destruct (String.eqb_spec k0 k) as [-> | Hne0]; simpl.
- intros H. right. exact H.
- intros [H | H]; [left; exact H | right; exact (IH H)].
Qed.

Lemma In_set m k v k' v' :
  In (k', v') (JsMap.set m k v) -> (k', v') = (k, v) \/ In (k', v') m.
Proof.
induction m as [| [k0 v0] m IH]; simpl.
- intros [H | []]. left. symmetry. exact H.
- destruct (String.eqb_spec k0 k) as [-> | Hne0]; simpl.
  + intros [H | H]; [left; symmetry; exact H | right; right; exact H].
  + intros [H | H]; [right; left; exact H |].
    destruct (IH H) as [Heq | Hin]; [left; exact Heq | right; right; exact Hin].
Qed.

End WithValue.

End JsMapFacts.

(* ================================================================= *)
(** * Facts about server.js *)

Module ServerFacts.
Import ServerJs JsMapFacts.

Local Open Scope string_scope.

Ltac break_match :=
  match goal with
  | |- context [match ?x with _ => _ end] => destruct x eqn:?
  | |- context [if ?x then _ else _] => destruct x eqn:?
  end.

Section BrokerFacts.

Context {PK Payload : Type} {preview : Preview Payload}.

Implicit Types (st : State PK Payload) (msg : message PK Payload).
Implicit Types (d : ClientData PK) (ev : event PK Payload).

(** ** The registry invariant *)

(** One record per identifier; a record holds the socket of the
    connection it is keyed by; [socket.identifier] is unset or the
    socket's own identifier. *)
Definition registry_wf st : Prop :=
  NoDup (JsMap.keys (clients st)) /\
  (forall id d, In (id, d) (clients st) -> socket d = id) /\
  (forall s, identifier (sockets st s) = None \/
             identifier (sockets st s) = Some s).

Lemma or_else_self (f : field) (s : string) :
  f = None \/ f = Some s -> or_else f s = s.
Proof.
intros [-> | ->]; [reflexivity |]. destruct s; reflexivity.
Qed.

Lemma registry_key_wf st cid : registry_wf st -> registry_key st cid = cid.
Proof.
intros (_ & _ & Hid). unfold registry_key. apply or_else_self. apply Hid.
Qed.

(** Every case but REGISTER leaves the state as it is. *)
Lemma handle_message_state st cid msg :
  (forall nm pk, msg <> REGISTER nm pk) ->
  fst (fst (handle_message st cid msg)) = st.
Proof.
intros Hmsg. destruct msg; simpl; try reflexivity.
- exfalso. exact (Hmsg _ _ eq_refl).
- repeat break_match; reflexivity.
- repeat break_match; reflexivity.
Qed.

Lemma handle_message_wf st cid msg :
  registry_wf st -> registry_wf (fst (fst (handle_message st cid msg))).
Proof.
intros Hwf.
destruct msg as [nm pk | | t | r p | ty];
  try (rewrite handle_message_state by discriminate; exact Hwf).
destruct Hwf as (Hnd & Hsock & Hid). simpl.
split; [| split]; simpl.
- apply set_NoDup. exact Hnd.
- intros id d Hin. apply In_set in Hin. destruct Hin as [Heq | Hin].
  + injection Heq as -> ->. reflexivity.
  + exact (Hsock id d Hin).
- intros s. destruct (String.eqb_spec s cid) as [-> | Hne]; simpl.
  + right. reflexivity.
  + apply Hid.
Qed.

Lemma handle_line_wf st cid (line : option (message PK Payload)) :
  registry_wf st -> registry_wf (fst (fst (handle_line st cid line))).
Proof.
intros Hwf. destruct line as [msg |]; simpl; [| exact Hwf].
apply handle_message_wf. exact Hwf.
Qed.

Lemma process_lines_wf (lines : list (option (message PK Payload))) :
  forall st cid,
    registry_wf st -> registry_wf (fst (fst (process_lines st cid lines))).
Proof.
induction lines as [| line rest IH]; intros st cid Hwf; simpl; [exact Hwf |].
pose proof (handle_line_wf st cid line Hwf) as H1.
destruct (handle_line st cid line) as [[st1 out1] continue]. simpl in H1.
destruct continue; simpl; [| exact H1].
pose proof (IH st1 cid H1) as H2.
destruct (process_lines st1 cid rest) as [[st2 out2] pending]. exact H2.
Qed.

Lemma update_socket_wf st s (f : SocketState PK Payload -> SocketState PK Payload) :
  (forall ss, identifier (f ss) = identifier ss) ->
  registry_wf st -> registry_wf (update_socket st s f).
Proof.
intros Hf (Hnd & Hsock & Hid). split; [| split]; simpl; try assumption.
intros s'. destruct (String.eqb s' s); [rewrite Hf |]; apply Hid.
Qed.

Lemma on_end_wf st cid : registry_wf st -> registry_wf (on_end st cid).
Proof.
intros Hwf. unfold on_end.
destruct (JsMap.get (clients st) (registry_key st cid)); [| exact Hwf].
destruct Hwf as (Hnd & Hsock & Hid). split; [| split]; simpl.
- apply delete_NoDup. exact Hnd.
- intros id d Hin. apply In_delete in Hin. exact (Hsock id d Hin).
- exact Hid.
Qed.

Lemma on_error_wf st cid : registry_wf st -> registry_wf (on_error st cid).
Proof.
intros Hwf. unfold on_error.
destruct (JsMap.has (clients st) (registry_key st cid)); [| exact Hwf].
destruct Hwf as (Hnd & Hsock & Hid). split; [| split]; simpl.
- apply delete_NoDup. exact Hnd.
- intros id d Hin. apply In_delete in Hin. exact (Hsock id d Hin).
- exact Hid.
Qed.

Lemma step_wf st ev : registry_wf st -> registry_wf (fst (step st ev)).
Proof.
intros Hwf. destruct ev as [cid lines | cid | cid | s w]; simpl.
- unfold on_data.
  pose proof (process_lines_wf
                (clientBuffer (sockets st cid) ++ lines)%list st cid Hwf) as H.
  destruct (process_lines st cid _) as [[st1 out] pending]. simpl in *.
  unfold set_buffer. apply update_socket_wf; [reflexivity | exact H].
- apply on_end_wf. exact Hwf.
- apply on_error_wf. exact Hwf.
- apply update_socket_wf; [reflexivity | exact Hwf].
Qed.

Lemma reachable_wf st : reachable st -> registry_wf st.
Proof.
induction 1 as [| st ev Hreach IH].
- split; [constructor | split]; simpl.
  + intros id d [].
  + intros s. left. reflexivity.
- apply step_wf. exact IH.
Qed.

(** ** Registration and disconnection *)

Lemma register_replaces st cid (nm : field) (pk : PK) :
  registry_wf st ->
  let st' := fst (fst (handle_message st cid (REGISTER nm pk))) in
  JsMap.get (clients st') cid =
    Some {| socket := cid; name := or_else nm EmptyString; public_key := pk |} /\
  (forall k, k <> cid -> JsMap.get (clients st') k = JsMap.get (clients st) k) /\
  NoDup (JsMap.keys (clients st')).
Proof.
intros (Hnd & _ & _). simpl. split; [| split].
- apply get_set_same.
- intros k Hk. apply get_set_other. exact Hk.
- apply set_NoDup. exact Hnd.
Qed.

(** What a disconnection handler does to the registry: the entry of the
    connection is gone, the others stay, and an absent entry leaves the
    state as it is. *)
Definition removes_entry st st' (cid : string) : Prop :=
  JsMap.get (clients st') cid = None /\
  (forall k, k <> cid -> JsMap.get (clients st') k = JsMap.get (clients st) k) /\
  (JsMap.get (clients st) cid = None -> st' = st) /\
  NoDup (JsMap.keys (clients st')).

Lemma on_end_removes st cid :
  registry_wf st -> removes_entry st (on_end st cid) cid.
Proof.
intros Hwf. pose proof (on_end_wf st cid Hwf) as (Hnd' & _ & _).
unfold removes_entry, on_end in *. rewrite (registry_key_wf st cid Hwf) in *.
destruct Hwf as (Hnd & _ & _).
destruct (JsMap.get (clients st) cid) as [d |] eqn:Hget; simpl.
- split; [apply get_delete_same; exact Hnd |].
  split; [intros k Hk; apply get_delete_other; exact Hk |].
  split; [discriminate | exact Hnd'].
- split; [exact Hget |].
  split; [reflexivity |]. split; [reflexivity | exact Hnd].
Qed.

Lemma on_error_removes st cid :
  registry_wf st -> removes_entry st (on_error st cid) cid.
Proof.
intros Hwf. pose proof (on_error_wf st cid Hwf) as (Hnd' & _ & _).
unfold removes_entry, on_error, JsMap.has in *.
rewrite (registry_key_wf st cid Hwf) in *.
destruct Hwf as (Hnd & _ & _).
destruct (JsMap.get (clients st) cid) as [d |] eqn:Hget; simpl.
- split; [apply get_delete_same; exact Hnd |].
  split; [intros k Hk; apply get_delete_other; exact Hk |].
  split; [discriminate | exact Hnd'].
- split; [exact Hget |].
  split; [reflexivity |]. split; [reflexivity | exact Hnd].
Qed.

(** C8: in every state the broker reaches, the registry holds at most
    one record per connection identifier, and every operation preserves
    this; REGISTER replaces any prior entry under the same identifier;
    the end and error handlers remove that identifier's entry if
    present, and are no-ops when it is absent. *)
Theorem registry_at_most_one_record st :
  reachable st ->
  NoDup (JsMap.keys (clients st)) /\
  (forall ev, NoDup (JsMap.keys (clients (fst (step st ev))))) /\
  (forall cid nm pk,
      let st' := fst (fst (handle_message st cid (REGISTER nm pk))) in
      JsMap.get (clients st') cid =
        Some {| socket := cid; name := or_else nm EmptyString;
                public_key := pk |} /\
      (forall k, k <> cid ->
                 JsMap.get (clients st') k = JsMap.get (clients st) k) /\
      NoDup (JsMap.keys (clients st'))) /\
  (forall cid, removes_entry st (on_end st cid) cid) /\
  (forall cid, removes_entry st (on_error st cid) cid).
Proof.
intros Hreach. pose proof (reachable_wf st Hreach) as Hwf.
split; [exact (proj1 Hwf) |].
split; [intros ev; exact (proj1 (step_wf st ev Hwf)) |].
split; [intros cid nm pk; exact (register_replaces st cid nm pk Hwf) |].
split; intros cid; [apply on_end_removes | apply on_error_removes]; exact Hwf.
Qed.

(** ** MESSAGE from an unregistered connection *)

(** C9: a MESSAGE record from a connection with no registry entry is
    dropped: no reply to that connection, nothing forwarded, registry
    unchanged; the handler returns, leaving the lines after it
    buffered. *)
Theorem unregistered_message_dropped st cid (receiver : field)
        (encryptedMessage : Payload)
        (rest : list (option (message PK Payload))) :
  JsMap.get (clients st) cid = None ->
  handle_message st cid (MESSAGE receiver encryptedMessage) = (st, [], false) /\
  (clientBuffer (sockets st cid) = [] ->
   snd (step st (Data cid (Some (MESSAGE receiver encryptedMessage) :: rest)))
     = [] /\
   clients (fst (step st (Data cid
                            (Some (MESSAGE receiver encryptedMessage) :: rest))))
     = clients st).
Proof.
intros Hget.
assert (Hdrop : handle_message st cid (MESSAGE receiver encryptedMessage)
                = (st, [], false)).
{ simpl. rewrite Hget. reflexivity. }
split; [exact Hdrop |].
intros Hbuf. unfold step, on_data. rewrite Hbuf.
simpl. rewrite Hget. simpl. split; reflexivity.
Qed.

(** ** MESSAGE from a registered connection *)

(** The receiver [r] named by the record is registered and its
    connection is writable. *)
Definition deliverable st (receiver : field) (r : string) : Prop :=
  receiver = Some r /\
  (exists d, JsMap.get (clients st) r = Some d) /\
  writable (sockets st r) = true.

Lemma wf_get_socket st id d :
  registry_wf st -> JsMap.get (clients st) id = Some d -> socket d = id.
Proof.
intros (_ & Hsock & _) Hget. apply Hsock. apply get_In. exact Hget.
Qed.


(** ** START_CHAT_REQUEST_PK *)

(** The entry [(id, d)] is a candidate of the name scan for [target]
    requested by [cid]. *)
Definition name_match (target cid : string)
           (entry : string * ClientData PK) : Prop :=
  name (snd entry) = target /\ fst entry <> cid.

Lemma name_match_test (target cid id : string) d :
  String.eqb (name d) target && negb (String.eqb id cid) = true
  <-> name_match target cid (id, d).
Proof.
unfold name_match. simpl.
destruct (String.eqb_spec (name d) target), (String.eqb_spec id cid);
  simpl; split; try tauto; try discriminate; intros [? ?]; contradiction.
Qed.

(** The first candidate in registry order. *)
Definition first_name_match (entries : JsMap.t (ClientData PK))
           (target cid : string) (entry : string * ClientData PK) : Prop :=
  exists i,
    nth_error entries i = Some entry /\
    name_match target cid entry /\
    forall j e, (j < i)%nat -> nth_error entries j = Some e ->
                ~ name_match target cid e.

Lemma find_by_name_some (entries : JsMap.t (ClientData PK))
      (target cid : string) entry :
  find_by_name entries target cid = Some entry ->
  first_name_match entries target cid entry.
Proof.
induction entries as [| [id d] rest IH]; simpl; [discriminate |].
destruct (String.eqb (name d) target && negb (String.eqb id cid)) eqn:Htest.
- intros H. injection H as <-. exists 0%nat.
  split; [reflexivity |]. split; [apply name_match_test; exact Htest |].
  intros j e Hj. lia.
- intros H. destruct (IH H) as (i & Hnth & Hmatch & Hfirst).
  exists (S i). split; [exact Hnth |]. split; [exact Hmatch |].
  intros [| j] e Hj Hnth'; simpl in Hnth'.
  + injection Hnth' as <-. intros Hm. apply name_match_test in Hm. congruence.
  + apply (Hfirst j e); [lia | exact Hnth'].
Qed.

Lemma find_by_name_none (entries : JsMap.t (ClientData PK))
      (target cid : string) :
  find_by_name entries target cid = None ->
  forall e, In e entries -> ~ name_match target cid e.
Proof.
induction entries as [| [id d] rest IH]; simpl; [intros _ e [] |].
destruct (String.eqb (name d) target && negb (String.eqb id cid)) eqn:Htest;
  [discriminate |].
intros H e [<- | Hin].
- intros Hm. apply name_match_test in Hm. congruence.
- exact (IH H e Hin).
Qed.

(** How a request for [target] from [cid] resolves: by exact identifier
    first; failing that, and only for a non-empty [target], by the first
    entry in registry order, other than the requester's, whose name is
    [target]. *)
Inductive resolution st (cid : string)
  : field -> option (field * ClientData PK) -> Prop :=
| resolved_by_identifier (target : field) d :
    get_field (clients st) target = Some d ->
    resolution st cid target (Some (target, d))
| resolved_by_name (target id : string) d :
    JsMap.get (clients st) target = None ->
    target <> EmptyString ->
    first_name_match (clients st) target cid (id, d) ->
    resolution st cid (Some target) (Some (Some id, d))
| unresolved_no_match (target : string) :
    JsMap.get (clients st) target = None ->
    target <> EmptyString ->
    (forall e, In e (clients st) -> ~ name_match target cid e) ->
    resolution st cid (Some target) None
| unresolved_empty (target : field) :
    get_field (clients st) target = None ->
    truthy target = false ->
    resolution st cid target None.

(** The record sent back for a resolution. *)
Definition resolution_reply (target : field)
           (r : option (field * ClientData PK)) : reply PK Payload :=
  match r with
  | Some (id, d) => START_CHAT_INFO id (name d) (public_key d)
  | None => TARGET_NOT_FOUND target "Receiver not found or offline."
  end.

Lemma truthy_Some (target : string) :
  truthy (Some target) = true <-> target <> EmptyString.
Proof.
destruct target; simpl; split; congruence.
Qed.

(** A request resolves in one way only. *)
Lemma resolution_functional st cid target r1 r2 :
  resolution st cid target r1 -> resolution st cid target r2 -> r1 = r2.
Proof.
intros H1 H2.
destruct H1 as [t1 d1 Hg1 | t1 id1 d1 Hg1 Hne1 Hf1 | t1 Hg1 Hne1 Hno1
                | t1 Hg1 Ht1];
  inversion H2 as [t2 d2 Hg2 | t2 id2 d2 Hg2 Hne2 Hf2 | t2 Hg2 Hne2 Hno2
                   | t2 Hg2 Ht2]; subst;
  unfold get_field in *; try congruence.
- destruct Hf1 as (i1 & Hn1 & Hm1 & Hmin1).
  destruct Hf2 as (i2 & Hn2 & Hm2 & Hmin2).
  destruct (Nat.lt_trichotomy i1 i2) as [Hlt | [Heq | Hgt]].
  + exfalso. exact (Hmin2 i1 _ Hlt Hn1 Hm1).
  + subst i2. rewrite Hn1 in Hn2. injection Hn2 as <- <-. reflexivity.
  + exfalso. exact (Hmin1 i2 _ Hgt Hn2 Hm2).
- destruct Hf1 as (i1 & Hn1 & Hm1 & _).
  exfalso. apply (Hno2 _ (nth_error_In _ _ Hn1)). exact Hm1.
- apply truthy_Some in Hne1. congruence.
- destruct Hf2 as (i2 & Hn2 & Hm2 & _).
  exfalso. apply (Hno1 _ (nth_error_In _ _ Hn2)). exact Hm2.
- apply truthy_Some in Hne2. congruence.
Qed.

(** C4 (as the code has it): a START_CHAT request resolves its target by
    exact identifier lookup first; only if that fails, and the requested
    string is non-empty, does the broker scan the registry in order for
    the first entry, other than the requester's, whose display name
    equals the requested string; on success it sends the requester the
    resolved identifier, name and public key, on failure a not-found
    notice echoing the requested identifier.  The registry is
    unchanged. *)
Theorem start_chat_resolution st cid (targetIdentifier : field) :
  exists r,
    resolution st cid targetIdentifier r /\
    handle_message st cid (START_CHAT_REQUEST_PK targetIdentifier)
      = (st, sendJson st cid (resolution_reply targetIdentifier r), true).
Proof.
simpl.
destruct (get_field (clients st) targetIdentifier) as [d |] eqn:Hget.
- exists (Some (targetIdentifier, d)).
  split; [apply resolved_by_identifier; exact Hget | reflexivity].
- destruct targetIdentifier as [target |].
  + destruct (truthy (Some target)) eqn:Htruthy.
    * pose proof (proj1 (truthy_Some target) Htruthy) as Hne.
      destruct (find_by_name (clients st) target cid) as [[id e] |] eqn:Hfind.
      -- exists (Some (Some id, e)). split; [| reflexivity].
         apply resolved_by_name; [exact Hget | exact Hne |].
         apply find_by_name_some. exact Hfind.
      -- exists None. split; [| reflexivity].
         apply unresolved_no_match; [exact Hget | exact Hne |].
         apply find_by_name_none. exact Hfind.
    * exists None. split; [| reflexivity].
      apply unresolved_empty; [exact Hget | exact Htruthy].
  + exists None. split; [| reflexivity].
    apply unresolved_empty; [exact Hget | reflexivity].
Qed.

End BrokerFacts.

(** ** The broker of the chat application

    Public keys are those of utils/rsa.js; a payload is the array of
    decimal numerals [RSA.encrypt_message] returns. *)

Definition Broker : Type := State RsaJs.PublicKey (list string).

Definition alice : string := "10.0.0.1:4000".
Definition bob : string := "10.0.0.2:5000".

Definition alice_key : RsaJs.PublicKey :=
  {| RsaJs.pub_e := "7"; RsaJs.pub_n := "143" |}.
Definition bob_key : RsaJs.PublicKey :=
  {| RsaJs.pub_e := "3"; RsaJs.pub_n := "187" |}.

(** Alice has registered under the name [alice]. *)
Definition alice_registered : Broker :=
  fst (step initial_state
            (Data alice [Some (REGISTER (Some "alice") alice_key)])).


(** Bob has registered without a name. *)
Definition bob_unnamed : Broker :=
  fst (step initial_state (Data bob [Some (REGISTER None bob_key)])).

(** Alice and Bob have both registered. *)
Definition both_registered : Broker :=
  fst (step alice_registered (Data bob [Some (REGISTER (Some "bob") bob_key)])).

Lemma alice_registered_reachable : reachable alice_registered.
Proof.
exact (reachable_step _ _ reachable_initial).
Qed.


Lemma bob_unnamed_reachable : reachable bob_unnamed.
Proof.
exact (reachable_step _ _ reachable_initial).
Qed.

Lemma both_registered_reachable : reachable both_registered.
Proof.
exact (reachable_step _ _ alice_registered_reachable).
Qed.

Lemma registry_at_most_one_record_witness :
  reachable alice_registered /\
  NoDup (JsMap.keys (clients alice_registered)) /\
  (forall ev, NoDup (JsMap.keys (clients (fst (step alice_registered ev))))) /\
  (forall cid nm pk,
      let st' :=
        fst (fst (handle_message alice_registered cid (REGISTER nm pk))) in
      JsMap.get (clients st') cid =
        Some {| socket := cid; name := or_else nm EmptyString;
                public_key := pk |} /\
      (forall k, k <> cid ->
                 JsMap.get (clients st') k
                 = JsMap.get (clients alice_registered) k) /\
      NoDup (JsMap.keys (clients st'))) /\
  (forall cid,
      removes_entry alice_registered (on_end alice_registered cid) cid) /\
  (forall cid,
      removes_entry alice_registered (on_error alice_registered cid) cid).
Proof.
split; [exact alice_registered_reachable |].
exact (registry_at_most_one_record alice_registered
                                   alice_registered_reachable).
Defined.

Lemma unregistered_message_dropped_witness :
  JsMap.get (clients alice_registered) bob = None /\
  handle_message alice_registered bob (MESSAGE (Some alice) ["42"])
    = (alice_registered, [], false) /\
  (clientBuffer (sockets alice_registered bob) = [] ->
   snd (step alice_registered
             (Data bob [Some (MESSAGE (Some alice) ["42"]); Some LIST_REQUEST]))
     = [] /\
   clients (fst (step alice_registered
                      (Data bob [Some (MESSAGE (Some alice) ["42"]);
                                 Some LIST_REQUEST])))
     = clients alice_registered).
Proof.
split; [reflexivity |].
exact (unregistered_message_dropped alice_registered bob (Some alice) ["42"]
                                    [Some LIST_REQUEST] eq_refl).
Defined.



(** C5 as stated fails in a second way.  The payload is the object
    [{"toString": 1}], of which [String(encryptedMessage)] throws: Bob
    is registered and his connection is writable, yet nothing is
    forwarded to him, and Alice gets the ERROR record of the [catch]
    block. *)
Definition odd_payload : option Js.json :=
  Some (Js.JObject [("toString", Js.JNumber 4607182418800017408)]).

Definition both_registered_any
  : State RsaJs.PublicKey (option Js.json) :=
  fst (step (fst (step initial_state
                       (Data alice [Some (REGISTER (Some "alice") alice_key)])))
            (Data bob [Some (REGISTER (Some "bob") bob_key)])).

Lemma unprintable_payload_not_forwarded :
  reachable both_registered_any /\
  deliverable both_registered_any (Some bob) bob /\
  preview_throws odd_payload = true /\
  handle_message both_registered_any alice (MESSAGE (Some bob) odd_payload)
    = (both_registered_any,
       [(alice, ERROR "Invalid message format from client.")], true).
Proof.
split; [exact (reachable_step _ _ (reachable_step _ _ reachable_initial)) |].
split.
{ split; [reflexivity |]. split; [| reflexivity].
  exists {| socket := bob; name := "bob"; public_key := bob_key |}.
  reflexivity. }
split; reflexivity.
Qed.

(** C4 as stated fails: the exact lookup of the empty string fails, the
    registry holds an entry other than the requester's whose display
    name equals the requested string, and the broker still answers
    not-found, because it scans for non-empty requests only. *)
Lemma start_chat_empty_target_not_scanned :
  reachable bob_unnamed /\
  get_field (clients bob_unnamed) (Some EmptyString) = None /\
  (exists d, In (bob, d) (clients bob_unnamed) /\
             name d = EmptyString /\ bob <> alice) /\
  snd (fst (handle_message bob_unnamed alice
                           (START_CHAT_REQUEST_PK (Some EmptyString))))
    = [(alice, TARGET_NOT_FOUND (Some EmptyString)
                                "Receiver not found or offline.")] /\
  forall id nm pk,
    snd (fst (handle_message bob_unnamed alice
                             (START_CHAT_REQUEST_PK (Some EmptyString))))
      <> [(alice, START_CHAT_INFO id nm pk)].
Proof.
split; [exact bob_unnamed_reachable |].
split; [reflexivity |].
split.
{ exists {| socket := bob; name := EmptyString; public_key := bob_key |}.
  split; [left; reflexivity | split; [reflexivity | discriminate]]. }
split; [reflexivity | discriminate].
Qed.

End ServerFacts.

(* ================================================================= *)
(** * Further facts about utils/math.js *)

Module MathMore.
Import Js MathJs MathFacts.

(** ** [gcd] *)

Lemma gcd_rem (a b : Z) : b <> 0 -> Z.gcd b (Z.rem a b) = Z.gcd a b.
Proof.
intros Hb.
pose proof (Z.quot_rem' a b) as Hqr.
replace (Z.rem a b) with (a + (- Z.quot a b) * b) by lia.
rewrite Z.gcd_add_mult_diag_r. apply Z.gcd_comm.
Qed.

(** X1: [gcd] is Euclid's algorithm on all integers: up to sign its
    result is the greatest common divisor, [gcd a 0] is [a], and on
    non-negative arguments the result is the greatest common divisor
    itself. *)
Theorem gcd_is_Zgcd (a b : Z) :
  Z.abs (gcd a b) = Z.gcd a b /\
  gcd a 0 = a /\
  (0 <= a -> 0 <= b -> gcd a b = Z.gcd a b).
Proof.
split; [| split].
- pattern a, b. apply gcd_induction. clear a b.
  intros a b IH. rewrite gcd_eq.
  destruct (Z.eqb_spec b 0) as [-> | Hnz].
  + rewrite Z.gcd_0_r. reflexivity.
  + rewrite (IH Hnz). apply gcd_rem. exact Hnz.
- rewrite gcd_eq. reflexivity.
- apply RsaFacts.gcd_Zgcd.
Qed.

(** ** [generatePrime] *)

Section SamplingFacts.

Variable entropy : nat -> Z.

(** The value [crypto.randomInt(1, range + 1)] returns at position
    [pos] of the stream. *)
Definition draw (range : Z) (pos : nat) : Z := 1 + entropy pos mod range.

Definition valid_range (range : Z) : Prop := 1 <= range <= 2 ^ 48 - 1.

Lemma randomInt_valid (range : Z) (pos : nat) :
  valid_range range ->
  randomInt entropy 1 (range + 1) pos = Ret (draw range pos) (S pos).
Proof.
unfold valid_range, randomInt, draw, isSafeInteger. intros Hr.
change (- (2 ^ 53 - 1) <=? 1) with true. change (1 <=? 2 ^ 53 - 1) with true.
cbn [andb negb].
destruct (Z.leb_spec (- (2 ^ 53 - 1)) (range + 1)) as [_ | H0]; [| lia].
destruct (Z.leb_spec (range + 1) (2 ^ 53 - 1)) as [_ | H0]; [| lia].
cbn [andb negb].
destruct (Z.leb_spec (range + 1) 1) as [H1 | H1]; [lia |].
destruct (Z.ltb_spec (2 ^ 48 - 1) (range + 1 - 1)) as [H2 | H2]; [lia |].
replace (range + 1 - 1) with range by lia. reflexivity.
Qed.

(** The argument [range + 1] is not a safe integer. *)
Definition unsafe_range (range : Z) : Prop :=
  range < - 2 ^ 53 \/ 2 ^ 53 - 1 <= range.

(** The argument [range + 1] is a safe integer, but the interval
    [[1, range + 1)] is empty or wider than [2^48 - 1]. *)
Definition out_of_range (range : Z) : Prop :=
  - 2 ^ 53 <= range < 1 \/ 2 ^ 48 - 1 < range < 2 ^ 53 - 1.

Lemma randomInt_unsafe (range : Z) (pos : nat) :
  unsafe_range range ->
  randomInt entropy 1 (range + 1) pos = Raise TypeError.
Proof.
unfold unsafe_range, randomInt, isSafeInteger. intros Hr.
change (- (2 ^ 53 - 1) <=? 1) with true. change (1 <=? 2 ^ 53 - 1) with true.
cbn [andb negb].
destruct (Z.leb_spec (- (2 ^ 53 - 1)) (range + 1)) as [H0 | H0];
  [| reflexivity].
destruct (Z.leb_spec (range + 1) (2 ^ 53 - 1)) as [H1 | H1];
  [lia | reflexivity].
Qed.

Lemma randomInt_out_of_range (range : Z) (pos : nat) :
  out_of_range range ->
  randomInt entropy 1 (range + 1) pos = Raise RangeError.
Proof.
unfold out_of_range, randomInt, isSafeInteger. intros Hr.
change (- (2 ^ 53 - 1) <=? 1) with true. change (1 <=? 2 ^ 53 - 1) with true.
cbn [andb negb].
destruct (Z.leb_spec (- (2 ^ 53 - 1)) (range + 1)) as [_ | H0]; [| lia].
destruct (Z.leb_spec (range + 1) (2 ^ 53 - 1)) as [_ | H0]; [| lia].
cbn [andb negb].
destruct (Z.leb_spec (range + 1) 1) as [H1 | H1]; [reflexivity |].
destruct (Z.ltb_spec (2 ^ 48 - 1) (range + 1 - 1)) as [H2 | H2];
  [reflexivity | lia].
Qed.

Lemma range_cases (range : Z) :
  valid_range range \/ unsafe_range range \/ out_of_range range.
Proof.
unfold valid_range, unsafe_range, out_of_range. lia.
Qed.

Lemma draw_bounds (range : Z) (pos : nat) :
  valid_range range -> 1 <= draw range pos <= range.
Proof.
unfold valid_range, draw. intros Hr.
pose proof (Z.mod_pos_bound (entropy pos) range ltac:(lia)). lia.
Qed.

(** The loop returns the first prime among its draws. *)
Lemma generatePrime_loop_returns (tries : nat) (range p : Z)
      (maxTries pos pos' : nat) :
  generatePrime_loop entropy tries range maxTries pos = Ret p pos' ->
  valid_range range /\
  exists k, (k < tries)%nat /\ pos' = (pos + k + 1)%nat /\
            p = draw range (pos + k) /\ isPrime p = true /\
            forall j, (j < k)%nat -> isPrime (draw range (pos + j)) = false.
Proof.
revert pos. induction tries as [| tries IH]; intros pos Hres; simpl in Hres.
- discriminate.
- unfold gbind in Hres.
  assert (Hvalid : valid_range range).
  { destruct (range_cases range) as [Hv | [Hu | Ho]]; [exact Hv | |].
    - rewrite (randomInt_unsafe range pos Hu) in Hres. discriminate.
    - rewrite (randomInt_out_of_range range pos Ho) in Hres. discriminate. }
  split; [exact Hvalid |].
  rewrite (randomInt_valid range pos Hvalid) in Hres.
  destruct (isPrime (draw range pos)) eqn:Hprime.
  + unfold ret in Hres. injection Hres as <- <-.
    exists 0%nat. rewrite Nat.add_0_r.
    split; [lia |]. split; [lia |]. split; [reflexivity |].
    split; [exact Hprime |]. intros j Hj. lia.
  + destruct (IH (S pos) Hres) as (_ & k & Hk & Hpos' & Hp & Hpr & Hfirst).
    exists (S k). split; [lia |]. split; [lia |].
    split; [rewrite Hp; f_equal; lia |]. split; [exact Hpr |].
    intros [| j] Hj.
    * rewrite Nat.add_0_r. exact Hprime.
    * replace (pos + S j)%nat with (S pos + j)%nat by lia.
      apply Hfirst. lia.
Qed.

(** X2: a value returned by [generatePrime] is a prime in [[2, range]],
    namely the first prime among the draws, reached after at least one
    and at most [maxTries] draws; the range is then within the bounds of
    [crypto.randomInt]. *)
Theorem generatePrime_returns_first_prime
        (range p : Z) (maxTries pos pos' : nat) :
  generatePrime entropy range maxTries pos = Ret p pos' ->
  Z.prime p /\ 2 <= p <= range /\
  (pos < pos' <= pos + maxTries)%nat /\
  p = draw range (pos' - 1) /\
  forall j, (pos <= j < pos' - 1)%nat -> isPrime (draw range j) = false.
Proof.
intros Hres. unfold generatePrime in Hres.
destruct (generatePrime_loop_returns _ _ _ _ _ _ Hres)
  as (Hvalid & k & Hk & -> & -> & Hprime & Hfirst).
pose proof (proj1 (isPrime_iff_prime _) Hprime) as Hp.
pose proof (draw_bounds range (pos + k) Hvalid) as Hb.
pose proof (Z.prime_ge_2 _ Hp) as Hge.
split; [exact Hp |]. split; [lia |]. split; [lia |].
split; [f_equal; lia |].
intros j Hj. replace j with (pos + (j - pos))%nat by lia.
apply Hfirst. lia.
Qed.



End SamplingFacts.

Lemma generatePrime_returns_first_prime_witness :
  generatePrime RsaFacts.sample_entropy 5000 1000%nat 0%nat = Ret 11 1%nat /\
  Z.prime 11 /\ 2 <= 11 <= 5000 /\
  (0 < 1 <= 0 + 1000)%nat /\
  11 = draw RsaFacts.sample_entropy 5000 (1 - 1) /\
  forall j, (0 <= j < 1 - 1)%nat ->
            isPrime (draw RsaFacts.sample_entropy 5000 j) = false.
Proof.
assert (Hrun : generatePrime RsaFacts.sample_entropy 5000 1000%nat 0%nat = Ret 11 1%nat)
  by (vm_compute; reflexivity).
split; [exact Hrun |].
exact (generatePrime_returns_first_prime RsaFacts.sample_entropy 5000 11
                                         1000%nat 0%nat 1%nat Hrun).
Defined.

End MathMore.

(* ================================================================= *)
(** * Further facts about utils/rsa.js *)

Module RsaMore.
Import Js MathJs MathFacts RsaJs RsaFacts.

(** ** [select_e] *)

Lemma gcd_pred_self (n : Z) : Z.gcd (n - 1) n = 1.
Proof.
pose proof (Z.gcd_divide_l (n - 1) n) as Hl.
pose proof (Z.gcd_divide_r (n - 1) n) as Hr.
pose proof (Z.gcd_nonneg (n - 1) n) as Hnn.
pose proof (Z.divide_sub_r _ _ _ Hr Hl) as Hone.
replace (n - (n - 1)) with 1 in Hone by lia.
apply Z.divide_1_r_nonneg in Hone; assumption.
Qed.

Lemma select_e_none_iff (phi_n : Z) :
  select_e phi_n = None <-> phi_n <= 2.
Proof.
unfold select_e. split.
- intros Hnone.
  destruct (Z_le_gt_dec phi_n 2) as [Hle | Hgt]; [exact Hle | exfalso].
  apply (select_e_loop_none phi_n 2 Hnone (phi_n - 1)); [lia |].
  rewrite gcd_Zgcd by lia. apply gcd_pred_self.
- intros Hle. rewrite select_e_loop_eq.
  destruct (Z.ltb_spec 2 phi_n); [lia | reflexivity].
Qed.

Lemma select_e_some_spec (phi_n e : Z) :
  select_e phi_n = Some e ->
  2 <= e < phi_n /\ Z.gcd e phi_n = 1 /\
  forall e', 2 <= e' < e -> Z.gcd e' phi_n <> 1.
Proof.
unfold select_e. intros Hsome.
destruct (select_e_loop_some phi_n 2 e Hsome) as (Hr & Hg & Hmin).
split; [exact Hr |]. split.
- rewrite <- gcd_Zgcd by lia. exact Hg.
- intros e' He'. rewrite <- gcd_Zgcd by lia. apply Hmin. exact He'.
Qed.

(** X4: [select_e] returns [null] exactly when [phi_n <= 2]; otherwise
    it returns the least integer [e >= 2] coprime with [phi_n], and
    [e < phi_n]. *)
Theorem select_e_least_coprime (phi_n : Z) :
  (select_e phi_n = None <-> phi_n <= 2) /\
  (forall e, select_e phi_n = Some e ->
     2 <= e < phi_n /\ Z.gcd e phi_n = 1 /\
     forall e', 2 <= e' < e -> Z.gcd e' phi_n <> 1).
Proof.
split.
- apply select_e_none_iff.
- intros e. apply select_e_some_spec.
Qed.

(** ** [mod_inverse] *)

Section ModInverseMore.

Variables e phi_n : Z.

Hypothesis He : 1 <= e.
Hypothesis Hphi : 1 <= phi_n.

(** The loop also keeps the greatest common divisor of [a] and [m]. *)
Definition mod_inverse_inv_gcd (a m x0 x1 : Z) : Prop :=
  mod_inverse_inv e phi_n a m x0 x1 /\ Z.gcd a m = Z.gcd e phi_n.

Lemma mod_inverse_inv_gcd_initial : mod_inverse_inv_gcd e phi_n 0 1.
Proof.
split; [| reflexivity]. unfold mod_inverse_inv.
split; [lia | split; [lia | split; [| split; [| split; [| lia]]]]].
- exists 0. ring.
- exists (-1). ring.
- rewrite Z.abs_0. lia.
Qed.

Lemma mod_inverse_loop_outcome (a m x0 x1 : Z) :
  mod_inverse_inv_gcd a m x0 x1 ->
  match mod_inverse_loop a m x0 x1 with
  | None => Z.gcd e phi_n <> 1
  | Some r => Z.gcd e phi_n = 1 /\ (phi_n | r * e - 1) /\ Z.abs r <= phi_n
  end.
Proof.
pattern a, m, x0, x1. apply mod_inverse_loop_induction.
clear a m x0 x1. intros a m x0 x1 IH [Hinv Hgcd].
rewrite mod_inverse_loop_eq.
destruct (Z.ltb_spec 1 a) as [Ha | Ha].
- destruct (Z.eqb_spec m 0) as [Hm | Hm].
  + subst m. rewrite Z.gcd_0_r in Hgcd. rewrite <- Hgcd. lia.
  + apply (IH Ha Hm). split.
    * apply mod_inverse_inv_step; assumption.
    * rewrite <- Hgcd. apply MathMore.gcd_rem. exact Hm.
- pose proof Hinv as (Ha1 & _ & H1 & _ & _ & Hx1).
  assert (a = 1) by lia. subst a.
  rewrite Z.gcd_1_l in Hgcd. split; [symmetry; exact Hgcd |].
  split; assumption.
Qed.

Lemma mod_inverse_outcome :
  (mod_inverse e phi_n = None <-> Z.gcd e phi_n <> 1) /\
  (forall d, mod_inverse e phi_n = Some d ->
     (e * d) mod phi_n = 1 mod phi_n /\
     0 <= d /\ (2 <= phi_n -> 0 < d < phi_n) /\ (phi_n = 1 -> d = 0)).
Proof.
unfold mod_inverse.
destruct (Z.eqb_spec phi_n 1) as [H1 | H1].
- split.
  + split; [discriminate |]. intros Hg. exfalso. apply Hg.
    rewrite H1. apply Z.gcd_1_r.
  + intros d Hd. injection Hd as <-. rewrite H1.
    split; [rewrite !Z.mod_1_r; reflexivity |].
    split; [lia | split; [lia | reflexivity]].
- pose proof (mod_inverse_loop_outcome e phi_n 0 1
                                       mod_inverse_inv_gcd_initial) as Hout.
  destruct (mod_inverse_loop e phi_n 0 1) as [x1 |].
  + destruct Hout as (Hg & Hdiv & Habs). split.
    * split; [discriminate | intros Hng; contradiction].
    * intros d Hd. injection Hd as <-.
      assert (Hcong : forall d', (phi_n | d' * e - 1) ->
                                 (e * d') mod phi_n = 1 mod phi_n).
      { intros d' Hd'. apply Z.mod_divide in Hd'; [| lia].
        apply Z.cong_iff_0 in Hd'. rewrite Z.mul_comm. exact Hd'. }
      assert (Hnz : forall d', (phi_n | d' * e - 1) -> ~ (phi_n | d')).
      { intros d' Hd' Hdd.
        assert (Hone : (phi_n | 1)).
        { replace 1 with (d' * e - (d' * e - 1)) by lia.
          apply Z.divide_sub_r; [apply Z.divide_mul_l; exact Hdd | exact Hd']. }
        apply Z.divide_1_r_nonneg in Hone; lia. }
      destruct (Z.ltb_spec x1 0) as [Hneg | Hpos].
      -- assert (Hdiv' : (phi_n | (x1 + phi_n) * e - 1)).
         { replace ((x1 + phi_n) * e - 1)
             with ((x1 * e - 1) + e * phi_n) by ring.
           apply Z.divide_add_r; [exact Hdiv | apply Z.divide_factor_r]. }
         split; [apply Hcong; exact Hdiv' |].
         split; [lia |]. split; [| lia].
         intros _. assert (x1 + phi_n <> 0); [| lia].
         intros H0. apply (Hnz _ Hdiv'). rewrite H0. apply Z.divide_0_r.
      -- split; [apply Hcong; exact Hdiv |].
         split; [lia |]. split; [| lia].
         intros _.
         assert (x1 <> 0).
         { intros H0. apply (Hnz _ Hdiv). rewrite H0. apply Z.divide_0_r. }
         assert (x1 <> phi_n).
         { intros H0. apply (Hnz _ Hdiv). rewrite H0. apply Z.divide_refl. }
         lia.
  + split.
    * split; [intros _; exact Hout | reflexivity].
    * intros d Hd. discriminate.
Qed.

(** X5: for [e >= 1] and [phi_n >= 1], [mod_inverse] returns [null]
    exactly when [e] and [phi_n] are not coprime; otherwise it returns
    the inverse of [e] modulo [phi_n], normalised to [[0, phi_n)] (0 for
    [phi_n = 1]). *)
Theorem mod_inverse_complete :
  (mod_inverse e phi_n = None <-> Z.gcd e phi_n <> 1) /\
  (forall d, mod_inverse e phi_n = Some d ->
     (e * d) mod phi_n = 1 mod phi_n /\
     0 <= d /\ (2 <= phi_n -> 0 < d < phi_n) /\ (phi_n = 1 -> d = 0)).
Proof.
split.
- exact (proj1 mod_inverse_outcome).
- intros d Hd. exact (proj2 mod_inverse_outcome d Hd).
Qed.

End ModInverseMore.

Lemma mod_inverse_complete_witness :
  1 <= 7 /\ 1 <= 120 /\
  (mod_inverse 7 120 = None <-> Z.gcd 7 120 <> 1) /\
  (forall d, mod_inverse 7 120 = Some d ->
     (7 * d) mod 120 = 1 mod 120 /\
     0 <= d /\ (2 <= 120 -> 0 < d < 120) /\ (120 = 1 -> d = 0)).
Proof.
split; [lia |]. split; [lia |].
apply (mod_inverse_complete 7 120); lia.
Defined.

(** ** Generated key pairs *)

Lemma odd_prime_pred_even (q : Z) : Z.prime q -> q <> 2 -> (2 | q - 1).
Proof.
intros Hq Hne. pose proof (Z.prime_ge_2 q Hq) as Hge.
destruct (Z.even (q - 1)) eqn:Heven.
- apply Z.even_spec in Heven. destruct Heven as [k Hk]. exists k. lia.
- exfalso.
  assert (Hodd : Z.odd (q - 1) = true)
    by (rewrite <- Z.negb_even, Heven; reflexivity).
  apply Z.odd_spec in Hodd. destruct Hodd as [k Hk].
  apply (prime_no_proper_divisor q 2 Hq); [lia |].
  exists (k + 1). lia.
Qed.

Lemma distinct_primes_phi_even (p q : Z) :
  Z.prime p -> Z.prime q -> p <> q -> (2 | (p - 1) * (q - 1)).
Proof.
intros Hp Hq Hne.
destruct (Z.eq_dec q 2) as [-> | Hq2].
- apply Z.divide_mul_l. apply odd_prime_pred_even; assumption.
- apply Z.divide_mul_r. apply odd_prime_pred_even; assumption.
Qed.

(** X6: every key pair returned by [generate_rsa_keys] is made of
    [n = p * q] for two distinct primes, the least [e >= 3] coprime with
    [phi = (p - 1) * (q - 1)] (never 2, as [phi] is even), and the
    inverse [d] of [e] modulo [phi] with [0 < d < phi]; both halves carry
    the same modulus. *)
Theorem generated_key_structure
        (entropy : nat -> Z) (fuel : nat) (primeRange : Z) (pos pos' : nat)
        (kp : KeyPair) :
  generate_rsa_keys entropy fuel primeRange pos = Ret kp pos' ->
  exists p q e d,
    Z.prime p /\ Z.prime q /\ p <> q /\
    pub_n (public_key kp) = BigInt_toString (p * q) /\
    priv_n (private_key kp) = BigInt_toString (p * q) /\
    pub_e (public_key kp) = BigInt_toString e /\
    priv_d (private_key kp) = BigInt_toString d /\
    3 <= e < (p - 1) * (q - 1) /\
    Z.gcd e ((p - 1) * (q - 1)) = 1 /\
    (forall e', 2 <= e' < e -> Z.gcd e' ((p - 1) * (q - 1)) <> 1) /\
    0 < d < (p - 1) * (q - 1) /\
    (e * d) mod ((p - 1) * (q - 1)) = 1.
Proof.
intros Hgen.
destruct (generate_rsa_keys_spec _ _ _ _ _ _ Hgen)
  as (p & q & e & d & Hp & Hq & Hne & He & Hd & ->).
exists p, q, e, d. simpl.
destruct (select_e_some_spec _ e He) as (Hr & Hg & Hmin).
assert (He3 : e <> 2).
{ intros ->. pose proof (distinct_primes_phi_even p q Hp Hq Hne) as Heven.
  pose proof (Z.gcd_divide_l 2 ((p - 1) * (q - 1))) as Hl.
  assert (Hdiv2 : (2 | Z.gcd 2 ((p - 1) * (q - 1))))
    by (apply Z.gcd_greatest; [apply Z.divide_refl | exact Heven]).
  rewrite Hg in Hdiv2. destruct Hdiv2 as [k Hk]. lia. }
destruct (mod_inverse_outcome e ((p - 1) * (q - 1)) ltac:(lia) ltac:(lia))
  as [_ Hinv].
destruct (Hinv d Hd) as (Hcong & _ & Hbound & _).
rewrite (Z.mod_1_l ((p - 1) * (q - 1))) in Hcong by lia.
split; [exact Hp |]. split; [exact Hq |]. split; [exact Hne |].
do 4 (split; [reflexivity |]).
split; [lia |]. split; [exact Hg |]. split; [exact Hmin |].
split; [apply Hbound; lia | exact Hcong].
Qed.

(** ** Symbols at or above the modulus *)

Lemma encrypt_decrypt_char_mod (p q e d v : Z) :
  Z.prime p -> Z.prime q -> p <> q ->
  select_e ((p - 1) * (q - 1)) = Some e ->
  mod_inverse e ((p - 1) * (q - 1)) = Some d ->
  0 <= v ->
  exists c,
    encrypt_char v (BigInt_toString e) (BigInt_toString (p * q)) = Ok c /\
    decrypt_char c (BigInt_toString d) (BigInt_toString (p * q)) =
      Ok (BigInt_toString (v mod (p * q))).
Proof.
intros Hp Hq Hne He Hd Hv.
pose proof (Z.prime_ge_2 p Hp) as Hp2.
pose proof (Z.prime_ge_2 q Hq) as Hq2.
apply select_e_loop_some in He. destruct He as [He _].
destruct (mod_inverse_spec e _ d He Hd) as [Hd0 Hed].
assert (Hn : 0 < p * q) by nia.
exists (BigInt_toString (v ^ e mod (p * q))).
unfold encrypt_char, decrypt_char.
rewrite !BigInt_toString_roundtrip. simpl.
unfold big_pow, big_rem.
destruct (Z.ltb_spec e 0) as [He0 | _]; [lia |].
destruct (Z.ltb_spec d 0) as [Hd0' | _]; [lia |].
destruct (Z.eqb_spec (p * q) 0) as [Hn0 | _]; [lia |].
simpl.
assert (Hpow : 0 <= v ^ e) by (apply Z.pow_nonneg; lia).
rewrite (Z.rem_mod_nonneg (v ^ e)) by lia.
split; [reflexivity |].
pose proof (Z.mod_pos_bound (v ^ e) (p * q) Hn) as Hc.
rewrite Z.rem_mod_nonneg; [| apply Z.pow_nonneg; lia | lia].
rewrite <- (Z.mod_pow_l v e (p * q)).
rewrite (rsa_identity p q e d (v mod (p * q))); try assumption; try lia.
- reflexivity.
- apply Z.mod_pos_bound. exact Hn.
Qed.

Lemma BigInt_toString_inj (a b : Z) :
  BigInt_toString a = BigInt_toString b -> a = b.
Proof.
intros H. pose proof (BigInt_toString_roundtrip a) as Ha.
rewrite H, BigInt_toString_roundtrip in Ha. injection Ha as <-. reflexivity.
Qed.

(** X7: under a returned key pair, encrypting then decrypting any
    symbol value [v >= 0] yields [v mod n]; a value at or above the
    modulus is therefore never recovered, and no error is raised. *)
Theorem roundtrip_reduces_modulo_n
        (entropy : nat -> Z) (fuel : nat) (primeRange : Z) (pos pos' : nat)
        (kp : KeyPair) (n v : Z) :
  generate_rsa_keys entropy fuel primeRange pos = Ret kp pos' ->
  BigInt (pub_n (public_key kp)) = Ok n ->
  0 <= v ->
  exists c,
    encrypt_char v (pub_e (public_key kp)) (pub_n (public_key kp)) = Ok c /\
    decrypt_char c (priv_d (private_key kp)) (priv_n (private_key kp)) =
      Ok (BigInt_toString (v mod n)) /\
    (n <= v ->
     decrypt_char c (priv_d (private_key kp)) (priv_n (private_key kp)) <>
       Ok (BigInt_toString v)).
Proof.
intros Hgen Hn Hv.
destruct (generate_rsa_keys_spec _ _ _ _ _ _ Hgen)
  as (p & q & e & d & Hp & Hq & Hne & He & Hd & ->).
simpl in *. rewrite BigInt_toString_roundtrip in Hn. injection Hn as <-.
destruct (encrypt_decrypt_char_mod p q e d v Hp Hq Hne He Hd Hv)
  as (c & Henc & Hdec).
exists c. split; [exact Henc |]. split; [exact Hdec |].
intros Hge Heq. rewrite Hdec in Heq. injection Heq as Heq.
apply BigInt_toString_inj in Heq.
pose proof (Z.prime_ge_2 p Hp). pose proof (Z.prime_ge_2 q Hq).
pose proof (Z.mod_pos_bound v (p * q) ltac:(nia)). lia.
Qed.

Lemma generated_key_structure_witness :
  generate_rsa_keys sample_entropy 2%nat 5000 0%nat = Ret sample_keys 2%nat /\
  exists p q e d,
    Z.prime p /\ Z.prime q /\ p <> q /\
    pub_n (public_key sample_keys) = BigInt_toString (p * q) /\
    priv_n (private_key sample_keys) = BigInt_toString (p * q) /\
    pub_e (public_key sample_keys) = BigInt_toString e /\
    priv_d (private_key sample_keys) = BigInt_toString d /\
    3 <= e < (p - 1) * (q - 1) /\
    Z.gcd e ((p - 1) * (q - 1)) = 1 /\
    (forall e', 2 <= e' < e -> Z.gcd e' ((p - 1) * (q - 1)) <> 1) /\
    0 < d < (p - 1) * (q - 1) /\
    (e * d) mod ((p - 1) * (q - 1)) = 1.
Proof.
split; [exact sample_keys_generated |].
exact (generated_key_structure sample_entropy 2%nat 5000 0%nat 2%nat
                               sample_keys sample_keys_generated).
Defined.

Lemma roundtrip_reduces_modulo_n_witness :
  generate_rsa_keys sample_entropy 2%nat 5000 0%nat = Ret sample_keys 2%nat /\
  BigInt (pub_n (public_key sample_keys)) = Ok 143 /\
  0 <= 200 /\
  exists c,
    encrypt_char 200 (pub_e (public_key sample_keys))
                 (pub_n (public_key sample_keys)) = Ok c /\
    decrypt_char c (priv_d (private_key sample_keys))
                 (priv_n (private_key sample_keys)) =
      Ok (BigInt_toString (200 mod 143)) /\
    (143 <= 200 ->
     decrypt_char c (priv_d (private_key sample_keys))
                  (priv_n (private_key sample_keys)) <>
       Ok (BigInt_toString 200)).
Proof.
split; [exact sample_keys_generated |].
split; [reflexivity |]. split; [lia |].
apply (roundtrip_reduces_modulo_n sample_entropy 2%nat 5000 0%nat 2%nat
                                  sample_keys 143 200 sample_keys_generated);
  [reflexivity | lia].
Defined.

(** ** The retries of [generate_rsa_keys] *)

Lemma distinct_primes_phi (p q : Z) :
  Z.prime p -> Z.prime q -> p <> q ->
  (p * q = 6 -> (p - 1) * (q - 1) = 2) /\
  (p * q <> 6 -> 2 < (p - 1) * (q - 1)).
Proof.
intros Hp Hq Hne.
pose proof (Z.prime_ge_2 p Hp) as Hp2.
pose proof (Z.prime_ge_2 q Hq) as Hq2.
assert (Hcp : p = 2 \/ p = 3 \/ 4 <= p) by lia.
assert (Hcq : q = 2 \/ q = 3 \/ 4 <= q) by lia.
destruct Hcp as [-> | [-> | Hp4]]; destruct Hcq as [-> | [-> | Hq4]];
  split; intros H; try lia; try nia.
Qed.

Lemma generatePrime_prime_in_range (entropy : nat -> Z) (range p : Z)
      (maxTries pos pos' : nat) :
  generatePrime entropy range maxTries pos = Ret p pos' ->
  MathMore.valid_range range /\ Z.prime p /\ 1 <= p <= range.
Proof.
intros Hres. unfold generatePrime in Hres.
destruct (MathMore.generatePrime_loop_returns entropy maxTries range p
                                              maxTries pos pos' Hres)
  as (Hvalid & k & _ & _ & Hdraw & Hprime & _).
split; [exact Hvalid |]. split; [apply isPrime_iff_prime; exact Hprime |].
rewrite Hdraw. apply MathMore.draw_bounds. exact Hvalid.
Qed.

(** X24: when the two draws of [generate_rsa_keys] are distinct primes,
    the call returns a key pair after exactly these two draws, unless
    the primes are 2 and 3: only then does [select_e] return [null] and
    the generation start again with [primeRange + 500].  The retry for
    [d === null] is never taken. *)
Theorem generate_rsa_keys_single_round
        (entropy : nat -> Z) (fuel : nat) (primeRange p q : Z)
        (pos pos1 pos2 : nat) :
  generatePrime entropy primeRange 1000 pos = Ret p pos1 ->
  generatePrime entropy primeRange 1000 pos1 = Ret q pos2 ->
  p <> q ->
  (p * q = 6 ->
   generate_rsa_keys entropy (S (S fuel)) primeRange pos
   = generate_rsa_keys entropy (S fuel) (primeRange + 500) pos2) /\
  (p * q <> 6 ->
   exists e d,
     select_e ((p - 1) * (q - 1)) = Some e /\
     mod_inverse e ((p - 1) * (q - 1)) = Some d /\
     generate_rsa_keys entropy (S (S fuel)) primeRange pos
     = Ret {| public_key :=
                {| pub_e := BigInt_toString e;
                   pub_n := BigInt_toString (p * q) |};
              private_key :=
                {| priv_d := BigInt_toString d;
                   priv_n := BigInt_toString (p * q) |} |} pos2).
Proof.
intros Hgp Hgq Hne.
destruct (generatePrime_prime_in_range _ _ _ _ _ _ Hgp) as (_ & Hp & _).
destruct (generatePrime_prime_in_range _ _ _ _ _ _ Hgq) as (_ & Hq & _).
destruct (distinct_primes_phi p q Hp Hq Hne) as [Hsix Hbig].
assert (Hrun : forall k : Z -> Z -> Gen KeyPair,
           (p0 <- generatePrime entropy primeRange 1000 ;;
            q0 <- generatePrime entropy primeRange 1000 ;;
            q1 <- redraw_q entropy (S fuel) primeRange p0 q0 ;;
            k p0 q1) pos
           = k p q pos2).
{ intros k. unfold gbind. rewrite Hgp, Hgq. cbn [redraw_q].
  rewrite (proj2 (Z.eqb_neq p q) Hne). reflexivity. }
split.
- intros H6. cbn [generate_rsa_keys]. rewrite Hrun.
  rewrite (proj2 (select_e_none_iff _)) by (rewrite (Hsix H6); lia).
  reflexivity.
- intros H6. specialize (Hbig H6).
  destruct (select_e ((p - 1) * (q - 1))) as [e |] eqn:He.
  2:{ apply select_e_none_iff in He. lia. }
  destruct (select_e_some_spec _ _ He) as (Hr & Hg & _).
  destruct (mod_inverse e ((p - 1) * (q - 1))) as [d |] eqn:Hd.
  2:{ assert (He1 : 1 <= e) by lia.
      assert (Hphi1 : 1 <= (p - 1) * (q - 1)) by lia.
      apply (mod_inverse_outcome e _ He1 Hphi1) in Hd. contradiction. }
  exists e, d. split; [reflexivity |]. split; [exact Hd |].
  cbn [generate_rsa_keys]. rewrite Hrun. rewrite He, Hd. reflexivity.
Qed.

Lemma generate_rsa_keys_single_round_witness :
  generatePrime sample_entropy 5000 1000 0%nat = Ret 11 1%nat /\
  generatePrime sample_entropy 5000 1000 1%nat = Ret 13 2%nat /\
  11 <> 13 /\
  (11 * 13 = 6 ->
   generate_rsa_keys sample_entropy 2%nat 5000 0%nat
   = generate_rsa_keys sample_entropy 1%nat (5000 + 500) 2%nat) /\
  (11 * 13 <> 6 ->
   exists e d,
     select_e ((11 - 1) * (13 - 1)) = Some e /\
     mod_inverse e ((11 - 1) * (13 - 1)) = Some d /\
     generate_rsa_keys sample_entropy 2%nat 5000 0%nat
     = Ret {| public_key :=
                {| pub_e := BigInt_toString e;
                   pub_n := BigInt_toString (11 * 13) |};
              private_key :=
                {| priv_d := BigInt_toString d;
                   priv_n := BigInt_toString (11 * 13) |} |} 2%nat).
Proof.
assert (Hp : generatePrime sample_entropy 5000 1000 0%nat = Ret 11 1%nat)
  by (vm_compute; reflexivity).
assert (Hq : generatePrime sample_entropy 5000 1000 1%nat = Ret 13 2%nat)
  by (vm_compute; reflexivity).
assert (Hne : 11 <> 13) by lia.
split; [exact Hp |]. split; [exact Hq |]. split; [exact Hne |].
exact (generate_rsa_keys_single_round sample_entropy 0%nat 5000 11 13
                                      0%nat 1%nat 2%nat Hp Hq Hne).
Defined.

Lemma redraw_q_single_prime (entropy : nat -> Z) (fuel : nat) :
  forall pos q pos', redraw_q entropy fuel 2 2 2 pos <> Ret q pos'.
Proof.
induction fuel as [| fuel IH]; intros pos q pos'; cbn [redraw_q].
- discriminate.
- change (2 =? 2) with true. cbv iota. unfold gbind.
  destruct (generatePrime entropy 2 1000 pos) as [q' pos1 | |] eqn:Hq';
    [| discriminate | discriminate].
  destruct (generatePrime_prime_in_range _ _ _ _ _ _ Hq') as (_ & Hprime & Hrange).
  pose proof (Z.prime_ge_2 q' Hprime).
  replace q' with 2 by lia. apply IH.
Qed.

(** X25: with [primeRange = 2] the only prime that can be drawn is 2, so
    [while (p === q)] never ends: [generate_rsa_keys] returns no key
    pair, whatever the draws; and when every draw is the prime 2 no
    error is thrown either, the loop goes on for every bound on its
    iterations. *)
Theorem generate_rsa_keys_single_prime_range
        (entropy : nat -> Z) (fuel pos : nat) :
  (forall kp pos', generate_rsa_keys entropy fuel 2 pos <> Ret kp pos') /\
  ((forall k, entropy k mod 2 = 1) ->
   generate_rsa_keys entropy fuel 2 pos = OutOfFuel).
Proof.
split.
- intros kp pos'. destruct fuel as [| fuel]; cbn [generate_rsa_keys].
  + discriminate.
  + unfold gbind.
    destruct (generatePrime entropy 2 1000 pos) as [p pos1 | |] eqn:Hp;
      [| discriminate | discriminate].
    destruct (generatePrime entropy 2 1000 pos1) as [q0 pos2 | |] eqn:Hq0;
      [| discriminate | discriminate].
    destruct (generatePrime_prime_in_range _ _ _ _ _ _ Hp) as (_ & Hpp & Hpr).
    destruct (generatePrime_prime_in_range _ _ _ _ _ _ Hq0) as (_ & Hqp & Hqr).
    pose proof (Z.prime_ge_2 p Hpp). pose proof (Z.prime_ge_2 q0 Hqp).
    replace p with 2 by lia. replace q0 with 2 by lia.
    destruct (redraw_q entropy fuel 2 2 2 pos2) as [q pos3 | |] eqn:Hq;
      [| discriminate | discriminate].
    exfalso. exact (redraw_q_single_prime entropy fuel pos2 q pos3 Hq).
- intros Hodd.
  assert (Hdraw : forall j, generatePrime entropy 2 1000 j = Ret 2 (S j)).
  { intros j. unfold generatePrime. change 1000%nat with (S 999).
    cbn [generatePrime_loop]. unfold gbind.
    rewrite (MathMore.randomInt_valid entropy 2 j)
      by (unfold MathMore.valid_range; lia).
    unfold MathMore.draw. rewrite Hodd. reflexivity. }
  assert (Hloop : forall n j, redraw_q entropy n 2 2 2 j = OutOfFuel).
  { induction n as [| n IH]; intros j; cbn [redraw_q]; [reflexivity |].
    change (2 =? 2) with true. cbv iota. unfold gbind.
    rewrite Hdraw. apply IH. }
  destruct fuel as [| fuel]; cbn [generate_rsa_keys]; [reflexivity |].
  unfold gbind. rewrite !Hdraw, Hloop. reflexivity.
Qed.

End RsaMore.

(* ================================================================= *)
(** * Messages through the pipeline: rsa.js, hamming.js, client.js *)

Module PipelineFacts.
Import Js MathJs RsaJs RsaFacts HammingJs HammingFacts ClientJs.

(** ** [encrypt_message] and [decrypt_message] *)

(** X8: with a well-formed public key (numerals of [e >= 0] and
    [n <> 0]), [encrypt_message] never fails and returns, in order, one
    symbol per code unit [u] of the message: the numeral of
    [u^e rem n]. *)
Theorem encrypt_message_symbolwise
        (msg : jsstring) (public_key : PublicKey) (e n : Z) :
  BigInt (pub_e public_key) = Ok e ->
  BigInt (pub_n public_key) = Ok n ->
  0 <= e -> n <> 0 ->
  encrypt_message msg public_key
  = Ok (map (fun u => BigInt_toString (Z.rem (u ^ e) n)) msg).
Proof.
intros He Hn He0 Hn0. rewrite encrypt_message_symbols.
induction msg as [| u msg IH]; [reflexivity |].
cbn [encrypt_symbols map]. rewrite IH.
unfold encrypt_char. rewrite He, Hn. cbn [bind].
unfold big_pow, big_rem.
destruct (Z.ltb_spec e 0) as [Hlt | _]; [lia |].
destruct (Z.eqb_spec n 0) as [Hz | _]; [contradiction |].
reflexivity.
Qed.

Lemma encrypt_message_symbolwise_witness :
  BigInt (pub_e (public_key sample_keys)) = Ok 7 /\
  BigInt (pub_n (public_key sample_keys)) = Ok 143 /\
  0 <= 7 /\ 143 <> 0 /\
  encrypt_message [104; 105] (public_key sample_keys)
  = Ok (map (fun u => BigInt_toString (Z.rem (u ^ 7) 143)) [104; 105]).
Proof.
split; [reflexivity |]. split; [reflexivity |].
split; [lia |]. split; [lia |].
apply (encrypt_message_symbolwise [104; 105] (public_key sample_keys) 7 143);
  [reflexivity | reflexivity | lia | lia].
Defined.

Lemma Number_of_string_exact (z : Z) :
  Z.abs z < 2 ^ 53 -> Number_of_string (BigInt_toString z) = Some z.
Proof.
intros Hz. unfold Number_of_string. rewrite BigInt_toString_roundtrip.
unfold Number_of_BigInt.
destruct (Z.ltb_spec (Z.abs z) (2 ^ 53)) as [_ | Hge]; [reflexivity | lia].
Qed.

(** A code unit that the key can carry. *)
Definition symbol_below (n : Z) (u : Z) : Prop := 0 <= u < n /\ u <= 65535.

Lemma message_roundtrip_pq (p q e d : Z) (msg : jsstring) :
  Z.prime p -> Z.prime q -> p <> q ->
  select_e ((p - 1) * (q - 1)) = Some e ->
  mod_inverse e ((p - 1) * (q - 1)) = Some d ->
  Forall (symbol_below (p * q)) msg ->
  exists cs,
    encrypt_symbols msg {| pub_e := BigInt_toString e;
                           pub_n := BigInt_toString (p * q) |} = Ok cs /\
    List.length cs = List.length msg /\
    decrypt_message cs {| priv_d := BigInt_toString d;
                          priv_n := BigInt_toString (p * q) |} = Ok msg.
Proof.
intros Hp Hq Hne He Hd Hmsg.
induction Hmsg as [| u msg [Hu H16] Hmsg IH].
- exists []. repeat split; reflexivity.
- destruct IH as (cs & Henc & Hlen & Hdec).
  destruct (encrypt_decrypt_char p q e d u Hp Hq Hne He Hd Hu)
    as (c & Hc & Hdc).
  exists (c :: cs). cbn [encrypt_symbols decrypt_message pub_e pub_n
                         priv_d priv_n List.length].
  rewrite Hc, Henc, Hdc, Hdec. cbn [bind].
  split; [reflexivity |]. split; [rewrite Hlen; reflexivity |].
  rewrite Number_of_string_exact by (rewrite Z.abs_eq; lia).
  unfold of_NaN, fromCharCode. rewrite Z.mod_small by lia. reflexivity.
Qed.

(** X9: under a returned key pair, a message all of whose code units are
    below the modulus [n] is encrypted to one symbol per code unit, and
    [decrypt_message] recovers it exactly. *)
Theorem decrypt_message_encrypt_message
        (entropy : nat -> Z) (fuel : nat) (primeRange : Z) (pos pos' : nat)
        (kp : KeyPair) (n : Z) (msg : jsstring) :
  generate_rsa_keys entropy fuel primeRange pos = Ret kp pos' ->
  BigInt (pub_n (public_key kp)) = Ok n ->
  Forall (symbol_below n) msg ->
  exists cs,
    encrypt_message msg (public_key kp) = Ok cs /\
    List.length cs = List.length msg /\
    decrypt_message cs (private_key kp) = Ok msg.
Proof.
intros Hgen Hn Hmsg.
destruct (generate_rsa_keys_spec _ _ _ _ _ _ Hgen)
  as (p & q & e & d & Hp & Hq & Hne & He & Hd & ->).
simpl in *. rewrite BigInt_toString_roundtrip in Hn. injection Hn as <-.
rewrite encrypt_message_symbols.
exact (message_roundtrip_pq p q e d msg Hp Hq Hne He Hd Hmsg).
Qed.

Lemma decrypt_message_encrypt_message_witness :
  generate_rsa_keys sample_entropy 2%nat 5000 0%nat = Ret sample_keys 2%nat /\
  BigInt (pub_n (public_key sample_keys)) = Ok 143 /\
  Forall (symbol_below 143) [104; 105] /\
  exists cs,
    encrypt_message [104; 105] (public_key sample_keys) = Ok cs /\
    List.length cs = List.length [104; 105] /\
    decrypt_message cs (private_key sample_keys) = Ok [104; 105].
Proof.
assert (Hmsg : Forall (symbol_below 143) [104; 105]).
{ repeat constructor; unfold symbol_below; lia. }
split; [exact sample_keys_generated |].
split; [reflexivity |]. split; [exact Hmsg |].
exact (decrypt_message_encrypt_message
         sample_entropy 2%nat 5000 0%nat 2%nat sample_keys 143 [104; 105]
         sample_keys_generated eq_refl Hmsg).
Defined.

(** ** End to end *)

Lemma encodeMessage_8bit (P : jsstring) :
  Forall is_8bit P ->
  exists E,
    encodeMessage P = Ok E /\ decodeMessage E = Ok P /\
    Forall is_7bit E /\ List.length E = (2 * List.length P)%nat.
Proof.
intros HP. destruct (encodeMessage_range P) as (E & HE & Hrange).
exists E. split; [exact HE |].
unfold encodeMessage in HE.
rewrite (for_of_8bit P HP), (encodeMessage_loop_8bit P [] HP) in HE.
injection HE as <-. cbn [app].
split; [exact (decodeMessage_loop_encoded P [] [] HP) |].
split; [exact Hrange |].
clear. induction P as [| c P IH]; [reflexivity |].
cbn [flat_map]. rewrite length_app, IH. cbn [spec_encode_char List.length]. lia.
Qed.

Lemma pipeline_pq (p q e d : Z) (text : jsstring) (receiver : string) :
  Z.prime p -> Z.prime q -> p <> q ->
  select_e ((p - 1) * (q - 1)) = Some e ->
  mod_inverse e ((p - 1) * (q - 1)) = Some d ->
  127 < p * q ->
  Forall is_8bit text ->
  exists payload,
    sendChatMessage text receiver
      {| pub_e := BigInt_toString e; pub_n := BigInt_toString (p * q) |}
      = Ok (ServerJs.MESSAGE (Some receiver) payload) /\
    List.length payload = (2 * List.length text)%nat /\
    incoming_message_text payload
      {| priv_d := BigInt_toString d; priv_n := BigInt_toString (p * q) |}
      = Ok text.
Proof.
intros Hp Hq Hne He Hd Hbig Htext.
destruct (encodeMessage_8bit text Htext) as (E & Henc & Hdec & Hrange & Hlen).
assert (Hsym : Forall (symbol_below (p * q)) E).
{ apply Forall_impl with (P := is_7bit); [| exact Hrange].
  intros u Hu. unfold is_7bit in Hu. unfold symbol_below. lia. }
destruct (message_roundtrip_pq p q e d E Hp Hq Hne He Hd Hsym)
  as (cs & Hcs & Hcslen & Hback).
exists cs. unfold sendChatMessage, incoming_message_text.
rewrite Henc. cbn [bind]. rewrite encrypt_message_symbols, Hcs. cbn [bind].
split; [reflexivity |]. split; [lia |].
rewrite Hback. cbn [bind]. exact Hdec.
Qed.

(** X10: end to end.  For a text of 8-bit characters and a returned key
    pair whose modulus exceeds 127, [sendChatMessage] builds a MESSAGE
    record for the receiver with two encrypted symbols per character,
    and the receiver's handling of that payload (decrypt, then Hamming
    decode) displays exactly the text. *)
Theorem chat_message_end_to_end
        (entropy : nat -> Z) (fuel : nat) (primeRange : Z) (pos pos' : nat)
        (kp : KeyPair) (n : Z) (text : jsstring) (receiver : string) :
  generate_rsa_keys entropy fuel primeRange pos = Ret kp pos' ->
  BigInt (pub_n (public_key kp)) = Ok n ->
  127 < n ->
  Forall is_8bit text ->
  exists payload,
    sendChatMessage text receiver (public_key kp)
      = Ok (ServerJs.MESSAGE (Some receiver) payload) /\
    List.length payload = (2 * List.length text)%nat /\
    incoming_message_text payload (private_key kp) = Ok text.
Proof.
intros Hgen Hn Hbig Htext.
destruct (generate_rsa_keys_spec _ _ _ _ _ _ Hgen)
  as (p & q & e & d & Hp & Hq & Hne & He & Hd & ->).
simpl in Hn. rewrite BigInt_toString_roundtrip in Hn. injection Hn as <-.
exact (pipeline_pq p q e d text receiver Hp Hq Hne He Hd Hbig Htext).
Qed.

Lemma chat_message_end_to_end_witness :
  generate_rsa_keys sample_entropy 2%nat 5000 0%nat = Ret sample_keys 2%nat /\
  BigInt (pub_n (public_key sample_keys)) = Ok 143 /\
  127 < 143 /\
  Forall is_8bit [104; 105] /\
  exists payload,
    sendChatMessage [104; 105] ServerFacts.alice (public_key sample_keys)
      = Ok (ServerJs.MESSAGE (Some ServerFacts.alice) payload) /\
    List.length payload = (2 * List.length [104; 105])%nat /\
    incoming_message_text payload (private_key sample_keys) = Ok [104; 105].
Proof.
assert (Htext : Forall is_8bit [104; 105]).
{ repeat constructor; unfold is_8bit; lia. }
split; [exact sample_keys_generated |].
split; [reflexivity |]. split; [lia |]. split; [exact Htext |].
exact (chat_message_end_to_end
         sample_entropy 2%nat 5000 0%nat 2%nat sample_keys 143 [104; 105]
         ServerFacts.alice sample_keys_generated eq_refl ltac:(lia) Htext).
Defined.

End PipelineFacts.

(* ================================================================= *)
(** * Further facts about utils/hamming.js *)

Module HammingMore.
Import Js HammingJs HammingFacts.

(** ** Sizes *)

(** X11: [encodeNibble] returns a 7-bit word exactly for a 4-element
    input and throws "Invalid nibble size" for any other length;
    [decodeNibble] returns 4 elements exactly for a 7-element input and
    throws "Invalid word size received." for any other length. *)
Theorem nibble_size_errors (l : list Z) :
  (List.length l = 4%nat ->
   exists c, encodeNibble l = Ok c /\ List.length c = 7%nat) /\
  (List.length l <> 4%nat ->
   encodeNibble l = Throw (Error "Invalid nibble size")) /\
  (List.length l = 7%nat ->
   exists d, decodeNibble l = Ok d /\ List.length d = 4%nat) /\
  (List.length l <> 7%nat ->
   decodeNibble l = Throw (Error "Invalid word size received.")).
Proof.
split; [| split; [| split]].
- intros Hlen.
  destruct l as [| a [| b [| c [| d [| ? ?]]]]]; try discriminate.
  eexists. split; reflexivity.
- intros Hlen.
  destruct l as [| a [| b [| c [| d [| ? ?]]]]]; try reflexivity.
  exfalso. apply Hlen. reflexivity.
- intros Hlen.
  destruct l as [| a [| b [| c [| d [| e [| f [| g [| ? ?]]]]]]]];
    try discriminate.
  unfold decodeNibble. eexists. split; reflexivity.
- intros Hlen.
  destruct l as [| a [| b [| c [| d [| e [| f [| g [| ? ?]]]]]]]];
    try reflexivity.
  exfalso. apply Hlen. reflexivity.
Qed.

(** ** Every word decodes to the nearest codeword *)

(** Number of positions at which two words differ. *)
Fixpoint distance (u v : list Z) : nat :=
  match u, v with
  | x :: u', y :: v' => (if x =? y then 0 else 1) + distance u' v'
  | _, _ => 0
  end.

Definition bits : list Z := [0; 1].

(** All words of [n] bits. *)
Fixpoint words (n : nat) : list (list Z) :=
  match n with
  | O => [[]]
  | S n' => flat_map (fun w => map (fun b => b :: w) bits) (words n')
  end.

Lemma words_complete (n : nat) (w : list Z) :
  List.length w = n -> Forall is_bit w -> In w (words n).
Proof.
revert w. induction n as [| n IH]; intros w Hlen Hw.
- destruct w; [left; reflexivity | discriminate].
- destruct w as [| b w]; [discriminate |].
  inversion Hw as [| ? ? Hb Hw']; subst.
  cbn [words]. apply in_flat_map. exists w.
  split; [apply IH; [simpl in Hlen; lia | exact Hw'] |].
  apply in_map_iff. exists b. split; [reflexivity |].
  destruct Hb as [-> | ->]; simpl; tauto.
Qed.

Lemma words_bits (n : nat) (w : list Z) :
  In w (words n) -> List.length w = n /\ Forall is_bit w.
Proof.
revert w. induction n as [| n IH]; intros w Hin; cbn [words] in Hin.
- destruct Hin as [<- | []]. split; [reflexivity | constructor].
- apply in_flat_map in Hin. destruct Hin as (w' & Hw' & Hin).
  apply in_map_iff in Hin. destruct Hin as (b & <- & Hb).
  destruct (IH w' Hw') as [Hlen Hbits].
  split; [simpl; rewrite Hlen; reflexivity |].
  constructor; [| exact Hbits].
  destruct Hb as [<- | [<- | []]]; [left | right]; reflexivity.
Qed.

(** The check behind the next theorem, on a decoder result. *)
Definition nearest_check (w : list Z) (r : result (list Z)) : bool :=
  match r with
  | Ok N =>
      existsb (fun N' => if list_eq_dec Z.eq_dec N N' then true else false)
              (words 4) &&
      match encodeNibble N with
      | Ok c => (distance c w <=? 1)%nat
      | Throw _ => false
      end
  | Throw _ => false
  end.

Lemma nearest_check_sound (w : list Z) (r : result (list Z)) :
  nearest_check w r = true ->
  exists N c,
    r = Ok N /\ List.length N = 4%nat /\ Forall is_bit N /\
    encodeNibble N = Ok c /\ (distance c w <= 1)%nat.
Proof.
unfold nearest_check. intros H.
destruct r as [N | e]; [| discriminate].
apply andb_prop in H. destruct H as [Hex Hc].
apply existsb_exists in Hex. destruct Hex as (N' & HN' & Heq).
destruct (list_eq_dec Z.eq_dec N N') as [<- | _]; [| discriminate].
destruct (words_bits 4 N HN') as [Hlen Hbits].
destruct (encodeNibble N) as [c | e] eqn:Henc; [| discriminate].
exists N, c. apply Nat.leb_le in Hc.
split; [reflexivity |]. split; [exact Hlen |]. split; [exact Hbits |].
split; [exact Henc | exact Hc].
Qed.

Lemma nearest_check_all :
  forallb (fun w => nearest_check w (decodeNibble w)) (words 7) = true.
Proof.
vm_compute. reflexivity.
Qed.

(** X12: every word of 7 bits is decoded without error to a nibble
    whose codeword differs from the word in at most one position. *)
Theorem decodeNibble_nearest_codeword (w : list Z) :
  List.length w = 7%nat -> Forall is_bit w ->
  exists N c,
    decodeNibble w = Ok N /\ List.length N = 4%nat /\ Forall is_bit N /\
    encodeNibble N = Ok c /\ (distance c w <= 1)%nat.
Proof.
intros Hlen Hbits.
pose proof (words_complete 7 w Hlen Hbits) as Hin.
pose proof (proj1 (forallb_forall _ _) nearest_check_all w Hin) as Hcheck.
cbv beta in Hcheck. exact (nearest_check_sound w _ Hcheck).
Qed.

Definition received_word : list Z := [1; 1; 1; 0; 0; 0; 1].

Lemma decodeNibble_nearest_codeword_witness :
  (List.length received_word = 7%nat /\ Forall is_bit received_word) /\
  exists N c,
    decodeNibble received_word = Ok N /\
    List.length N = 4%nat /\ Forall is_bit N /\
    encodeNibble N = Ok c /\ (distance c received_word <= 1)%nat.
Proof.
assert (Hbits : Forall is_bit received_word).
{ repeat constructor; unfold is_bit; lia. }
split; [split; [reflexivity | exact Hbits] |].
exact (decodeNibble_nearest_codeword received_word eq_refl Hbits).
Defined.

(** ** Two flipped bits *)

Definition double_error_check (N : list Z) (i j : nat) : bool :=
  match encodeNibble N with
  | Ok c =>
      match decodeNibble (flip_bit (flip_bit c i) j) with
      | Ok N' => if list_eq_dec Z.eq_dec N' N then false else true
      | Throw _ => false
      end
  | Throw _ => false
  end.

Lemma double_error_check_all :
  forallb (fun N =>
    forallb (fun i =>
      forallb (fun j => (j <=? i)%nat || double_error_check N i j)
              (seq 1 7))
            (seq 1 7))
          (words 4) = true.
Proof.
vm_compute. reflexivity.
Qed.

(** X13: flipping two distinct bits of a codeword is never detected:
    [decodeNibble] returns, without error, a nibble different from the
    one encoded. *)
Theorem decodeNibble_miscorrects_double_error (N : list Z) (i j : nat) :
  List.length N = 4%nat -> Forall is_bit N ->
  (1 <= i < j)%nat -> (j <= 7)%nat ->
  exists c N',
    encodeNibble N = Ok c /\
    decodeNibble (flip_bit (flip_bit c i) j) = Ok N' /\
    N' <> N.
Proof.
intros Hlen Hbits Hij Hj.
pose proof (words_complete 4 N Hlen Hbits) as HN.
pose proof (proj1 (forallb_forall _ _) double_error_check_all N HN) as H1.
cbv beta in H1.
pose proof (proj1 (forallb_forall _ _) H1 i ltac:(apply in_seq; lia)) as H2.
cbv beta in H2.
pose proof (proj1 (forallb_forall _ _) H2 j ltac:(apply in_seq; lia)) as H3.
cbv beta in H3.
destruct (Nat.leb_spec j i) as [Hle | _]; [lia |].
cbn [orb] in H3. unfold double_error_check in H3.
destruct (encodeNibble N) as [c | e] eqn:Henc; [| discriminate].
destruct (decodeNibble (flip_bit (flip_bit c i) j)) as [N' | e] eqn:Hdec;
  [| discriminate].
destruct (list_eq_dec Z.eq_dec N' N) as [_ | Hne]; [discriminate |].
exists c, N'. split; [reflexivity |]. split; [exact Hdec | exact Hne].
Qed.

Lemma decodeNibble_miscorrects_double_error_witness :
  (List.length [1; 0; 1; 1] = 4%nat /\ Forall is_bit [1; 0; 1; 1] /\
   (1 <= 2 < 5)%nat /\ (5 <= 7)%nat) /\
  exists c N',
    encodeNibble [1; 0; 1; 1] = Ok c /\
    decodeNibble (flip_bit (flip_bit c 2) 5) = Ok N' /\
    N' <> [1; 0; 1; 1].
Proof.
assert (Hbits : Forall is_bit [1; 0; 1; 1]).
{ repeat constructor; unfold is_bit; lia. }
split; [split; [reflexivity | split; [exact Hbits | lia]] |].
exact (decodeNibble_miscorrects_double_error
         [1; 0; 1; 1] 2 5 eq_refl Hbits ltac:(lia) ltac:(lia)).
Defined.

(** ** Strings beyond 8 bits *)

Definition is_code_unit (u : Z) : Prop := 0 <= u <= 65535.

Lemma ToInt32_small (x : Z) : 0 <= x <= 65535 -> ToInt32 x = x.
Proof.
intros Hx. unfold ToInt32.
change (2 ^ 31) with 2147483648. change (2 ^ 32) with 4294967296.
rewrite Z.mod_small by lia. lia.
Qed.

(** [(code >> k) & 1] is bit [k] of the code unit. *)
Lemma bit_of_code (code k : Z) :
  is_code_unit code -> 0 <= k <= 7 ->
  band (shr code k) 1 = Z.b2z (Z.testbit code k).
Proof.
intros Hc Hk. unfold band, shr, is_code_unit in *.
rewrite (ToInt32_small code Hc).
rewrite (Z.mod_small k 32) by lia.
rewrite Z.shiftr_div_pow2 by lia.
assert (Hdiv : 0 <= code / 2 ^ k <= 65535).
{ assert (Hpow : 0 < 2 ^ k) by (apply Z.pow_pos_nonneg; lia).
  split; [apply Z.div_pos; lia |].
  apply Z.le_trans with code; [| lia].
  apply Z.div_le_upper_bound; [lia | nia]. }
rewrite (ToInt32_small _ Hdiv).
change (ToInt32 1) with (Z.ones 1). rewrite Z.land_ones by lia.
change (2 ^ 1) with 2. rewrite Z.testbit_spec' by lia. reflexivity.
Qed.

Lemma bit0_of_code (code : Z) :
  is_code_unit code -> band code 1 = Z.b2z (Z.testbit code 0).
Proof.
intros Hc. unfold band. rewrite (ToInt32_small code Hc).
change (ToInt32 1) with (Z.ones 1). rewrite Z.land_ones by lia.
change (2 ^ 1) with 2. rewrite Z.testbit_spec' by lia.
rewrite Z.div_1_r. reflexivity.
Qed.

Lemma low_byte_code_unit (code : Z) : is_code_unit (code mod 256).
Proof.
unfold is_code_unit. pose proof (Z.mod_pos_bound code 256 ltac:(lia)). lia.
Qed.

Lemma testbit_low_byte (code k : Z) :
  0 <= k <= 7 -> Z.testbit (code mod 256) k = Z.testbit code k.
Proof.
intros Hk. change 256 with (2 ^ 8). apply Z.mod_pow2_bits_low. lia.
Qed.

(** The encoder reads the low byte of the first code unit of a
    character only. *)
Lemma encodeChar_low_byte (code : Z) (tail : jsstring) :
  is_code_unit code ->
  encodeChar (code :: tail) = encodeChar [code mod 256].
Proof.
intros Hc. pose proof (low_byte_code_unit code) as Hl.
unfold encodeChar. cbn [charCodeAt nth_error of_NaN].
rewrite !(bit_of_code code) by (assumption || lia).
rewrite !(bit_of_code (code mod 256)) by (assumption || lia).
rewrite (bit0_of_code code Hc), (bit0_of_code (code mod 256) Hl).
rewrite !testbit_low_byte by lia. reflexivity.
Qed.

(** What the decoder gives back for a character [ch] of the input. *)
Definition low_byte (ch : jsstring) : Z := of_NaN (charCodeAt ch 0) mod 256.

(** A character produced by [for (let ch of s)]: non-empty, and its
    first code unit is a code unit of [s]. *)
Definition is_char (ch : jsstring) : Prop :=
  exists code tail, ch = code :: tail /\ is_code_unit code.

Lemma for_of_chars (P : jsstring) :
  Forall is_code_unit P -> Forall is_char (for_of P).
Proof.
assert (Hgen : forall n P, (List.length P <= n)%nat ->
                           Forall is_code_unit P -> Forall is_char (for_of P)).
{ induction n as [| n IH]; intros Q Hlen HQ.
  - destruct Q; [constructor | simpl in Hlen; lia].
  - destruct Q as [| u [| v Q']].
    + constructor.
    + inversion HQ; subst. cbn [for_of].
      constructor; [exists u, []; split; [reflexivity | assumption] |].
      constructor.
    + inversion HQ as [| ? ? Hu HQ1]; subst.
      inversion HQ1 as [| ? ? Hv HQ2]; subst.
      cbn [for_of].
      destruct (is_high_surrogate u && is_low_surrogate v).
      * constructor; [exists u, [v]; split; [reflexivity | assumption] |].
        apply IH; [simpl in Hlen; lia | exact HQ2].
      * constructor; [exists u, []; split; [reflexivity | assumption] |].
        apply (IH (v :: Q')); [simpl in *; lia | exact HQ1]. }
intros HP. exact (Hgen (List.length P) P (Nat.le_refl _) HP).
Qed.

Lemma encodeMessage_loop_chars (chars : list jsstring) (acc : jsstring) :
  Forall is_char chars ->
  encodeMessage_loop chars acc =
  Ok (acc ++ flat_map spec_encode_char (map low_byte chars)).
Proof.
intros Hchars. revert acc.
induction Hchars as [| ch chars (code & tail & -> & Hcode) Hchars IH];
  intros acc; cbn [map encodeMessage_loop flat_map].
- rewrite app_nil_r. reflexivity.
- rewrite (encodeChar_low_byte code tail Hcode).
  pose proof (low_byte_code_unit code) as Hl.
  destruct (char_roundtrip (code mod 256)) as [Henc _].
  { pose proof (Z.mod_pos_bound code 256 ltac:(lia)). lia. }
  rewrite Henc. cbn [bind]. rewrite IH, <- app_assoc.
  unfold low_byte at 1. cbn [charCodeAt nth_error of_NaN]. reflexivity.
Qed.

(** X14: on any string, [encodeMessage] emits two units per character
    of the [for ... of] iteration (a surrogate pair counts once), and
    [decodeMessage] of the result gives, for each such character, the
    low byte of its first code unit: characters above 255 do not
    survive the codec. *)
Theorem decodeMessage_encodeMessage_low_bytes (P : jsstring) :
  Forall is_code_unit P ->
  exists E,
    encodeMessage P = Ok E /\
    List.length E = (2 * List.length (for_of P))%nat /\
    decodeMessage E = Ok (map low_byte (for_of P)).
Proof.
intros HP. pose proof (for_of_chars P HP) as Hchars.
exists (flat_map spec_encode_char (map low_byte (for_of P))).
unfold encodeMessage, decodeMessage.
rewrite (encodeMessage_loop_chars _ [] Hchars).
split; [reflexivity |].
assert (H8 : Forall is_8bit (map low_byte (for_of P))).
{ apply Forall_map. apply Forall_forall. intros ch _.
  unfold is_8bit, low_byte.
  pose proof (Z.mod_pos_bound (of_NaN (charCodeAt ch 0)) 256 ltac:(lia)). lia. }
split.
- rewrite <- (length_map low_byte (for_of P)).
  generalize (map low_byte (for_of P)). intros l.
  induction l as [| c l IH]; [reflexivity |].
  cbn [flat_map]. rewrite length_app, IH.
  cbn [spec_encode_char List.length]. lia.
- exact (decodeMessage_loop_encoded _ [] [] H8).
Qed.

(** An emoji (one surrogate pair) followed by the euro sign. *)
Definition wide_text : jsstring := [55357; 56832; 8364].

Lemma decodeMessage_encodeMessage_low_bytes_witness :
  Forall is_code_unit wide_text /\
  exists E,
    encodeMessage wide_text = Ok E /\
    List.length E = (2 * List.length (for_of wide_text))%nat /\
    decodeMessage E = Ok (map low_byte (for_of wide_text)).
Proof.
assert (HP : Forall is_code_unit wide_text).
{ repeat constructor; unfold is_code_unit; lia. }
split; [exact HP |].
exact (decodeMessage_encodeMessage_low_bytes wide_text HP).
Defined.

End HammingMore.

(* ================================================================= *)
(** * Further facts about server.js *)

Module ServerMore.
Import ServerJs JsMapFacts ServerFacts.

Local Open Scope string_scope.

Section BrokerMore.

Context {PK Payload : Type} {preview : Preview Payload}.

Implicit Types (st : State PK Payload) (msg : message PK Payload).
Implicit Types (d : ClientData PK) (ev : event PK Payload).
Implicit Types (lines : list (option (message PK Payload))).

(** ** What one record can do *)

Lemma sendJson_In st (s s' : Socket) (data data' : reply PK Payload) :
  In (s', data') (sendJson st s data) ->
  s' = s /\ data' = data /\ writable (sockets st s) = true.
Proof.
unfold sendJson. destruct (writable (sockets st s)) eqn:Hw; [| intros []].
intros [Heq | []]. injection Heq as <- <-. repeat split. 
Qed.

Lemma sendJson_length st (s : Socket) (data : reply PK Payload) :
  (List.length (sendJson st s data) <= 1)%nat.
Proof.
unfold sendJson. destruct (writable (sockets st s)); simpl; lia.
Qed.

(** No record changes the writability of a socket. *)
Lemma handle_message_writable st cid msg (s : Socket) :
  writable (sockets (fst (fst (handle_message st cid msg))) s)
  = writable (sockets st s).
Proof.
destruct msg as [nm pk | | t | r p | ty];
  try (rewrite handle_message_state by discriminate; reflexivity).
simpl. destruct (String.eqb s cid); reflexivity.
Qed.

(** A record changes the registry entry of its own connection only. *)
Lemma handle_message_other_entries st cid msg (k : string) :
  k <> cid ->
  JsMap.get (clients (fst (fst (handle_message st cid msg)))) k
  = JsMap.get (clients st) k.
Proof.
intros Hk.
destruct msg as [nm pk | | t | r p | ty];
  try (rewrite handle_message_state by discriminate; reflexivity).
simpl. apply get_set_other. exact Hk.
Qed.

(** A record is answered with at most one write, to a writable socket. *)
Lemma handle_message_writes st cid msg :
  (List.length (snd (fst (handle_message st cid msg))) <= 1)%nat /\
  forall w, In w (snd (fst (handle_message st cid msg))) ->
            writable (sockets st (fst w)) = true.
Proof.
assert (Hsend : forall st' (s : Socket) (data : reply PK Payload),
           (forall s', writable (sockets st' s') = writable (sockets st s')) ->
           (List.length (sendJson st' s data) <= 1)%nat /\
           forall w, In w (sendJson st' s data) ->
                     writable (sockets st (fst w)) = true).
{ intros st' s data Hsame. split; [apply sendJson_length |].
  intros [s' data'] Hin. apply sendJson_In in Hin.
  destruct Hin as (-> & _ & Hw). simpl. rewrite <- Hsame. exact Hw. }
destruct msg as [nm pk | | t | r p | ty]; simpl.
- apply Hsend. intros s'. simpl. destruct (String.eqb s' cid); reflexivity.
- apply Hsend. reflexivity.
- repeat break_match; simpl; apply Hsend; reflexivity.
- repeat break_match; simpl;
    try (apply Hsend; reflexivity);
    (split; [lia | intros w []]).
- apply Hsend. reflexivity.
Qed.


(** ** What one data event can do *)

Lemma handle_line_writable st cid (line : option (message PK Payload))
      (s : Socket) :
  writable (sockets (fst (fst (handle_line st cid line))) s)
  = writable (sockets st s).
Proof.
destruct line as [msg |]; simpl; [apply handle_message_writable | reflexivity].
Qed.

Lemma handle_line_other_entries st cid (line : option (message PK Payload))
      (k : string) :
  k <> cid ->
  JsMap.get (clients (fst (fst (handle_line st cid line)))) k
  = JsMap.get (clients st) k.
Proof.
intros Hk. destruct line as [msg |]; simpl; [| reflexivity].
apply handle_message_other_entries. exact Hk.
Qed.

Lemma handle_line_writes st cid (line : option (message PK Payload)) :
  (List.length (snd (fst (handle_line st cid line))) <= 1)%nat /\
  forall w, In w (snd (fst (handle_line st cid line))) ->
            writable (sockets st (fst w)) = true.
Proof.
destruct line as [msg |]; simpl; [apply handle_message_writes |].
split; [apply sendJson_length |].
intros [s' data'] Hin. apply sendJson_In in Hin.
destruct Hin as (-> & _ & Hw). exact Hw.
Qed.

Lemma process_lines_facts lines :
  forall st cid,
    let r := process_lines st cid lines in
    (forall s, writable (sockets (fst (fst r)) s) = writable (sockets st s)) /\
    (forall k, k <> cid ->
               JsMap.get (clients (fst (fst r))) k = JsMap.get (clients st) k) /\
    (List.length (snd (fst r)) <= List.length lines)%nat /\
    (forall w, In w (snd (fst r)) -> writable (sockets st (fst w)) = true).
Proof.
induction lines as [| line rest IH]; intros st cid; cbn zeta.
- simpl. split; [reflexivity |]. split; [reflexivity |].
  split; [lia | intros w []].
- cbn [process_lines].
  pose proof (handle_line_writable st cid line) as Hw1.
  pose proof (handle_line_other_entries st cid line) as Ho1.
  pose proof (handle_line_writes st cid line) as [Hl1 Hs1].
  destruct (handle_line st cid line) as [[st1 out1] continue].
  simpl in Hw1, Ho1, Hl1, Hs1.
  destruct continue.
  + specialize (IH st1 cid). cbn zeta in IH.
    destruct (process_lines st1 cid rest) as [[st2 out2] pending].
    simpl in IH. destruct IH as (Hw2 & Ho2 & Hl2 & Hs2). simpl.
    split; [intros s; rewrite Hw2; apply Hw1 |].
    split; [intros k Hk; rewrite (Ho2 k Hk); apply Ho1; exact Hk |].
    split; [rewrite length_app; lia |].
    intros w Hin. apply in_app_or in Hin. destruct Hin as [Hin | Hin].
    * apply Hs1. exact Hin.
    * rewrite <- Hw1. apply Hs2. exact Hin.
  + simpl. split; [exact Hw1 |]. split; [exact Ho1 |].
    split; [lia | exact Hs1].
Qed.



(** The lines a data event has to process. *)
Definition pending_lines st (cid : string) lines
  : list (option (message PK Payload)) :=
  (clientBuffer (sockets st cid) ++ lines)%list.

(** The connection an event belongs to. *)
Definition origin ev : option string :=
  match ev with
  | Data cid _ => Some cid
  | End cid => Some cid
  | SocketError cid => Some cid
  | SetWritable _ _ => None
  end.




(** X26: for the records of the protocol, whose name, target and
    receiver are strings or missing and whose payload is any value, a
    data event writes at most one record per line it has to process,
    buffered lines included. *)
Theorem one_record_per_line st (cid : string) lines :
  (List.length (snd (step st (Data cid lines)))
   <= List.length (pending_lines st cid lines))%nat.
Proof.
cbn [step]. unfold on_data, pending_lines.
pose proof (process_lines_facts
              (clientBuffer (sockets st cid) ++ lines)%list st cid) as H.
cbn zeta in H.
destruct (process_lines st cid _) as [[st1 out] pending].
cbn [fst snd] in *. destruct H as (_ & _ & Hlen & _). exact Hlen.
Qed.

(** X16: an event of one connection leaves the registry entry of every
    other connection as it is: a client can register, overwrite or
    remove its own entry only. *)
Theorem step_touches_own_entry st ev (k : string) :
  reachable st ->
  origin ev <> Some k ->
  JsMap.get (clients (fst (step st ev))) k = JsMap.get (clients st) k.
Proof.
intros Hreach Hk. pose proof (reachable_wf st Hreach) as Hwf.
destruct ev as [cid lines | cid | cid | s w]; simpl in *.
- assert (Hne : k <> cid) by congruence.
  unfold on_data.
  pose proof (process_lines_facts
                (clientBuffer (sockets st cid) ++ lines)%list st cid) as H.
  cbn zeta in H.
  destruct (process_lines st cid _) as [[st1 out] pending].
  simpl in *. destruct H as (_ & Ho & _). exact (Ho k Hne).
- assert (Hne : k <> cid) by congruence.
  destruct (on_end_removes st cid Hwf) as (_ & Ho & _). exact (Ho k Hne).
- assert (Hne : k <> cid) by congruence.
  destruct (on_error_removes st cid Hwf) as (_ & Ho & _). exact (Ho k Hne).
- reflexivity.
Qed.


(** ** Buffered lines *)






(** ** The client list *)

(** The list a LIST_REQUEST is answered with. *)
Definition client_list st : list (string * string) :=
  map (fun '(id, clientData) => (id, name clientData)) (clients st).

Lemma list_request_reply st (requester : string) :
  handle_message st requester LIST_REQUEST
  = (st, sendJson st requester (CLIENT_LIST (client_list st)), true).
Proof.
reflexivity.
Qed.

Lemma client_list_spec st (id nm : string) :
  NoDup (JsMap.keys (clients st)) ->
  In (id, nm) (client_list st) <->
  exists d, JsMap.get (clients st) id = Some d /\ name d = nm.
Proof.
intros Hnd. unfold client_list. rewrite in_map_iff. split.
- intros ([id' d] & Heq & Hin). injection Heq as -> <-.
  exists d. split; [apply In_get; assumption | reflexivity].
- intros (d & Hget & <-). exists (id, d).
  split; [reflexivity | apply get_In; exact Hget].
Qed.

(** X20: after a connection registers, a LIST_REQUEST from any
    connection, the registrant included, is answered with a list that
    holds the registrant exactly once, under the name it registered with
    (the empty string for none), next to the entries of the other
    registered connections, unchanged. *)
Theorem list_after_register st (cid requester : string) (nm : field) (pk : PK) :
  reachable st ->
  let st1 := fst (fst (handle_message st cid (REGISTER nm pk))) in
  handle_message st1 requester LIST_REQUEST
    = (st1, sendJson st1 requester (CLIENT_LIST (client_list st1)), true) /\
  (forall n, In (cid, n) (client_list st1) <-> n = or_else nm EmptyString) /\
  NoDup (map fst (client_list st1)) /\
  (forall id n, id <> cid ->
     (In (id, n) (client_list st1) <-> In (id, n) (client_list st))).
Proof.
intros Hreach. cbn zeta. pose proof (reachable_wf st Hreach) as Hwf.
destruct (register_replaces st cid nm pk Hwf) as (Hget & Hother & Hnd).
cbn zeta in Hget, Hother, Hnd.
set (st1 := fst (fst (handle_message st cid (REGISTER nm pk)))) in *.
split; [apply list_request_reply |]. split; [| split].
- intros n. rewrite (client_list_spec st1 cid n Hnd). rewrite Hget. split.
  + intros (d & Hd & <-). injection Hd as <-. reflexivity.
  + intros ->. eexists. split; reflexivity.
- unfold client_list. rewrite map_map.
  replace (map (fun x => fst (let '(id, clientData) := x in
                              (id, name clientData))) (clients st1))
    with (JsMap.keys (clients st1)); [exact Hnd |].
  unfold JsMap.keys. apply map_ext. intros [id d]. reflexivity.
- intros id n Hid.
  rewrite (client_list_spec st1 id n Hnd),
          (client_list_spec st id n (proj1 Hwf)).
  rewrite (Hother id Hid). reflexivity.
Qed.

(** X21: after the end or error handler of a connection has run, the
    list sent for a LIST_REQUEST holds no entry for that connection and
    exactly the entries of the others. *)
Theorem list_after_disconnect st (cid : string) :
  reachable st ->
  forall st1, st1 = on_end st cid \/ st1 = on_error st cid ->
  (forall n, ~ In (cid, n) (client_list st1)) /\
  (forall id n, id <> cid ->
     (In (id, n) (client_list st1) <-> In (id, n) (client_list st))).
Proof.
intros Hreach st1 Hst1. pose proof (reachable_wf st Hreach) as Hwf.
assert (Hrem : removes_entry st st1 cid).
{ destruct Hst1 as [-> | ->];
    [apply on_end_removes | apply on_error_removes]; exact Hwf. }
destruct Hrem as (Hgone & Hother & _ & Hnd).
split.
- intros n Hin. apply (client_list_spec st1 cid n Hnd) in Hin.
  destruct Hin as (d & Hd & _). congruence.
- intros id n Hid.
  rewrite (client_list_spec st1 id n Hnd),
          (client_list_spec st id n (proj1 Hwf)).
  rewrite (Hother id Hid). reflexivity.
Qed.

(** ** Keys through the registry *)

(** X22: once a connection has registered a public key, a
    START_CHAT_REQUEST_PK for its identifier, from any connection, is
    answered with exactly that identifier, the registered name and that
    key: the exact lookup wins over any display name. *)
Theorem start_chat_after_register st (cid requester : string)
        (nm : field) (pk : PK) :
  let st1 := fst (fst (handle_message st cid (REGISTER nm pk))) in
  handle_message st1 requester (START_CHAT_REQUEST_PK (Some cid))
  = (st1,
     sendJson st1 requester
       (START_CHAT_INFO (Some cid) (or_else nm EmptyString) pk),
     true).
Proof.
cbn zeta.
set (st1 := fst (fst (handle_message st cid (REGISTER nm pk)))).
assert (Hget : JsMap.get (clients st1) cid
               = Some {| socket := cid; name := or_else nm EmptyString;
                         public_key := pk |}).
{ unfold st1. simpl. apply get_set_same. }
cbn [handle_message get_field]. rewrite Hget. reflexivity.
Qed.

(** The forwarding branch of the MESSAGE case. *)
Lemma message_forwarded st (cid r : string) (payload : Payload)
      (senderClient receiverClient : ClientData PK) :
  registry_wf st ->
  JsMap.get (clients st) cid = Some senderClient ->
  JsMap.get (clients st) r = Some receiverClient ->
  writable (sockets st r) = true ->
  preview_throws payload = false ->
  handle_message st cid (MESSAGE (Some r) payload)
  = (st, [(r, INCOMING_MESSAGE cid (name senderClient) payload)], true).
Proof.
intros Hwf Hs Hr Hw Hpreview.
pose proof (wf_get_socket st r receiverClient Hwf Hr) as Hsock.
simpl. rewrite Hs, Hpreview, Hr, Hsock, Hw. unfold sendJson.
rewrite Hsock, Hw. reflexivity.
Qed.

End BrokerMore.

(** ** The broker of the chat application *)

(** X23: the chat scenario through the broker.  With sender and
    receiver registered, the receiver's connection writable and the
    receiver's registered public key that of a returned key pair with
    modulus above 127: the sender's START_CHAT_REQUEST_PK is answered
    with that key, the MESSAGE record built from a text of 8-bit
    characters is forwarded to the receiver alone, payload unchanged,
    and the receiver decodes it to exactly the text. *)
Theorem chat_through_broker
        (entropy : nat -> Z) (fuel : nat) (primeRange : Z) (pos pos' : nat)
        (kp : RsaJs.KeyPair) (n : Z) (text : Js.jsstring)
        (st : Broker) (sender receiver : string)
        (senderClient receiverClient : ClientData RsaJs.PublicKey) :
  RsaJs.generate_rsa_keys entropy fuel primeRange pos = MathJs.Ret kp pos' ->
  Js.BigInt (RsaJs.pub_n (RsaJs.public_key kp)) = Js.Ok n ->
  127 < n ->
  Forall HammingFacts.is_8bit text ->
  reachable st ->
  JsMap.get (clients st) sender = Some senderClient ->
  JsMap.get (clients st) receiver = Some receiverClient ->
  public_key receiverClient = RsaJs.public_key kp ->
  writable (sockets st receiver) = true ->
  handle_message st sender (START_CHAT_REQUEST_PK (Some receiver))
    = (st,
       sendJson st sender
         (START_CHAT_INFO (Some receiver) (name receiverClient)
                          (RsaJs.public_key kp)),
       true) /\
  exists payload,
    ClientJs.sendChatMessage text receiver (RsaJs.public_key kp)
      = Js.Ok (MESSAGE (Some receiver) payload) /\
    handle_message st sender (MESSAGE (Some receiver) payload)
      = (st, [(receiver, INCOMING_MESSAGE sender (name senderClient) payload)],
         true) /\
    ClientJs.incoming_message_text payload (RsaJs.private_key kp)
      = Js.Ok text.
Proof.
intros Hgen Hn Hbig Htext Hreach Hs Hr Hkey Hw.
pose proof (reachable_wf st Hreach) as Hwf.
split.
- cbn [handle_message get_field]. rewrite Hr, Hkey. reflexivity.
- destruct (RsaFacts.generate_rsa_keys_spec _ _ _ _ _ _ Hgen)
    as (p & q & e & d & Hp & Hq & Hne & He & Hd & ->).
  simpl in Hn. rewrite RsaFacts.BigInt_toString_roundtrip in Hn.
  injection Hn as <-.
  destruct (PipelineFacts.pipeline_pq p q e d text receiver
              Hp Hq Hne He Hd Hbig Htext) as (payload & Hsend & _ & Hread).
  exists payload. split; [exact Hsend |]. split; [| exact Hread].
  exact (message_forwarded st sender receiver payload senderClient
                           receiverClient Hwf Hs Hr Hw eq_refl).
Qed.

Lemma chat_through_broker_witness :
  RsaJs.generate_rsa_keys RsaFacts.sample_entropy 2%nat 5000 0%nat
    = MathJs.Ret RsaFacts.sample_keys 2%nat /\
  127 < 143 /\
  Forall HammingFacts.is_8bit [104; 105] /\
  reachable both_registered /\
  writable (sockets both_registered alice) = true /\
  handle_message both_registered bob (START_CHAT_REQUEST_PK (Some alice))
    = (both_registered,
       sendJson both_registered bob
         (START_CHAT_INFO (Some alice) "alice"
                          (RsaJs.public_key RsaFacts.sample_keys)),
       true) /\
  exists payload,
    ClientJs.sendChatMessage [104; 105] alice
                             (RsaJs.public_key RsaFacts.sample_keys)
      = Js.Ok (MESSAGE (Some alice) payload) /\
    handle_message both_registered bob (MESSAGE (Some alice) payload)
      = (both_registered, [(alice, INCOMING_MESSAGE bob "bob" payload)], true) /\
    ClientJs.incoming_message_text payload
                                   (RsaJs.private_key RsaFacts.sample_keys)
      = Js.Ok [104; 105].
Proof.
assert (Htext : Forall HammingFacts.is_8bit [104; 105]).
{ repeat constructor; unfold HammingFacts.is_8bit; lia. }
split; [exact RsaFacts.sample_keys_generated |].
split; [lia |]. split; [exact Htext |].
split; [exact both_registered_reachable |]. split; [reflexivity |].
exact (chat_through_broker
         RsaFacts.sample_entropy 2%nat 5000 0%nat 2%nat RsaFacts.sample_keys
         143 [104; 105] both_registered bob alice
         {| socket := bob; name := "bob"; public_key := bob_key |}
         {| socket := alice; name := "alice"; public_key := alice_key |}
         RsaFacts.sample_keys_generated eq_refl ltac:(lia) Htext
         both_registered_reachable eq_refl eq_refl eq_refl eq_refl).
Defined.


Lemma step_touches_own_entry_witness :
  reachable both_registered /\
  origin (End bob : event RsaJs.PublicKey (list string)) <> Some alice /\
  JsMap.get (clients (fst (step both_registered (End bob)))) alice
  = JsMap.get (clients both_registered) alice.
Proof.
assert (Hne : origin (End bob : event RsaJs.PublicKey (list string))
              <> Some alice).
{ simpl. discriminate. }
split; [exact both_registered_reachable |]. split; [exact Hne |].
exact (step_touches_own_entry both_registered (End bob) alice
                              both_registered_reachable Hne).
Defined.




Lemma list_after_register_witness :
  reachable alice_registered /\
  let st1 :=
    fst (fst (handle_message alice_registered bob (REGISTER None bob_key))) in
  handle_message st1 alice LIST_REQUEST
    = (st1, sendJson st1 alice (CLIENT_LIST (client_list st1)), true) /\
  (forall n, In (bob, n) (client_list st1) <-> n = or_else None EmptyString) /\
  NoDup (map fst (client_list st1)) /\
  (forall id n, id <> bob ->
     (In (id, n) (client_list st1) <-> In (id, n) (client_list alice_registered))).
Proof.
split; [exact alice_registered_reachable |].
exact (list_after_register alice_registered bob alice None bob_key
                           alice_registered_reachable).
Defined.

Lemma list_after_disconnect_witness :
  reachable both_registered /\
  (on_end both_registered bob = on_end both_registered bob \/
   on_end both_registered bob = on_error both_registered bob) /\
  (forall n, ~ In (bob, n) (client_list (on_end both_registered bob))) /\
  (forall id n, id <> bob ->
     (In (id, n) (client_list (on_end both_registered bob))
      <-> In (id, n) (client_list both_registered))).
Proof.
split; [exact both_registered_reachable |].
split; [left; reflexivity |].
exact (list_after_disconnect both_registered bob both_registered_reachable
                             (on_end both_registered bob)
                             (or_introl eq_refl)).
Defined.

End ServerMore.
